(** * Fruit Box (apple-game): a shallow embedding of [script.js]

    The model follows the second, complete revision of the script (the one
    with the session phases, the live highlight, the particles and the
    refill).  JavaScript numbers are IEEE 754 binary64 values; the kernel's
    primitive [float] is the same format with the same round-to-nearest
    operations, so canvas coordinates are modelled as [float] and every
    arithmetic expression of the script is transcribed operation by
    operation.  Numbers that the script only ever uses as small integers (token
    values, the score, the clock, the best score) are modelled in [Z].

    What the host provides is kept abstract: [Math.random] is a stream of
    draws read through a cursor stored in the game state, and [Math.hypot]
    (whose result is implementation-approximated) is a parameter. *)

From Stdlib Require Import String ZArith List Bool Lia.
From Stdlib Require Import PrimFloat SpecFloat FloatOps FloatAxioms.
Import ListNotations.

Set Warnings "-inexact-float".
Local Open Scope float_scope.

(** ** Points and the ray-casting test *)

Record Point := mkPoint { x : float; y : float }.

Definition origin : Point := mkPoint 0 0.

(** JavaScript's [a > b] on numbers. *)
Definition gtb (a b : float) : bool := b <? a.

(** The body of the loop of [isPointInPolygon]: the value of [intersect] for
    the query point [p], [vi = vs[i]] and [vj = vs[j]]. *)
Definition intersect (p vi vj : Point) : bool :=
  xorb (gtb (y vi) (y p)) (gtb (y vj) (y p))
  && (x p <? (x vj - x vi) * (y p - y vi) / (y vj - y vi) + x vi).

(** One iteration at index [i]; the accumulator is [(inside, j)] and the
    update [j = i++] leaves [j] at the index just visited. *)
Definition pip_step (p : Point) (vs : list Point) (acc : bool * nat) (i : nat)
  : bool * nat :=
  let '(inside, j) := acc in
  ((if intersect p (nth i vs origin) (nth j vs origin) then negb inside else inside), i).

(** [for (let i = 0, j = vs.length - 1; i < vs.length; j = i++)] *)
Definition isPointInPolygon (p : Point) (vs : list Point) : bool :=
  fst (fold_left (pip_step p vs) (seq 0 (length vs)) (false, (length vs - 1)%nat)).

(** *** The even-odd rule, in the words of the specification

    The polygon's edges join each vertex to its predecessor, the first vertex
    to the last.  An edge is crossed by the ray from [p] towards +infinity when
    its endpoints straddle [p]'s ordinate (one strictly above, the other not)
    and the abscissa where it meets the ray's line exceeds [p]'s. *)

Definition straddles (p a b : Point) : bool :=
  negb (Bool.eqb (y p <? y a) (y p <? y b)).

Definition crossing_x (p a b : Point) : float :=
  (x b - x a) * (y p - y a) / (y b - y a) + x a.

Definition ray_crosses (p : Point) (e : Point * Point) : bool :=
  straddles p (fst e) (snd e) && (x p <? crossing_x p (fst e) (snd e)).

Definition predecessors (vs : list Point) : list Point :=
  match vs with
  | [] => []
  | _ :: _ => last vs origin :: removelast vs
  end.

Definition edges (vs : list Point) : list (Point * Point) :=
  combine vs (predecessors vs).

Definition crossings (p : Point) (vs : list Point) : nat :=
  length (filter (ray_crosses p) (edges vs)).

Definition even_odd_inside (p : Point) (vs : list Point) : bool :=
  Nat.odd (crossings p vs).

(** ** Tokens, particles and the session state *)

Module Apple.

Record t := mk {
  x : float;
  y : float;
  value : Z;
  radius : float;
  selected : bool;
  scale : float;
  targetScale : float;
  removed : bool
}.

(** [constructor(x, y, value)] *)
Definition new (x0 y0 : float) (v : Z) : t :=
  mk x0 y0 v 25 false 0 1 false.

Definition set_selected (b : bool) (a : t) : t :=
  mk (x a) (y a) (value a) (radius a) b (scale a) (targetScale a) (removed a).

Definition set_removed (b : bool) (a : t) : t :=
  mk (x a) (y a) (value a) (radius a) (selected a) (scale a) (targetScale a) b.

Definition set_scale (s : float) (a : t) : t :=
  mk (x a) (y a) (value a) (radius a) (selected a) s (targetScale a) (removed a).

(** [update()]: the pop-in animation. *)
Definition update (a : t) : t :=
  if scale a <? targetScale a
  then set_scale (scale a + (targetScale a - scale a) * 0.1) a
  else a.

End Apple.

Module Particle.

Record t := mk {
  x : float;
  y : float;
  color : option string;
  size : float;
  speedX : float;
  speedY : float;
  life : float;
  decay : float
}.

Definition update (q : t) : t :=
  mk (x q + speedX q) (y q + speedY q) (color q) (size q * 0.95)
     (speedX q) (speedY q) (life q - decay q) (decay q).

End Particle.

(** The centre of a token, as [isPointInPolygon(apple, path)] reads it. *)
Definition centre (a : Apple.t) : Point := mkPoint (Apple.x a) (Apple.y a).

Definition active (a : Apple.t) : bool := negb (Apple.removed a).

Inductive Phase := INTRO | COUNTDOWN | PLAYING | FINISHED.

Definition Phase_eqb (s1 s2 : Phase) : bool :=
  match s1, s2 with
  | INTRO, INTRO | COUNTDOWN, COUNTDOWN | PLAYING, PLAYING | FINISHED, FINISHED => true
  | _, _ => false
  end.

(** What an interval of the host runs when it fires: the 3-2-1 countdown of
    [startCountdown] with its captured [count], or the 1 Hz game clock of
    [beginPlay]. *)
Inductive Interval := CountdownInterval (count : Z) | ClockInterval.

(** The fields of [Game], the few DOM texts it writes, and the host state it
    acts on ([localStorage], the table of live intervals, the number of
    render loops re-arming themselves, the position in the random stream). *)
Record Game := mkGame {
  apples : list Apple.t;
  particles : list Particle.t;
  score : Z;
  isDrawing : bool;
  currentPath : list Point;
  state : Phase;
  timeLeft : Z;
  timerInterval : option nat;
  highScore : Z;
  width : float;
  height : float;
  scoreEl : Z;
  timerEl : Z;
  finalScoreEl : Z;
  bestScoreEl : Z;
  newRecordBadge : bool;
  localStorage : option Z;
  intervals : list (nat * Interval);
  nextInterval : nat;
  renderLoops : nat;
  randomCursor : nat
}.

Definition set_apples (v : list Apple.t) (g : Game) : Game :=
  mkGame v (particles g) (score g) (isDrawing g) (currentPath g) (state g)
    (timeLeft g) (timerInterval g) (highScore g) (width g) (height g) (scoreEl g)
    (timerEl g) (finalScoreEl g) (bestScoreEl g) (newRecordBadge g) (localStorage g)
    (intervals g) (nextInterval g) (renderLoops g) (randomCursor g).

Definition set_particles (v : list Particle.t) (g : Game) : Game :=
  mkGame (apples g) v (score g) (isDrawing g) (currentPath g) (state g)
    (timeLeft g) (timerInterval g) (highScore g) (width g) (height g) (scoreEl g)
    (timerEl g) (finalScoreEl g) (bestScoreEl g) (newRecordBadge g) (localStorage g)
    (intervals g) (nextInterval g) (renderLoops g) (randomCursor g).

Definition set_score (v : Z) (g : Game) : Game :=
  mkGame (apples g) (particles g) v (isDrawing g) (currentPath g) (state g)
    (timeLeft g) (timerInterval g) (highScore g) (width g) (height g) (scoreEl g)
    (timerEl g) (finalScoreEl g) (bestScoreEl g) (newRecordBadge g) (localStorage g)
    (intervals g) (nextInterval g) (renderLoops g) (randomCursor g).

Definition set_isDrawing (v : bool) (g : Game) : Game :=
  mkGame (apples g) (particles g) (score g) v (currentPath g) (state g)
    (timeLeft g) (timerInterval g) (highScore g) (width g) (height g) (scoreEl g)
    (timerEl g) (finalScoreEl g) (bestScoreEl g) (newRecordBadge g) (localStorage g)
    (intervals g) (nextInterval g) (renderLoops g) (randomCursor g).

Definition set_currentPath (v : list Point) (g : Game) : Game :=
  mkGame (apples g) (particles g) (score g) (isDrawing g) v (state g)
    (timeLeft g) (timerInterval g) (highScore g) (width g) (height g) (scoreEl g)
    (timerEl g) (finalScoreEl g) (bestScoreEl g) (newRecordBadge g) (localStorage g)
    (intervals g) (nextInterval g) (renderLoops g) (randomCursor g).

Definition set_state (v : Phase) (g : Game) : Game :=
  mkGame (apples g) (particles g) (score g) (isDrawing g) (currentPath g) v
    (timeLeft g) (timerInterval g) (highScore g) (width g) (height g) (scoreEl g)
    (timerEl g) (finalScoreEl g) (bestScoreEl g) (newRecordBadge g) (localStorage g)
    (intervals g) (nextInterval g) (renderLoops g) (randomCursor g).

Definition set_timeLeft (v : Z) (g : Game) : Game :=
  mkGame (apples g) (particles g) (score g) (isDrawing g) (currentPath g) (state g)
    v (timerInterval g) (highScore g) (width g) (height g) (scoreEl g)
    (timerEl g) (finalScoreEl g) (bestScoreEl g) (newRecordBadge g) (localStorage g)
    (intervals g) (nextInterval g) (renderLoops g) (randomCursor g).

Definition set_timerInterval (v : option nat) (g : Game) : Game :=
  mkGame (apples g) (particles g) (score g) (isDrawing g) (currentPath g) (state g)
    (timeLeft g) v (highScore g) (width g) (height g) (scoreEl g)
    (timerEl g) (finalScoreEl g) (bestScoreEl g) (newRecordBadge g) (localStorage g)
    (intervals g) (nextInterval g) (renderLoops g) (randomCursor g).

Definition set_highScore (v : Z) (g : Game) : Game :=
  mkGame (apples g) (particles g) (score g) (isDrawing g) (currentPath g) (state g)
    (timeLeft g) (timerInterval g) v (width g) (height g) (scoreEl g)
    (timerEl g) (finalScoreEl g) (bestScoreEl g) (newRecordBadge g) (localStorage g)
    (intervals g) (nextInterval g) (renderLoops g) (randomCursor g).

Definition set_scoreEl (v : Z) (g : Game) : Game :=
  mkGame (apples g) (particles g) (score g) (isDrawing g) (currentPath g) (state g)
    (timeLeft g) (timerInterval g) (highScore g) (width g) (height g) v
    (timerEl g) (finalScoreEl g) (bestScoreEl g) (newRecordBadge g) (localStorage g)
    (intervals g) (nextInterval g) (renderLoops g) (randomCursor g).

Definition set_timerEl (v : Z) (g : Game) : Game :=
  mkGame (apples g) (particles g) (score g) (isDrawing g) (currentPath g) (state g)
    (timeLeft g) (timerInterval g) (highScore g) (width g) (height g) (scoreEl g)
    v (finalScoreEl g) (bestScoreEl g) (newRecordBadge g) (localStorage g)
    (intervals g) (nextInterval g) (renderLoops g) (randomCursor g).

Definition set_finalScoreEl (v : Z) (g : Game) : Game :=
  mkGame (apples g) (particles g) (score g) (isDrawing g) (currentPath g) (state g)
    (timeLeft g) (timerInterval g) (highScore g) (width g) (height g) (scoreEl g)
    (timerEl g) v (bestScoreEl g) (newRecordBadge g) (localStorage g)
    (intervals g) (nextInterval g) (renderLoops g) (randomCursor g).

Definition set_bestScoreEl (v : Z) (g : Game) : Game :=
  mkGame (apples g) (particles g) (score g) (isDrawing g) (currentPath g) (state g)
    (timeLeft g) (timerInterval g) (highScore g) (width g) (height g) (scoreEl g)
    (timerEl g) (finalScoreEl g) v (newRecordBadge g) (localStorage g)
    (intervals g) (nextInterval g) (renderLoops g) (randomCursor g).

Definition set_newRecordBadge (v : bool) (g : Game) : Game :=
  mkGame (apples g) (particles g) (score g) (isDrawing g) (currentPath g) (state g)
    (timeLeft g) (timerInterval g) (highScore g) (width g) (height g) (scoreEl g)
    (timerEl g) (finalScoreEl g) (bestScoreEl g) v (localStorage g)
    (intervals g) (nextInterval g) (renderLoops g) (randomCursor g).

Definition set_localStorage (v : option Z) (g : Game) : Game :=
  mkGame (apples g) (particles g) (score g) (isDrawing g) (currentPath g) (state g)
    (timeLeft g) (timerInterval g) (highScore g) (width g) (height g) (scoreEl g)
    (timerEl g) (finalScoreEl g) (bestScoreEl g) (newRecordBadge g) v
    (intervals g) (nextInterval g) (renderLoops g) (randomCursor g).

Definition set_intervals (v : list (nat * Interval)) (g : Game) : Game :=
  mkGame (apples g) (particles g) (score g) (isDrawing g) (currentPath g) (state g)
    (timeLeft g) (timerInterval g) (highScore g) (width g) (height g) (scoreEl g)
    (timerEl g) (finalScoreEl g) (bestScoreEl g) (newRecordBadge g) (localStorage g)
    v (nextInterval g) (renderLoops g) (randomCursor g).

Definition set_nextInterval (v : nat) (g : Game) : Game :=
  mkGame (apples g) (particles g) (score g) (isDrawing g) (currentPath g) (state g)
    (timeLeft g) (timerInterval g) (highScore g) (width g) (height g) (scoreEl g)
    (timerEl g) (finalScoreEl g) (bestScoreEl g) (newRecordBadge g) (localStorage g)
    (intervals g) v (renderLoops g) (randomCursor g).

Definition set_renderLoops (v : nat) (g : Game) : Game :=
  mkGame (apples g) (particles g) (score g) (isDrawing g) (currentPath g) (state g)
    (timeLeft g) (timerInterval g) (highScore g) (width g) (height g) (scoreEl g)
    (timerEl g) (finalScoreEl g) (bestScoreEl g) (newRecordBadge g) (localStorage g)
    (intervals g) (nextInterval g) v (randomCursor g).

Definition set_randomCursor (v : nat) (g : Game) : Game :=
  mkGame (apples g) (particles g) (score g) (isDrawing g) (currentPath g) (state g)
    (timeLeft g) (timerInterval g) (highScore g) (width g) (height g) (scoreEl g)
    (timerEl g) (finalScoreEl g) (bestScoreEl g) (newRecordBadge g) (localStorage g)
    (intervals g) (nextInterval g) (renderLoops g) v.

(** ** Host functions *)

(** [Math.floor] on a finite number, as an integer: the mantissa shifted by
    the exponent, rounded towards minus infinity.  (On NaN and the infinities,
    which no expression of the script feeds it while [Math.random] stays in
    [0, 1), the model answers 0.) *)
Definition Math_floor (f : float) : Z :=
  match Prim2SF f with
  | S754_finite s m e => Z.shiftl (if s then Z.neg m else Z.pos m) e
  | _ => 0%Z
  end.

(** [arr[i]] for an integer index: [undefined] outside the array. *)
Definition array_get {A : Type} (arr : list A) (i : Z) : option A :=
  if (i <? 0)%Z then None else nth_error arr (Z.to_nat i).

(** [clearInterval(h)] and [setInterval(f, 1000)] on the table of live
    intervals. *)
Definition clearInterval (h : option nat) (g : Game) : Game :=
  match h with
  | Some n => set_intervals (filter (fun e => negb (Nat.eqb (fst e) n)) (intervals g)) g
  | None => g
  end.

Definition setInterval (f : Interval) (g : Game) : nat * Game :=
  (nextInterval g,
   set_nextInterval (S (nextInterval g))
     (set_intervals (intervals g ++ [(nextInterval g, f)]) g)).

Definition appleRadius : float := 25.
Definition buffer : float := 10.
Definition maxAttempts : nat := 1000.
Definition totalApples : nat := 30.
Definition targetApples : Z := 30.
Definition refillAttempts : nat := 500.
Definition colors : list string :=
  ["#FFD700"; "#FF6347"; "#ADFF2F"; "#87CEEB"]%string.

Section Host.

(** The stream of values [Math.random()] returns, and [Math.hypot]. *)
Variable Math_random : nat -> float.
Variable Math_hypot : float -> float -> float.

(** [Math.random()]: the draw under the cursor, and the cursor moved on. *)
Definition random (c : nat) : float * nat := (Math_random c, S c).

(** *** Particles *)

(** [new Particle(x, y, color)]: four draws, in the order of the constructor. *)
Definition newParticle (x0 y0 : float) (color : option string) (c : nat)
  : Particle.t * nat :=
  let (r1, c) := random c in
  let (r2, c) := random c in
  let (r3, c) := random c in
  let (r4, c) := random c in
  (Particle.mk x0 y0 color (r1 * 5 + 2) (r2 * 6 - 3) (r3 * 6 - 3) 1 (r4 * 0.05 + 0.02), c).

(** [for (let i = 0; i < n; i++) this.particles.push(new Particle(x, y, color))]:
    the particles pushed, in order. *)
Fixpoint newParticles (n : nat) (x0 y0 : float) (color : option string) (c : nat)
  : list Particle.t * nat :=
  match n with
  | O => ([], c)
  | S n' =>
      let (q, c) := newParticle x0 y0 color c in
      let (qs, c) := newParticles n' x0 y0 color c in
      (q :: qs, c)
  end.

Definition spawnParticles (x0 y0 : float) (g : Game) : Game :=
  let (r, c) := random (randomCursor g) in
  let color := array_get colors (Math_floor (r * 4)) in
  let (qs, c) := newParticles 10 x0 y0 color c in
  set_randomCursor c (set_particles (particles g ++ qs) g).

(** *** The placement sampler *)

(** [Math.random() * (this.width - 2 * (appleRadius + buffer)) + (appleRadius + buffer)]
    for the draw [r] and the board extent [w]. *)
Definition place (r w : float) : float :=
  r * (w - 2 * (appleRadius + buffer)) + (appleRadius + buffer).

(** [dist < (appleRadius * 2 + buffer)] for one existing token. *)
Definition tooClose (x0 y0 : float) (apple : Apple.t) : bool :=
  Math_hypot (Apple.x apple - x0) (Apple.y apple - y0) <? appleRadius * 2 + buffer.

(** The collision loop of [generateApples]: every token of the array. *)
Definition overlapsAny (x0 y0 : float) (aps : list Apple.t) : bool :=
  existsb (tooClose x0 y0) aps.

(** The collision loop of [spawnNewApples]: removed tokens are skipped. *)
Definition overlapsActive (x0 y0 : float) (aps : list Apple.t) : bool :=
  existsb (fun apple => if Apple.removed apple then false else tooClose x0 y0 apple) aps.

(** [Math.floor(Math.random() * 9) + 1] for the draw [r]. *)
Definition drawValue (r : float) : Z := (Math_floor (r * 9) + 1)%Z.

(** The [while] loop of [generateApples] on a board of extent [w] x [h];
    [budget] is [maxAttempts - attempts], [aps] is [this.apples] and [c] the
    cursor in the random stream. *)
Fixpoint generateLoop (budget : nat) (w h : float) (aps : list Apple.t) (c : nat)
  : list Apple.t * nat :=
  match budget with
  | O => (aps, c)
  | S budget' =>
      if (length aps <? totalApples)%nat then
        let (rx, c) := random c in
        let x0 := place rx w in
        let (ry, c) := random c in
        let y0 := place ry h in
        if overlapsAny x0 y0 aps then generateLoop budget' w h aps c
        else
          let (rv, c) := random c in
          generateLoop budget' w h (aps ++ [Apple.new x0 y0 (drawValue rv)]) c
      else (aps, c)
  end.

Definition generateApples (g : Game) : Game :=
  let (aps, c) := generateLoop maxAttempts (width g) (height g) [] (randomCursor g) in
  set_randomCursor c (set_apples aps g).

(** What the [while] loop of [spawnNewApples] leaves: the final values of
    [added] and [attempts], the board and the cursor. *)
Record Spawned := mkSpawned {
  added : Z;
  attempts : nat;
  board : list Apple.t;
  cursor : nat
}.

(** The loop itself; [budget] is [500 - attempts]. *)
Fixpoint spawnLoop (budget : nat) (w h : float) (count : Z) (s : Spawned) : Spawned :=
  match budget with
  | O => s
  | S budget' =>
      if (added s <? count)%Z then
        let (rx, c) := random (cursor s) in
        let x0 := place rx w in
        let (ry, c) := random c in
        let y0 := place ry h in
        if overlapsActive x0 y0 (board s)
        then spawnLoop budget' w h count (mkSpawned (added s) (S (attempts s)) (board s) c)
        else
          let (rv, c) := random c in
          let newApple := Apple.set_scale 0 (Apple.new x0 y0 (drawValue rv)) in
          spawnLoop budget' w h count
            (mkSpawned (added s + 1)%Z (S (attempts s)) (board s ++ [newApple]) c)
      else s
  end.

Definition spawnRun (count : Z) (g : Game) : Spawned :=
  spawnLoop refillAttempts (width g) (height g) count
    (mkSpawned 0%Z 0%nat (apples g) (randomCursor g)).

Definition spawnNewApples (count : Z) (g : Game) : Game :=
  let s := spawnRun count g in
  set_randomCursor (cursor s) (set_apples (filter active (board s)) g).

Definition currentApples (g : Game) : Z :=
  Z.of_nat (length (filter active (apples g))).

Definition checkRefill (g : Game) : Game :=
  let needed := (targetApples - currentApples g)%Z in
  if (0 <? needed)%Z then spawnNewApples needed g else g.

(** *** Score and selection *)

Definition updateScore (points : Z) (g : Game) : Game :=
  let g := if (points =? 0)%Z then set_score 0%Z g
           else set_score (score g + points)%Z g in
  set_scoreEl (score g) g.

Definition clearSelection (g : Game) : Game :=
  set_apples (map (Apple.set_selected false) (apples g)) g.

Definition checkRealTimeSelection (g : Game) : Game :=
  if (length (currentPath g) <? 3)%nat then clearSelection g
  else
    set_apples
      (map (fun apple =>
              if Apple.removed apple then apple
              else Apple.set_selected (isPointInPolygon (centre apple) (currentPath g)) apple)
           (apples g)) g.

(** [a => a.selected && !a.removed] *)
Definition isSelected (a : Apple.t) : bool :=
  Apple.selected a && negb (Apple.removed a).

Definition selectedApples (g : Game) : list Apple.t :=
  filter isSelected (apples g).

Definition sumValues (sel : list Apple.t) : Z :=
  fold_left (fun acc apple => (acc + Apple.value apple)%Z) sel 0%Z.

(** [selectedApples.forEach(apple => { apple.removed = true; ... })].  The
    array [selectedApples] holds the very objects of [this.apples] that pass
    the filter, so the assignment marks those tokens of the board; the bursts
    are spawned in the order of the filtered array. *)
Definition markRemoved (g : Game) : Game :=
  set_apples
    (map (fun a => if isSelected a then Apple.set_removed true a else a) (apples g)) g.

Definition spawnBursts (sel : list Apple.t) (g : Game) : Game :=
  fold_left (fun g apple => spawnParticles (Apple.x apple) (Apple.y apple) g) sel g.

Definition checkSelection (g : Game) : Game :=
  if (length (currentPath g) <? 3)%nat then g
  else
    let sel := selectedApples g in
    let sum := sumValues sel in
    let g :=
      if (sum =? 10)%Z then
        let g := spawnBursts sel (markRemoved g) in
        let g := updateScore (Z.of_nat (length sel)) g in
        checkRefill g
      else g in
    clearSelection g.

(** *** Pointer input *)

Definition handleInputStart (pos : Point) (g : Game) : Game :=
  if negb (Phase_eqb (state g) PLAYING) then g
  else set_currentPath [pos] (set_isDrawing true g).

(** Reading [this.currentPath[length - 1].x] on an empty path throws, which
    leaves the state as it was. *)
Definition handleInputMove (pos : Point) (g : Game) : Game :=
  if negb (isDrawing g) || negb (Phase_eqb (state g) PLAYING) then g
  else
    match rev (currentPath g) with
    | [] => g
    | last :: _ =>
        let dist := Math_hypot (x pos - x last) (y pos - y last) in
        if gtb dist 5 then
          checkRealTimeSelection (set_currentPath (currentPath g ++ [pos]) g)
        else g
    end.

Definition handleInputEnd (g : Game) : Game :=
  if negb (isDrawing g) then g
  else set_currentPath [] (checkSelection (set_isDrawing false g)).

(** *** Session phases *)

Definition update (g : Game) : Game :=
  let g := set_apples (map Apple.update (apples g)) g in
  let g := set_particles (map Particle.update (particles g)) g in
  set_particles (filter (fun q => gtb (Particle.life q) 0) (particles g)) g.

(** [loop()]: one update (drawing is not modelled) and one more render loop
    re-arming itself through [requestAnimationFrame]. *)
Definition loop (g : Game) : Game :=
  set_renderLoops (S (renderLoops g)) (update g).

Definition updateTimerDisplay (g : Game) : Game :=
  set_timerEl (timeLeft g) g.

Definition endGame (g : Game) : Game :=
  let g := set_state FINISHED g in
  let g := clearInterval (timerInterval g) g in
  let isNewRecord := (highScore g <? score g)%Z in
  let g := if isNewRecord
           then set_localStorage (Some (score g)) (set_highScore (score g) g)
           else g in
  let g := set_finalScoreEl (score g) g in
  let g := set_bestScoreEl (highScore g) g in
  set_newRecordBadge (isNewRecord && (0 <? score g)%Z) g.

Definition updateTimer (g : Game) : Game :=
  let g := set_timeLeft (timeLeft g - 1)%Z g in
  let g := updateTimerDisplay g in
  if (timeLeft g <=? 0)%Z then endGame g else g.

Definition beginPlay (g : Game) : Game :=
  let g := set_state PLAYING g in
  let g := match timerInterval g with
           | Some (S _) => clearInterval (timerInterval g) g
           | _ => g
           end in
  let (h, g) := setInterval ClockInterval g in
  let g := set_timerInterval (Some h) g in
  loop g.

Definition startCountdown (g : Game) : Game :=
  let g := set_state COUNTDOWN g in
  let g := set_score 0%Z g in
  let g := set_timeLeft 60%Z g in
  let g := updateScore 0%Z g in
  let g := updateTimerDisplay g in
  let g := set_apples [] g in
  let g := generateApples g in
  snd (setInterval (CountdownInterval 3) g).

Definition startGame (g : Game) : Game := startCountdown g.

(** The callback of the countdown interval [h], whose captured counter is
    [count]. *)
Definition countdownTick (h : nat) (count : Z) (g : Game) : Game :=
  let count := (count - 1)%Z in
  if (0 <? count)%Z then
    set_intervals
      (map (fun e => if Nat.eqb (fst e) h then (h, CountdownInterval count) else e)
           (intervals g)) g
  else beginPlay (clearInterval (Some h) g).

(** *** Events *)

Inductive Event :=
| Click                       (* start, reset or play-again button *)
| IntervalFires (h : nat)     (* the host runs the callback of interval h *)
| AnimationFrame              (* the host runs the pending render loops *)
| InputStart (pos : Point)    (* mousedown / touchstart on the canvas *)
| InputMove (pos : Point)     (* mousemove / touchmove on the canvas *)
| InputEnd.                   (* mouseup / touchend on the window *)

Definition lookupInterval (h : nat) (g : Game) : option Interval :=
  option_map snd (find (fun e => Nat.eqb (fst e) h) (intervals g)).

Definition step (e : Event) (g : Game) : Game :=
  match e with
  | Click => startGame g
  | IntervalFires h =>
      match lookupInterval h g with
      | Some (CountdownInterval count) => countdownTick h count g
      | Some ClockInterval => updateTimer g
      | None => g
      end
  | AnimationFrame => Nat.iter (renderLoops g) update g
  | InputStart pos => handleInputStart pos g
  | InputMove pos => handleInputMove pos g
  | InputEnd => handleInputEnd g
  end.

Definition run (es : list Event) (g : Game) : Game :=
  fold_left (fun g e => step e g) es g.

(** ** Particles: where a burst lands *)

Definition particleAt (x0 y0 : float) (q : Particle.t) : Prop :=
  Particle.x q = x0 /\ Particle.y q = y0.

Definition particlePos (q : Particle.t) : Point :=
  mkPoint (Particle.x q) (Particle.y q).

(** Ten particles at the centre of each token of [sel], in order. *)
Definition burstCentres (sel : list Apple.t) : list Point :=
  flat_map (fun a => repeat (centre a) 10) sel.

Lemma newParticles_spec (n : nat) (x0 y0 : float) (color : option string) (c : nat) :
  length (fst (newParticles n x0 y0 color c)) = n
  /\ Forall (fun q => particleAt x0 y0 q /\ Particle.color q = color)
            (fst (newParticles n x0 y0 color c)).
Proof.
  revert c; induction n as [|n IH]; intros c; [split; [reflexivity|constructor]|].
  cbn [newParticles newParticle random].
  match goal with |- context [newParticles n x0 y0 color ?c1] =>
    specialize (IH c1); destruct (newParticles n x0 y0 color c1) as [qs c2] end.
  cbn [fst] in *. destruct IH as [Hlen Hall]. split.
  - simpl. now rewrite Hlen.
  - constructor; [repeat split|exact Hall].
Qed.

(** The burst [spawnParticles] appends. *)
Definition burstOf (x0 y0 : float) (g : Game) : list Particle.t :=
  skipn (length (particles g)) (particles (spawnParticles x0 y0 g)).

Lemma spawnParticles_spec (x0 y0 : float) (g : Game) :
  spawnParticles x0 y0 g
  = set_randomCursor (randomCursor (spawnParticles x0 y0 g))
      (set_particles (particles g ++ burstOf x0 y0 g) g)
  /\ length (burstOf x0 y0 g) = 10%nat
  /\ Forall (particleAt x0 y0) (burstOf x0 y0 g)
  /\ exists color, Forall (fun q => Particle.color q = color) (burstOf x0 y0 g).
Proof.
  unfold burstOf, spawnParticles. cbn [random].
  generalize (array_get colors (Math_floor (Math_random (randomCursor g) * 4))).
  intros col.
  destruct (newParticles_spec 10 x0 y0 col (S (randomCursor g))) as [Hlen Hall].
  destruct (newParticles 10 x0 y0 col (S (randomCursor g))) as [qs c2].
  cbn [fst particles randomCursor set_particles set_randomCursor] in *.
  rewrite skipn_app, skipn_all, Nat.sub_diag. cbn [skipn app].
  split; [reflexivity|split; [exact Hlen|split; [|exists col]]].
  - eapply Forall_impl; [|exact Hall]. now intros q [H _].
  - eapply Forall_impl; [|exact Hall]. now intros q [_ H].
Qed.

Lemma particlesAt_pos (x0 y0 : float) (qs : list Particle.t) :
  Forall (particleAt x0 y0) qs ->
  map particlePos qs = repeat (mkPoint x0 y0) (length qs).
Proof.
  induction 1 as [|q qs [Hx Hy] _ IH]; [reflexivity|].
  cbn [map length repeat]. rewrite IH. unfold particlePos. now rewrite Hx, Hy.
Qed.

Lemma spawnBursts_cons (a : Apple.t) (sel : list Apple.t) (g : Game) :
  spawnBursts (a :: sel) g = spawnBursts sel (spawnParticles (Apple.x a) (Apple.y a) g).
Proof. reflexivity. Qed.

(** [g'] is [g] with the particles [qs] appended and the random stream
    advanced; nothing else differs. *)
Definition appendsParticles (g g' : Game) (qs : list Particle.t) : Prop :=
  g' = set_randomCursor (randomCursor g') (set_particles (particles g ++ qs) g).

Lemma appendsParticles_refl (g : Game) : appendsParticles g g [].
Proof. unfold appendsParticles. rewrite app_nil_r. destruct g; reflexivity. Qed.

Lemma appendsParticles_trans (g1 g2 g3 : Game) (qs qs' : list Particle.t) :
  appendsParticles g1 g2 qs -> appendsParticles g2 g3 qs' ->
  appendsParticles g1 g3 (qs ++ qs').
Proof.
  unfold appendsParticles; intros H12 H23.
  rewrite H23 at 1. rewrite H12 at 1 2. destruct g1; cbn.
  now rewrite app_assoc.
Qed.

Lemma spawnBursts_appends (sel : list Apple.t) (g : Game) :
  exists qs,
    appendsParticles g (spawnBursts sel g) qs
    /\ map particlePos qs = burstCentres sel.
Proof.
  revert g; induction sel as [|a sel IH]; intros g.
  - exists []. split; [apply appendsParticles_refl|reflexivity].
  - rewrite spawnBursts_cons.
    destruct (spawnParticles_spec (Apple.x a) (Apple.y a) g) as (Happ1 & Hlen1 & Hat1 & _).
    destruct (IH (spawnParticles (Apple.x a) (Apple.y a) g)) as (qs2 & Happ2 & Hpos2).
    exists (burstOf (Apple.x a) (Apple.y a) g ++ qs2). split.
    + eapply appendsParticles_trans; [exact Happ1|exact Happ2].
    + rewrite map_app, Hpos2, (particlesAt_pos _ _ _ Hat1), Hlen1. reflexivity.
Qed.

(** ** Projections through the setters *)

Ltac game_simpl :=
  cbn [apples particles score isDrawing currentPath state timeLeft timerInterval
       highScore width height scoreEl timerEl finalScoreEl bestScoreEl
       newRecordBadge localStorage intervals nextInterval renderLoops randomCursor
       set_apples set_particles set_score set_isDrawing set_currentPath set_state
       set_timeLeft set_timerInterval set_highScore set_scoreEl set_timerEl
       set_finalScoreEl set_bestScoreEl set_newRecordBadge set_localStorage
       set_intervals set_nextInterval set_renderLoops set_randomCursor] in *.

Lemma appendsParticles_frame (g g' : Game) (qs : list Particle.t) :
  appendsParticles g g' qs ->
  apples g' = apples g /\ score g' = score g /\ particles g' = particles g ++ qs
  /\ currentPath g' = currentPath g /\ state g' = state g /\ highScore g' = highScore g.
Proof. intros H. rewrite H. game_simpl. repeat split. Qed.

Lemma updateScore_score (points : Z) (g : Game) :
  score (updateScore points g)
  = if (points =? 0)%Z then 0%Z else (score g + points)%Z.
Proof. unfold updateScore. destruct (points =? 0)%Z; reflexivity. Qed.

Lemma updateScore_frame (points : Z) (g : Game) :
  apples (updateScore points g) = apples g
  /\ particles (updateScore points g) = particles g
  /\ currentPath (updateScore points g) = currentPath g
  /\ width (updateScore points g) = width g
  /\ height (updateScore points g) = height g
  /\ randomCursor (updateScore points g) = randomCursor g.
Proof. unfold updateScore. destruct (points =? 0)%Z; repeat split. Qed.

Lemma checkRefill_frame (g : Game) :
  particles (checkRefill g) = particles g /\ score (checkRefill g) = score g
  /\ state (checkRefill g) = state g /\ highScore (checkRefill g) = highScore g.
Proof.
  unfold checkRefill, spawnNewApples.
  destruct (0 <? targetApples - currentApples g)%Z; repeat split.
Qed.

(** ** Selection evaluation *)

(** Two tokens that differ at most in their [selected] flag. *)
Definition sameToken (a a' : Apple.t) : Prop :=
  Apple.x a' = Apple.x a /\ Apple.y a' = Apple.y a
  /\ Apple.value a' = Apple.value a /\ Apple.removed a' = Apple.removed a
  /\ Apple.radius a' = Apple.radius a /\ Apple.scale a' = Apple.scale a
  /\ Apple.targetScale a' = Apple.targetScale a.

Definition unselected (a : Apple.t) : Prop := Apple.selected a = false.

Lemma Forall2_map_r {A B : Type} (R : A -> B -> Prop) (f : A -> B) (l : list A) :
  (forall a, R a (f a)) -> Forall2 R l (map f l).
Proof. intros H; induction l; constructor; auto. Qed.

Lemma sameToken_refl (a : Apple.t) : sameToken a a.
Proof. repeat split. Qed.

Lemma clearSelection_unselected (g : Game) :
  Forall unselected (apples (clearSelection g)).
Proof.
  unfold clearSelection; game_simpl. apply Forall_forall.
  intros a Ha. apply in_map_iff in Ha as (b & <- & _). reflexivity.
Qed.

Lemma checkSelection_short (g : Game) :
  (length (currentPath g) < 3)%nat -> checkSelection g = g.
Proof.
  intros H. unfold checkSelection.
  apply Nat.ltb_lt in H. now rewrite H.
Qed.

Lemma checkSelection_long (g : Game) :
  (3 <= length (currentPath g))%nat ->
  checkSelection g =
  clearSelection
    (if (sumValues (selectedApples g) =? 10)%Z
     then checkRefill (updateScore (Z.of_nat (length (selectedApples g)))
                         (spawnBursts (selectedApples g) (markRemoved g)))
     else g).
Proof.
  intros H. unfold checkSelection.
  apply Nat.ltb_ge in H. now rewrite H.
Qed.

Lemma handleInputEnd_drawing (g : Game) :
  isDrawing g = true ->
  handleInputEnd g = set_currentPath [] (checkSelection (set_isDrawing false g)).
Proof. intros H. unfold handleInputEnd. now rewrite H. Qed.

(** C2.  On gesture end, when the selected active tokens do not sum to 10, or
    the path has fewer than 3 points, every token keeps its position, value and
    [removed] flag (it differs from what it was at most in [selected]), and the
    score and the particles are what they were.  Whenever the selection is
    evaluated (a path of at least 3 points), match or not, every token of the
    board ends with [selected] cleared.  With fewer than 3 points nothing is
    evaluated and nothing is cleared: the board, flags included, is exactly
    what it was. *)
Theorem gesture_end_without_match (g : Game) :
  isDrawing g = true ->
  ((length (currentPath g) < 3)%nat \/ sumValues (selectedApples g) <> 10%Z ->
     Forall2 sameToken (apples g) (apples (handleInputEnd g))
     /\ score (handleInputEnd g) = score g
     /\ particles (handleInputEnd g) = particles g)
  /\ ((3 <= length (currentPath g))%nat ->
     Forall unselected (apples (handleInputEnd g)))
  /\ ((length (currentPath g) < 3)%nat ->
     apples (handleInputEnd g) = apples g).
Proof.
  intros Hdraw. rewrite (handleInputEnd_drawing g Hdraw). game_simpl.
  split; [|split].
  - intros Hcase.
    destruct (Nat.lt_ge_cases (length (currentPath g)) 3) as [Hshort|Hlong].
    + rewrite checkSelection_short by exact Hshort. game_simpl.
      repeat split.
      induction (apples g); constructor; auto using sameToken_refl.
    + destruct Hcase as [Hshort|Hsum]; [lia|].
      rewrite checkSelection_long by exact Hlong.
      change (selectedApples (set_isDrawing false g)) with (selectedApples g).
      apply Z.eqb_neq in Hsum. rewrite Hsum.
      unfold clearSelection; game_simpl. repeat split.
      apply Forall2_map_r. intros a. repeat split.
  - intros Hlong. rewrite checkSelection_long by exact Hlong.
    apply clearSelection_unselected.
  - intros Hshort. rewrite checkSelection_short by exact Hshort. reflexivity.
Qed.

(** The state a match hands to [checkRefill]: the selected active tokens
    marked, their bursts spawned, the score updated. *)
Definition matched (g : Game) : Game :=
  updateScore (Z.of_nat (length (selectedApples g)))
    (spawnBursts (selectedApples g) (markRemoved (set_isDrawing false g))).

Definition markedOf (a : Apple.t) : Apple.t :=
  if isSelected a then Apple.set_removed true a else a.

Lemma matched_apples (g : Game) : apples (matched g) = map markedOf (apples g).
Proof.
  unfold matched.
  destruct (updateScore_frame (Z.of_nat (length (selectedApples g)))
              (spawnBursts (selectedApples g) (markRemoved (set_isDrawing false g))))
    as (-> & _).
  destruct (spawnBursts_appends (selectedApples g) (markRemoved (set_isDrawing false g)))
    as (qs & Happ & _).
  apply appendsParticles_frame in Happ as (-> & _). reflexivity.
Qed.

Lemma sumValues_from (sel : list Apple.t) (acc : Z) :
  fold_left (fun acc apple => (acc + Apple.value apple)%Z) sel acc
  = (acc + sumValues sel)%Z.
Proof.
  unfold sumValues. revert acc; induction sel as [|a sel IH]; intros acc; simpl.
  - lia.
  - rewrite IH, (IH (Apple.value a)). lia.
Qed.

Lemma sumValues_cons (a : Apple.t) (sel : list Apple.t) :
  sumValues (a :: sel) = (Apple.value a + sumValues sel)%Z.
Proof. unfold sumValues at 1. simpl. apply sumValues_from. Qed.

Lemma marked_active_count (aps : list Apple.t) :
  (length (filter active (map markedOf aps)) + length (filter isSelected aps)
   = length (filter active aps))%nat.
Proof.
  induction aps as [|a aps IH]; [reflexivity|].
  cbn [map filter].
  destruct (active (markedOf a)) eqn:E1, (isSelected a) eqn:E2, (active a) eqn:E3;
    cbn [length]; try lia; exfalso;
    revert E1 E2 E3; unfold markedOf, isSelected, active;
    destruct a as [ax ay av ar asel asc ats arem]; cbn;
    destruct asel, arem; discriminate.
Qed.

Lemma matched_currentApples (g : Game) :
  currentApples (matched g)
  = (currentApples g - Z.of_nat (length (selectedApples g)))%Z.
Proof.
  unfold currentApples. rewrite matched_apples.
  pose proof (marked_active_count (apples g)). unfold selectedApples. lia.
Qed.


Lemma checkRefill_matched (g : Game) :
  sumValues (selectedApples g) = 10%Z ->
  (currentApples g <= targetApples)%Z ->
  checkRefill (matched g)
  = spawnNewApples
      (targetApples - currentApples g + Z.of_nat (length (selectedApples g)))
      (matched g).
Proof.
  intros Hsum Hcap.
  assert (Hne : Z.of_nat (length (selectedApples g)) <> 0%Z).
  { destruct (selectedApples g); [discriminate Hsum|simpl; lia]. }
  unfold checkRefill. rewrite matched_currentApples.
  replace (0 <? targetApples - (currentApples g - Z.of_nat (length (selectedApples g))))%Z
    with true by (symmetry; apply Z.ltb_lt; lia).
  f_equal. lia.
Qed.

(** C1.  On gesture end with a recorded path of at least 3 points, if the
    values of the selected active tokens sum to exactly 10, then each of them
    is marked [removed] (and no other token is touched), ten particles are
    spawned at the centre of each, the score grows by exactly their number,
    and the board is handed to the refill, which on a board of at most 30
    active tokens spawns towards the target of 30. *)
Theorem gesture_end_match (g : Game) :
  isDrawing g = true ->
  (3 <= length (currentPath g))%nat ->
  sumValues (selectedApples g) = 10%Z ->
  Forall2 (fun a a1 => a1 = if isSelected a then Apple.set_removed true a else a)
          (apples g) (apples (matched g))
  /\ (exists burst,
        particles (handleInputEnd g) = particles g ++ burst
        /\ map particlePos burst = burstCentres (selectedApples g))
  /\ score (handleInputEnd g) = (score g + Z.of_nat (length (selectedApples g)))%Z
  /\ apples (handleInputEnd g)
     = map (Apple.set_selected false) (apples (checkRefill (matched g)))
  /\ ((currentApples g <= targetApples)%Z ->
      checkRefill (matched g)
      = spawnNewApples
          (targetApples - currentApples g + Z.of_nat (length (selectedApples g)))
          (matched g)).
Proof.
  intros Hdraw Hlong Hsum.
  rewrite (handleInputEnd_drawing g Hdraw),
    (checkSelection_long (set_isDrawing false g) Hlong).
  change (selectedApples (set_isDrawing false g)) with (selectedApples g).
  rewrite Hsum, Z.eqb_refl. fold (matched g).
  assert (Hne : Z.of_nat (length (selectedApples g)) <> 0%Z).
  { destruct (selectedApples g); [discriminate Hsum|simpl; lia]. }
  split; [|split; [|split; [|split]]].
  - rewrite matched_apples. apply Forall2_map_r. reflexivity.
  - unfold clearSelection; game_simpl.
    destruct (checkRefill_frame (matched g)) as (-> & _).
    unfold matched.
    destruct (updateScore_frame (Z.of_nat (length (selectedApples g)))
                (spawnBursts (selectedApples g) (markRemoved (set_isDrawing false g))))
      as (_ & -> & _).
    destruct (spawnBursts_appends (selectedApples g) (markRemoved (set_isDrawing false g)))
      as (qs & Happ & Hpos).
    apply appendsParticles_frame in Happ as (_ & _ & -> & _).
    exists qs. split; [reflexivity|exact Hpos].
  - unfold clearSelection; game_simpl.
    destruct (checkRefill_frame (matched g)) as (_ & -> & _).
    unfold matched. rewrite updateScore_score.
    apply Z.eqb_neq in Hne. rewrite Hne.
    destruct (spawnBursts_appends (selectedApples g) (markRemoved (set_isDrawing false g)))
      as (qs & Happ & _).
    apply appendsParticles_frame in Happ as (_ & -> & _). reflexivity.
  - reflexivity.
  - intros Hcap. now apply checkRefill_matched.
Qed.

(** ** Matches remove at least two tokens *)

Definition digit (a : Apple.t) : Prop := (1 <= Apple.value a <= 9)%Z.

Lemma sumValues_digits_bound (sel : list Apple.t) :
  Forall digit sel ->
  (Z.of_nat (length sel) <= sumValues sel <= 9 * Z.of_nat (length sel))%Z.
Proof.
  induction 1 as [|a sel Ha _ IH]; [unfold sumValues; simpl; lia|].
  rewrite sumValues_cons. unfold digit in Ha. cbn [length]. lia.
Qed.

Lemma ten_needs_two (sel : list Apple.t) :
  Forall digit sel -> sumValues sel = 10%Z -> (2 <= length sel)%nat.
Proof.
  intros Hd Hsum. pose proof (sumValues_digits_bound sel Hd) as Hb. lia.
Qed.

(** C10.  When every token of the board carries a value in [1, 9], a
    selection that sums to exactly 10 holds at least two tokens; so a match
    marks at least two tokens removed, the count handed to [updateScore] is at
    least 2 (never 0, the value on which [updateScore] resets the score), and
    the score grows by that count, hence by at least 2. *)
Theorem match_takes_two (g : Game) :
  Forall digit (apples g) ->
  (3 <= length (currentPath g))%nat ->
  sumValues (selectedApples g) = 10%Z ->
  (2 <= length (selectedApples g))%nat
  /\ Z.of_nat (length (selectedApples g)) <> 0%Z
  /\ (currentApples (matched g) <= currentApples g - 2)%Z
  /\ (forall s, score (updateScore (Z.of_nat (length (selectedApples g))) s)
                = (score s + Z.of_nat (length (selectedApples g)))%Z)
  /\ score (checkSelection g) = (score g + Z.of_nat (length (selectedApples g)))%Z
  /\ (score g + 2 <= score (checkSelection g))%Z.
Proof.
  intros Hd Hlong Hsum.
  assert (Htwo : (2 <= length (selectedApples g))%nat).
  { apply ten_needs_two; [|exact Hsum].
    unfold selectedApples. apply Forall_forall. intros a Ha.
    apply filter_In in Ha as [Ha _]. revert a Ha. now apply Forall_forall. }
  assert (Hupd : forall s, score (updateScore (Z.of_nat (length (selectedApples g))) s)
                           = (score s + Z.of_nat (length (selectedApples g)))%Z).
  { intros s. rewrite updateScore_score.
    destruct (Z.eqb_spec (Z.of_nat (length (selectedApples g))) 0); [lia|reflexivity]. }
  assert (Hscore : score (checkSelection g)
                   = (score g + Z.of_nat (length (selectedApples g)))%Z).
  { rewrite (checkSelection_long g Hlong), Hsum, Z.eqb_refl.
    unfold clearSelection; game_simpl.
    destruct (checkRefill_frame
                (updateScore (Z.of_nat (length (selectedApples g)))
                   (spawnBursts (selectedApples g) (markRemoved g)))) as (_ & -> & _).
    rewrite Hupd.
    destruct (spawnBursts_appends (selectedApples g) (markRemoved g)) as (qs & Happ & _).
    apply appendsParticles_frame in Happ as (_ & -> & _). reflexivity. }
  repeat split; try lia; try assumption.
  rewrite matched_currentApples. lia.
Qed.

(** ** Paths of fewer than three points *)

Lemma isPointInPolygon_two (p a b : Point) :
  isPointInPolygon p [a; b] = xorb (intersect p a b) (intersect p b a).
Proof.
  unfold isPointInPolygon. cbn.
  destruct (intersect p a b), (intersect p b a); reflexivity.
Qed.

Lemma isPointInPolygon_one (p a : Point) : isPointInPolygon p [a] = false.
Proof.
  unfold isPointInPolygon, pip_step, intersect. cbn.
  now rewrite xorb_nilpotent.
Qed.

(** C9 (as the code has it).  With fewer than 3 recorded points nothing is
    contained as far as the game is concerned: the live highlight clears
    every [selected] flag and the gesture end evaluates nothing (the state is
    returned as it is).  [isPointInPolygon] itself, which the game never
    calls on such a path, answers false on the empty and the one-point path;
    on a two-point path it answers true exactly when its two edge tests, which
    compute the same crossing in two roundings, disagree. *)
Theorem short_path_not_contained (g : Game) (p : Point) :
  (length (currentPath g) < 3)%nat ->
  Forall unselected (apples (checkRealTimeSelection g))
  /\ checkSelection g = g
  /\ (isPointInPolygon p (currentPath g) = true ->
      exists a b, currentPath g = [a; b] /\ intersect p a b <> intersect p b a).
Proof.
  intros Hshort. split; [|split].
  - unfold checkRealTimeSelection.
    apply Nat.ltb_lt in Hshort. rewrite Hshort. apply clearSelection_unselected.
  - now apply checkSelection_short.
  - destruct (currentPath g) as [|a [|b [|c vs]]]; simpl in Hshort; try lia.
    + discriminate.
    + now rewrite isPointInPolygon_one.
    + rewrite isPointInPolygon_two. intros H. exists a, b. split; [reflexivity|].
      destruct (intersect p a b), (intersect p b a); simpl in H; congruence.
Qed.

(** ** Refill *)

Definition fresh (a : Apple.t) : Prop :=
  Apple.removed a = false /\ Apple.selected a = false /\ Apple.scale a = 0.

Lemma spawnLoop_spec (budget : nat) (w h : float) (count : Z) (s : Spawned) :
  (added s <= count)%Z ->
  (added (spawnLoop budget w h count s) = count
   \/ attempts (spawnLoop budget w h count s) = (attempts s + budget)%nat)
  /\ (added s <= added (spawnLoop budget w h count s) <= count)%Z
  /\ (attempts (spawnLoop budget w h count s) <= attempts s + budget)%nat
  /\ exists new,
       board (spawnLoop budget w h count s) = board s ++ new
       /\ Z.of_nat (length new) = (added (spawnLoop budget w h count s) - added s)%Z
       /\ Forall fresh new.
Proof.
  revert s; induction budget as [|budget IH]; intros s Hle.
  - cbn [spawnLoop]. split; [right; lia|split; [lia|split; [lia|]]].
    exists []. rewrite app_nil_r. repeat split; [simpl; lia|constructor].
  - cbn [spawnLoop random].
    destruct (Z.ltb_spec (added s) count) as [Hlt|Hge].
    + match goal with |- context [if ?b then _ else _] => destruct b end.
      * match goal with |- context [spawnLoop budget w h count ?s1] =>
          destruct (IH s1) as (Hend & Hadd & Hatt & new & Hboard & Hlen & Hfresh);
          [exact Hle|]; cbn [added attempts board cursor] in *
        end.
        split; [|split; [lia|split; [lia|]]].
        -- destruct Hend as [Hend|Hend]; [now left|right; lia].
        -- exists new. auto.
      * match goal with |- context [spawnLoop budget w h count ?s1] =>
          destruct (IH s1) as (Hend & Hadd & Hatt & new & Hboard & Hlen & Hfresh);
          [cbn [added]; lia|]; cbn [added attempts board cursor] in *
        end.
        split; [|split; [lia|split; [lia|]]].
        -- destruct Hend as [Hend|Hend]; [now left|right; lia].
        -- match type of Hboard with _ = (_ ++ [?a]) ++ _ => exists (a :: new) end.
           rewrite Hboard, <- app_assoc. repeat split.
           ++ cbn [length]. lia.
           ++ constructor; [repeat split|exact Hfresh].
    + split; [left; lia|split; [lia|split; [lia|]]].
      exists []. rewrite app_nil_r. repeat split; [simpl; lia|constructor].
Qed.

Lemma filter_active_fresh (new : list Apple.t) :
  Forall fresh new -> filter active new = new.
Proof.
  induction 1 as [|a new [Ha _] _ IH]; [reflexivity|].
  cbn [filter]. unfold active at 1. rewrite Ha. cbn. now rewrite IH.
Qed.

Lemma filter_active_idem (aps : list Apple.t) :
  Forall (fun a => Apple.removed a = false) (filter active aps).
Proof.
  apply Forall_forall. intros a Ha. apply filter_In in Ha as [_ Ha].
  unfold active in Ha. now destruct (Apple.removed a).
Qed.

Lemma filter_active_twice (aps : list Apple.t) :
  filter active (filter active aps) = filter active aps.
Proof.
  induction aps as [|a aps IH]; [reflexivity|].
  cbn [filter]. destruct (active a) eqn:E; [|exact IH].
  cbn [filter]. now rewrite E, IH.
Qed.


Lemma spawnNewApples_spec (count : Z) (g : Game) :
  (0 <= count)%Z ->
  Forall (fun a => Apple.removed a = false) (apples (spawnNewApples count g))
  /\ currentApples (spawnNewApples count g)
     = (currentApples g + added (spawnRun count g))%Z
  /\ (added (spawnRun count g) = count
      \/ attempts (spawnRun count g) = refillAttempts)
  /\ (0 <= added (spawnRun count g) <= count)%Z.
Proof.
  intros Hcount. unfold spawnNewApples, currentApples, spawnRun. game_simpl.
  destruct (spawnLoop_spec refillAttempts (width g) (height g) count
              (mkSpawned 0 0 (apples g) (randomCursor g)) Hcount)
    as (Hend & Hadd & Hatt & new & Hboard & Hlen & Hfresh).
  cbn [added attempts board] in *.
  split; [apply filter_active_idem|split; [|split; [exact Hend|exact Hadd]]].
  rewrite Hboard, filter_app, (filter_active_fresh new Hfresh).
  assert (Hidem : filter active (filter active (apples g) ++ new)
                  = filter active (apples g) ++ new).
  { rewrite filter_app, (filter_active_fresh new Hfresh). f_equal.
    apply filter_active_twice. }
  rewrite Hidem, length_app. lia.
Qed.


(** ** The clock and the best score *)

(** Every live clock interval is the one [timerInterval] remembers, and
    handles are positive (the host never hands out 0, which [beginPlay]'s
    truthiness test would take for "no timer"). *)
Definition clockTracked (g : Game) : Prop :=
  (forall h, In (h, ClockInterval) (intervals g) -> timerInterval g = Some h)
  /\ (forall h, timerInterval g = Some h -> (0 < h)%nat)
  /\ (0 < nextInterval g)%nat.

(** What the constructor reads back: [parseInt(localStorage.getItem(..)) || 0]. *)
Definition storedBest (g : Game) : Z :=
  match localStorage g with Some v => v | None => 0%Z end.

Lemma clearInterval_not_in (h : nat) (f : Interval) (g : Game) :
  ~ In (h, f) (intervals (clearInterval (Some h) g)).
Proof.
  unfold clearInterval; game_simpl. intros Hin.
  apply filter_In in Hin as [_ Hin]. cbn [fst] in Hin.
  now rewrite Nat.eqb_refl in Hin.
Qed.

Lemma clearInterval_subset (o : option nat) (e : nat * Interval) (g : Game) :
  In e (intervals (clearInterval o g)) -> In e (intervals g).
Proof.
  destruct o as [h|]; [|trivial]. unfold clearInterval; game_simpl.
  intros Hin. now apply filter_In in Hin.
Qed.

Lemma endGame_spec (g : Game) :
  state (endGame g) = FINISHED
  /\ intervals (endGame g) = intervals (clearInterval (timerInterval g) g)
  /\ highScore (endGame g) = (if (highScore g <? score g)%Z then score g else highScore g)
  /\ localStorage (endGame g)
     = (if (highScore g <? score g)%Z then Some (score g) else localStorage g)
  /\ newRecordBadge (endGame g) = ((highScore g <? score g)%Z && (0 <? score g)%Z)
  /\ timerInterval (endGame g) = timerInterval g
  /\ nextInterval (endGame g) = nextInterval g
  /\ score (endGame g) = score g /\ apples (endGame g) = apples g
  /\ currentPath (endGame g) = currentPath g.
Proof.
  unfold endGame, clearInterval. game_simpl.
  destruct (timerInterval g) as [h|] eqn:Eh; game_simpl;
    destruct (highScore g <? score g)%Z; game_simpl; rewrite ?Eh; repeat split.
Qed.

(** C8.  On the clock tick that brings [timeLeft] to 0 the session enters
    [FINISHED] and no clock interval stays live; the best score (in the game
    and in [localStorage]) becomes the final score and the new-record badge is
    shown exactly when the final score is strictly above the previous best and
    above 0, and otherwise the best score is kept and the badge hidden; the
    best score never decreases. *)
Theorem clock_expiry (g : Game) :
  (timeLeft g <= 1)%Z ->
  clockTracked g ->
  (0 <= highScore g)%Z ->
  state (updateTimer g) = FINISHED
  /\ (forall h, ~ In (h, ClockInterval) (intervals (updateTimer g)))
  /\ ((highScore g < score g /\ 0 < score g)%Z ->
      highScore (updateTimer g) = score g
      /\ localStorage (updateTimer g) = Some (score g)
      /\ newRecordBadge (updateTimer g) = true)
  /\ (~ (highScore g < score g /\ 0 < score g)%Z ->
      highScore (updateTimer g) = highScore g
      /\ localStorage (updateTimer g) = localStorage g
      /\ newRecordBadge (updateTimer g) = false)
  /\ (highScore g <= highScore (updateTimer g))%Z.
Proof.
  intros Htime (Htrack & _ & _) Hbest.
  unfold updateTimer, updateTimerDisplay. game_simpl.
  replace (timeLeft g - 1 <=? 0)%Z with true by (symmetry; apply Z.leb_le; lia).
  match goal with |- context [endGame ?s] =>
    destruct (endGame_spec s) as (Hst & Hint & Hhigh & Hstore & Hbadge & _);
    rewrite Hst, Hint, Hhigh, Hstore, Hbadge
  end.
  game_simpl.
  split; [reflexivity|split; [|split; [|split]]].
  - intros h Hin.
    assert (Hin' := clearInterval_subset _ _ _ Hin). game_simpl.
    specialize (Htrack h Hin'). rewrite Htrack in Hin.
    exact (clearInterval_not_in h ClockInterval _ Hin).
  - intros [H1 H2]. apply Z.ltb_lt in H1, H2. now rewrite H1, H2.
  - intros Hno. destruct (Z.ltb_spec (highScore g) (score g)) as [H1|H1].
    + exfalso. apply Hno. lia.
    + repeat split.
  - destruct (Z.ltb_spec (highScore g) (score g)); lia.
Qed.

(** ** Pointer input outside [PLAYING] *)

Lemma handleInputStart_idle (pos : Point) (g : Game) :
  state g <> PLAYING -> handleInputStart pos g = g.
Proof.
  intros H. unfold handleInputStart. destruct (state g); try reflexivity.
  now contradiction H.
Qed.

Lemma handleInputMove_idle (pos : Point) (g : Game) :
  state g <> PLAYING -> handleInputMove pos g = g.
Proof.
  intros H. unfold handleInputMove.
  destruct (state g); cbn; try (now rewrite orb_true_r). now contradiction H.
Qed.

Lemma handleInputEnd_idle (g : Game) :
  isDrawing g = false -> handleInputEnd g = g.
Proof. intros H. unfold handleInputEnd. now rewrite H. Qed.

(** ** The live highlight and the final path *)

(** The [selected] flag of every active token is the ray-casting answer for
    its centre against the recorded path (when that path has 3 points). *)
Definition highlighted (path : list Point) (a : Apple.t) : Prop :=
  Apple.removed a = false ->
  Apple.selected a = isPointInPolygon (centre a) path.

Definition inSync (g : Game) : Prop :=
  (3 <= length (currentPath g))%nat ->
  Forall (highlighted (currentPath g)) (apples g).

(** The active tokens the ray-casting test reports inside the path. *)
Definition contained (g : Game) : list Apple.t :=
  filter (fun a => active a && isPointInPolygon (centre a) (currentPath g)) (apples g).

Lemma inSync_short (g : Game) :
  (length (currentPath g) < 3)%nat -> inSync g.
Proof. unfold inSync. lia. Qed.

Lemma inSync_contained (g : Game) :
  inSync g -> (3 <= length (currentPath g))%nat -> selectedApples g = contained g.
Proof.
  intros Hsync Hlong. specialize (Hsync Hlong).
  unfold selectedApples, contained.
  induction Hsync as [|a aps Ha _ IH]; [reflexivity|].
  cbn [filter]. rewrite IH.
  replace (isSelected a) with (active a && isPointInPolygon (centre a) (currentPath g));
    [reflexivity|].
  unfold isSelected, active, highlighted in *.
  destruct (Apple.removed a); cbn.
  - now rewrite andb_false_r.
  - rewrite Ha by reflexivity. now rewrite andb_true_r.
Qed.

Lemma checkRealTimeSelection_inSync (g : Game) :
  inSync (checkRealTimeSelection g).
Proof.
  unfold checkRealTimeSelection, inSync.
  destruct (Nat.ltb_spec (length (currentPath g)) 3) as [Hshort|Hlong].
  - unfold clearSelection; game_simpl. lia.
  - game_simpl. intros _. apply Forall_forall. intros a Ha.
    apply in_map_iff in Ha as (b & <- & _). unfold highlighted.
    destruct (Apple.removed b) eqn:Hb; [intros H; cbn in H; congruence|].
    intros _. reflexivity.
Qed.

(** Steps that touch neither the path nor a token's centre, [removed] or
    [selected] flag keep the highlight in sync. *)
Definition sameSelection (a a' : Apple.t) : Prop :=
  centre a' = centre a /\ Apple.removed a' = Apple.removed a
  /\ Apple.selected a' = Apple.selected a.

Lemma inSync_same (g g' : Game) :
  currentPath g' = currentPath g ->
  Forall2 sameSelection (apples g) (apples g') ->
  inSync g -> inSync g'.
Proof.
  unfold inSync. intros Hpath Hap Hsync Hlong. rewrite Hpath in *.
  specialize (Hsync Hlong).
  induction Hap as [|a a' aps aps' (Hc & Hr & Hs) _ IH]; [constructor|].
  inversion Hsync as [|? ? Ha Hrest]; subst.
  constructor; [|now apply IH].
  unfold highlighted in *. rewrite Hc, Hr, Hs. exact Ha.
Qed.

Lemma sameSelection_update (aps : list Apple.t) :
  Forall2 sameSelection aps (map Apple.update aps).
Proof.
  apply Forall2_map_r. intros a. unfold Apple.update.
  destruct (Apple.scale a <? Apple.targetScale a); repeat split.
Qed.

Lemma sameSelection_refl (aps : list Apple.t) : Forall2 sameSelection aps aps.
Proof. induction aps; constructor; [repeat split|assumption]. Qed.

Lemma update_inSync (g : Game) : inSync g -> inSync (update g).
Proof.
  apply inSync_same; [reflexivity|]. unfold update; game_simpl.
  apply sameSelection_update.
Qed.

Lemma updates_inSync (n : nat) (g : Game) : inSync g -> inSync (Nat.iter n update g).
Proof. intros H. induction n; [exact H|]. cbn [Nat.iter]. now apply update_inSync. Qed.

Lemma updateTimer_inSync (g : Game) : inSync g -> inSync (updateTimer g).
Proof.
  apply inSync_same; unfold updateTimer, updateTimerDisplay; game_simpl;
    match goal with |- context [if ?b then _ else _] => destruct b end;
    try match goal with |- context [endGame ?s] =>
      destruct (endGame_spec s) as (_ & _ & _ & _ & _ & _ & _ & _ & Hap & Hpath);
      rewrite ?Hap, ?Hpath end;
    game_simpl; try reflexivity; apply sameSelection_refl.
Qed.

Lemma beginPlay_inSync (g : Game) : inSync g -> inSync (beginPlay g).
Proof.
  apply inSync_same.
  - unfold beginPlay, loop, update, setInterval, clearInterval. game_simpl.
    destruct (timerInterval g) as [[|h]|]; reflexivity.
  - unfold beginPlay, loop, update, setInterval, clearInterval. game_simpl.
    destruct (timerInterval g) as [[|h]|]; game_simpl; apply sameSelection_update.
Qed.

Lemma countdownTick_inSync (h : nat) (count : Z) (g : Game) :
  inSync g -> inSync (countdownTick h count g).
Proof.
  intros Hsync. unfold countdownTick.
  destruct (0 <? count - 1)%Z.
  - revert Hsync. apply inSync_same; [reflexivity|apply sameSelection_refl].
  - apply beginPlay_inSync. revert Hsync.
    apply inSync_same; [reflexivity|apply sameSelection_refl].
Qed.

Lemma handleInputStart_inSync (pos : Point) (g : Game) :
  inSync g -> inSync (handleInputStart pos g).
Proof.
  intros Hsync. unfold handleInputStart.
  destruct (negb (Phase_eqb (state g) PLAYING)); [exact Hsync|].
  apply inSync_short. cbn. lia.
Qed.

Lemma handleInputMove_inSync (pos : Point) (g : Game) :
  inSync g -> inSync (handleInputMove pos g).
Proof.
  intros Hsync. unfold handleInputMove.
  destruct (negb (isDrawing g) || negb (Phase_eqb (state g) PLAYING)); [exact Hsync|].
  destruct (rev (currentPath g)) as [|last rest]; [exact Hsync|].
  match goal with |- context [if ?b then _ else _] => destruct b end;
    [apply checkRealTimeSelection_inSync|exact Hsync].
Qed.

Lemma handleInputEnd_inSync (g : Game) :
  inSync g -> inSync (handleInputEnd g).
Proof.
  intros Hsync. unfold handleInputEnd.
  destruct (negb (isDrawing g)); [exact Hsync|].
  apply inSync_short. cbn. lia.
Qed.

Definition isClick (e : Event) : bool :=
  match e with Click => true | _ => false end.

Lemma step_inSync (e : Event) (g : Game) :
  isClick e = false -> inSync g -> inSync (step e g).
Proof.
  intros He Hsync. destruct e as [|h| |pos|pos|]; cbn [step].
  - discriminate He.
  - destruct (lookupInterval h g) as [[count|]|]; [| |exact Hsync].
    + now apply countdownTick_inSync.
    + now apply updateTimer_inSync.
  - now apply updates_inSync.
  - now apply handleInputStart_inSync.
  - now apply handleInputMove_inSync.
  - now apply handleInputEnd_inSync.
Qed.

(** C4 (as the code has it).  The release sums the active tokens whose
    [selected] flag is set.  Every recorded move leaves these flags equal to
    the ray-casting answers against the path it has just extended, and every
    event other than a click on start, reset or play-again keeps them so;
    hence, when no such click fell in the gesture, the tokens summed on
    release are exactly the active tokens whose centres the test reports
    inside the final path. *)
Theorem release_sums_contained (es : list Event) (g : Game) :
  inSync g ->
  forallb (fun e => negb (isClick e)) es = true ->
  inSync (run es g)
  /\ ((3 <= length (currentPath (run es g)))%nat ->
      selectedApples (run es g) = contained (run es g)).
Proof.
  intros Hsync Hes.
  assert (H : inSync (run es g)).
  { revert g Hsync; induction es as [|e es IH]; intros g Hsync; [exact Hsync|].
    cbn [forallb] in Hes. apply andb_true_iff in Hes as [He Hes].
    cbn [run fold_left]. apply (IH Hes). apply step_inSync; [|exact Hsync].
    now destruct (isClick e). }
  split; [exact H|]. now apply inSync_contained.
Qed.

(** ** [Math.floor] on a product below 9 *)

Lemma digits2_pos_bound (m : positive) :
  (Z.pos m < 2 ^ Z.pos (digits2_pos m))%Z.
Proof.
  induction m as [m IH|m IH|]; cbn [digits2_pos].
  - rewrite Pos2Z.inj_succ, Z.pow_succ_r by lia. lia.
  - rewrite Pos2Z.inj_succ, Z.pow_succ_r by lia. lia.
  - reflexivity.
Qed.

Lemma valid_mantissa_bound (s : bool) (m : positive) (e : Z) :
  valid_binary (S754_finite s m e) = true -> (Z.pos m < 2 ^ 53)%Z.
Proof.
  cbn [valid_binary]. unfold bounded, canonical_mantissa, fexp.
  intros H. apply andb_true_iff in H as [H _]. apply Z.eqb_eq in H.
  pose proof (digits2_pos_bound m) as Hb.
  assert (Hd : (Z.pos (digits2_pos m) <= 53)%Z) by (unfold prec in H; lia).
  eapply Z.lt_le_trans; [exact Hb|]. apply Z.pow_le_mono_r; lia.
Qed.

Lemma SFltb_finite (m m2 : positive) (e e2 : Z) :
  SFltb (S754_finite false m e) (S754_finite false m2 e2) = true ->
  (e < e2 \/ (e = e2 /\ Z.pos m < Z.pos m2))%Z.
Proof.
  unfold SFltb, SFcompare.
  destruct (Z.compare_spec e e2) as [He|He|He]; try discriminate.
  - fold (Pos.compare m m2).
    destruct (Pos.compare_spec m m2) as [Hm|Hm|Hm]; try discriminate.
    intros _. right. split; [exact He|]. now apply Pos2Z.pos_lt_pos.
  - intros _. now left.
Qed.

(** A number that compares as [0 <= f < 9] floors to one of 0, ..., 8. *)
Lemma Math_floor_below_nine (f : float) :
  (0 <=? f) = true -> (f <? 9) = true -> (0 <= Math_floor f <= 8)%Z.
Proof.
  rewrite leb_spec, ltb_spec. unfold Math_floor.
  pose proof (Prim2SF_valid f) as Hv.
  replace (Prim2SF 0) with (S754_zero false) by reflexivity.
  replace (Prim2SF 9) with (S754_finite false 5066549580791808 (-49)) by reflexivity.
  destruct (Prim2SF f) as [s|s| |s m e]; try (intros; lia).
  apply valid_mantissa_bound in Hv.
  destruct s; [discriminate|]. intros _ Hlt.
  apply SFltb_finite in Hlt.
  assert (Hpow : (0 < 2 ^ (- e))%Z) by (apply Z.pow_pos_nonneg; lia).
  destruct Hlt as [He|[He Hm]].
  - rewrite Z.shiftl_div_pow2 by lia. split.
    + apply Z.div_pos; lia.
    + apply Z.lt_succ_r, Z.div_lt_upper_bound; [exact Hpow|].
      assert (2 ^ 50 <= 2 ^ (- e))%Z by (apply Z.pow_le_mono_r; lia).
      change (2 ^ 53)%Z with (2 ^ 50 * 8)%Z in Hv. lia.
  - subst e. rewrite Z.shiftl_div_pow2 by lia. split.
    + apply Z.div_pos; lia.
    + apply Z.lt_succ_r, Z.div_lt_upper_bound; [exact Hpow|].
      change (2 ^ (- -49) * Z.succ 8)%Z with 5066549580791808%Z. exact Hm.
Qed.

(** ** The placement sampler *)

(** The collision test of the sampler, read for an older token [a] and a
    newer token [b] that are both on the board and not removed: [b] was not
    too close to [a]. *)
Definition apart (a b : Apple.t) : Prop :=
  Apple.removed a = false -> Apple.removed b = false ->
  tooClose (Apple.x b) (Apple.y b) a = false.

Fixpoint spaced (aps : list Apple.t) : Prop :=
  match aps with
  | [] => True
  | a :: rest => Forall (apart a) rest /\ spaced rest
  end.

(** A token as the sampler builds it on a [w] x [h] board: three consecutive
    draws give its abscissa, its ordinate and its value. *)
Definition sampled (w h : float) (a : Apple.t) : Prop :=
  exists n,
    a = Apple.new (place (Math_random n) w) (place (Math_random (S n)) h)
          (drawValue (Math_random (S (S n)))).

(** A draw whose product by 9, in double precision, lies in [0, 9). *)
Definition validDraw (r : float) : Prop :=
  (0 <=? r * 9) = true /\ (r * 9 <? 9) = true.

Lemma spaced_snoc (aps : list Apple.t) (b : Apple.t) :
  spaced aps -> Forall (fun a => apart a b) aps -> spaced (aps ++ [b]).
Proof.
  induction aps as [|a aps IH]; intros Hsp Hb; cbn [app spaced].
  - split; constructor.
  - destruct Hsp as [Ha Hsp]. inversion Hb as [|? ? Hab Hrest]; subst. split.
    + apply Forall_app. split; [exact Ha|now constructor].
    + now apply IH.
Qed.

Lemma spaced_filter (f : Apple.t -> bool) (aps : list Apple.t) :
  spaced aps -> spaced (filter f aps).
Proof.
  induction aps as [|a aps IH]; [trivial|]. intros [Ha Hsp]. cbn [filter].
  destruct (f a); [|now apply IH]. split; [|now apply IH].
  apply Forall_forall. intros b Hb. apply filter_In in Hb as [Hb _].
  rewrite Forall_forall in Ha. now apply Ha.
Qed.

(** A change of tokens that keeps centres and removes at most. *)
Definition keepsPlace (f : Apple.t -> Apple.t) : Prop :=
  forall a, Apple.x (f a) = Apple.x a /\ Apple.y (f a) = Apple.y a
            /\ (Apple.removed (f a) = false -> Apple.removed a = false).

Lemma spaced_map (f : Apple.t -> Apple.t) (aps : list Apple.t) :
  keepsPlace f -> spaced aps -> spaced (map f aps).
Proof.
  intros Hf. induction aps as [|a aps IH]; [trivial|]. intros [Ha Hsp].
  cbn [map spaced]. split; [|now apply IH].
  apply Forall_forall. intros b' Hb'. apply in_map_iff in Hb' as (b & <- & Hb).
  rewrite Forall_forall in Ha. specialize (Ha b Hb).
  destruct (Hf a) as (Hxa & Hya & Hra), (Hf b) as (Hxb & Hyb & Hrb).
  unfold apart, tooClose in *. rewrite Hxa, Hya, Hxb, Hyb. auto.
Qed.

Lemma overlapsAny_false (x0 y0 : float) (aps : list Apple.t) :
  overlapsAny x0 y0 aps = false -> Forall (fun a => tooClose x0 y0 a = false) aps.
Proof.
  unfold overlapsAny. induction aps as [|a aps IH]; [constructor|].
  cbn [existsb]. intros H. apply orb_false_iff in H as [Ha H].
  constructor; [exact Ha|now apply IH].
Qed.

Lemma overlapsActive_false (x0 y0 : float) (aps : list Apple.t) :
  overlapsActive x0 y0 aps = false ->
  Forall (fun a => Apple.removed a = false -> tooClose x0 y0 a = false) aps.
Proof.
  unfold overlapsActive. induction aps as [|a aps IH]; [constructor|].
  cbn [existsb]. intros H. apply orb_false_iff in H as [Ha H].
  constructor; [|now apply IH]. intros Hr. now rewrite Hr in Ha.
Qed.

Lemma generateLoop_spec (budget : nat) (w h : float) (aps : list Apple.t) (c : nat) :
  exists new,
    fst (generateLoop budget w h aps c) = aps ++ new
    /\ Forall (sampled w h) new
    /\ (spaced aps -> spaced (fst (generateLoop budget w h aps c)))
    /\ ((length aps <= totalApples)%nat ->
        (length (fst (generateLoop budget w h aps c)) <= totalApples)%nat).
Proof.
  revert aps c; induction budget as [|budget IH]; intros aps c.
  - exists []. cbn. rewrite app_nil_r. repeat split; auto.
  - cbn [generateLoop random].
    destruct (Nat.ltb_spec (length aps) totalApples) as [Hlt|Hge].
    + destruct (overlapsAny (place (Math_random c) w) (place (Math_random (S c)) h) aps)
        eqn:Hov.
      * apply IH.
      * match goal with |- context [generateLoop budget w h (aps ++ [?b]) ?c1] =>
          destruct (IH (aps ++ [b]) c1) as (new & Heq & Hnew & Hsp & Hlen);
          exists (b :: new)
        end.
        split; [now rewrite Heq, <- app_assoc|split; [|split]].
        -- constructor; [exists c; reflexivity|exact Hnew].
        -- intros Haps. apply Hsp. apply spaced_snoc; [exact Haps|].
           apply overlapsAny_false in Hov.
           eapply Forall_impl; [|exact Hov]. intros a Ha _ _. exact Ha.
        -- intros _. apply Hlen. rewrite length_app. cbn [length]. lia.
    + exists []. cbn [fst]. rewrite app_nil_r. repeat split; auto.
Qed.

Lemma spawnLoop_sampled (budget : nat) (w h : float) (count : Z) (s : Spawned) :
  exists new,
    board (spawnLoop budget w h count s) = board s ++ new
    /\ Forall (sampled w h) new
    /\ (spaced (board s) -> spaced (board (spawnLoop budget w h count s))).
Proof.
  revert s; induction budget as [|budget IH]; intros s.
  - exists []. cbn. rewrite app_nil_r. repeat split; auto.
  - cbn [spawnLoop random].
    destruct (added s <? count)%Z.
    + destruct (overlapsActive (place (Math_random (cursor s)) w)
                  (place (Math_random (S (cursor s))) h) (board s)) eqn:Hov.
      * match goal with |- context [spawnLoop budget w h count ?s1] =>
          destruct (IH s1) as (new & Heq & Hnew & Hsp) end.
        exists new. cbn [board] in *. auto.
      * match goal with |- context [spawnLoop budget w h count ?s1] =>
          destruct (IH s1) as (new & Heq & Hnew & Hsp) end.
        cbn [board] in *.
        match type of Heq with _ = (_ ++ [?b]) ++ _ => exists (b :: new) end.
        split; [now rewrite Heq, <- app_assoc|split].
        -- constructor; [exists (cursor s); reflexivity|exact Hnew].
        -- intros Haps. apply Hsp.
           apply spaced_snoc; [exact Haps|].
           apply overlapsActive_false in Hov.
           eapply Forall_impl; [|exact Hov]. intros a Ha Hr _. exact (Ha Hr).
    + exists []. rewrite app_nil_r. repeat split; auto.
Qed.

Lemma generateApples_apples (g : Game) :
  apples (generateApples g)
  = fst (generateLoop maxAttempts (width g) (height g) [] (randomCursor g)).
Proof.
  unfold generateApples.
  destruct (generateLoop maxAttempts (width g) (height g) [] (randomCursor g)).
  reflexivity.
Qed.

Lemma setInterval_apples (f : Interval) (g : Game) :
  apples (snd (setInterval f g)) = apples g.
Proof. reflexivity. Qed.

Lemma startCountdown_unfold (g : Game) :
  startCountdown g
  = snd (setInterval (CountdownInterval 3)
           (generateApples
              (set_apples []
                 (updateTimerDisplay
                    (updateScore 0
                       (set_timeLeft 60 (set_score 0 (set_state COUNTDOWN g)))))))).
Proof. reflexivity. Qed.

Lemma startCountdown_apples (g : Game) :
  apples (startCountdown g)
  = fst (generateLoop maxAttempts (width g) (height g) [] (randomCursor g)).
Proof.
  rewrite startCountdown_unfold, setInterval_apples, generateApples_apples.
  reflexivity.
Qed.

Lemma spawnNewApples_apples (count : Z) (g : Game) :
  exists new,
    apples (spawnNewApples count g) = filter active (apples g) ++ new
    /\ Forall (sampled (width g) (height g)) new
    /\ (spaced (apples g) -> spaced (apples (spawnNewApples count g))).
Proof.
  unfold spawnNewApples, spawnRun. game_simpl.
  destruct (spawnLoop_sampled refillAttempts (width g) (height g) count
              (mkSpawned 0 0 (apples g) (randomCursor g))) as (new & Heq & Hnew & Hsp).
  cbn [board] in *. exists new. split; [|split].
  - rewrite Heq, filter_app. f_equal.
    clear Heq Hsp. induction Hnew as [|a new [n ->] _ IH]; [reflexivity|].
    cbn [filter]. cbn. now rewrite IH.
  - exact Hnew.
  - intros Haps. apply spaced_filter. now apply Hsp.
Qed.

Lemma keepsPlace_unselect (b : bool) : keepsPlace (Apple.set_selected b).
Proof. intros a. repeat split. auto. Qed.

Lemma keepsPlace_update : keepsPlace Apple.update.
Proof.
  intros a. unfold Apple.update.
  destruct (Apple.scale a <? Apple.targetScale a); repeat split; auto.
Qed.

Lemma keepsPlace_marked : keepsPlace markedOf.
Proof.
  intros a. unfold markedOf. destruct (isSelected a); repeat split; auto.
  cbn. discriminate.
Qed.

Lemma keepsPlace_highlight (path : list Point) :
  keepsPlace (fun apple =>
                if Apple.removed apple then apple
                else Apple.set_selected (isPointInPolygon (centre apple) path) apple).
Proof.
  intros a. cbv beta.
  destruct (Apple.removed a) eqn:E; repeat split; cbn; intros; congruence.
Qed.

Lemma checkRefill_spaced (g : Game) :
  spaced (apples g) -> spaced (apples (checkRefill g)).
Proof.
  intros Hsp. unfold checkRefill.
  destruct (0 <? targetApples - currentApples g)%Z; [|exact Hsp].
  destruct (spawnNewApples_apples (targetApples - currentApples g) g) as (_ & _ & _ & H).
  now apply H.
Qed.

Lemma checkSelection_spaced (g : Game) :
  spaced (apples g) -> spaced (apples (checkSelection g)).
Proof.
  intros Hsp. unfold checkSelection.
  destruct (length (currentPath g) <? 3)%nat; [exact Hsp|].
  unfold clearSelection; game_simpl.
  apply spaced_map; [apply keepsPlace_unselect|].
  destruct (sumValues (selectedApples g) =? 10)%Z; [|exact Hsp].
  apply checkRefill_spaced.
  destruct (updateScore_frame (Z.of_nat (length (selectedApples g)))
              (spawnBursts (selectedApples g) (markRemoved g))) as (-> & _).
  destruct (spawnBursts_appends (selectedApples g) (markRemoved g)) as (qs & Happ & _).
  apply appendsParticles_frame in Happ as (-> & _).
  unfold markRemoved; game_simpl.
  apply (spaced_map markedOf); [apply keepsPlace_marked|exact Hsp].
Qed.

Lemma update_apples (g : Game) : apples (update g) = map Apple.update (apples g).
Proof. reflexivity. Qed.

Lemma updates_apples (n : nat) (g : Game) :
  apples (Nat.iter n update g) = Nat.iter n (map Apple.update) (apples g).
Proof.
  induction n as [|n IH]; [reflexivity|].
  now rewrite !Nat.iter_succ, update_apples, IH.
Qed.

Lemma beginPlay_apples (g : Game) :
  apples (beginPlay g) = map Apple.update (apples g).
Proof.
  unfold beginPlay, loop, update, setInterval, clearInterval. game_simpl.
  destruct (timerInterval g) as [[|h]|]; reflexivity.
Qed.

Lemma updateTimer_apples (g : Game) : apples (updateTimer g) = apples g.
Proof.
  unfold updateTimer, updateTimerDisplay; game_simpl.
  match goal with |- context [if ?b then _ else _] => destruct b end;
    [|reflexivity].
  match goal with |- context [endGame ?s] =>
    destruct (endGame_spec s) as (_ & _ & _ & _ & _ & _ & _ & _ & -> & _) end.
  reflexivity.
Qed.

Lemma step_spaced (e : Event) (g : Game) :
  spaced (apples g) -> spaced (apples (step e g)).
Proof.
  intros Hsp. destruct e as [|h| |pos|pos|]; cbn [step].
  - unfold startGame. rewrite startCountdown_apples.
    destruct (generateLoop_spec maxAttempts (width g) (height g) [] (randomCursor g))
      as (_ & _ & _ & H & _).
    now apply H.
  - destruct (lookupInterval h g) as [[count|]|]; [| |exact Hsp].
    + unfold countdownTick. destruct (0 <? count - 1)%Z; [exact Hsp|].
      rewrite beginPlay_apples.
      apply spaced_map; [apply keepsPlace_update|].
      destruct (Some h); exact Hsp.
    + now rewrite updateTimer_apples.
  - rewrite updates_apples. induction (renderLoops g) as [|n IH]; [exact Hsp|].
    rewrite Nat.iter_succ. apply spaced_map; [apply keepsPlace_update|exact IH].
  - unfold handleInputStart.
    destruct (negb (Phase_eqb (state g) PLAYING)); exact Hsp.
  - unfold handleInputMove.
    destruct (negb (isDrawing g) || negb (Phase_eqb (state g) PLAYING)); [exact Hsp|].
    destruct (rev (currentPath g)) as [|last rest]; [exact Hsp|].
    match goal with |- context [if ?b then _ else _] => destruct b end; [|exact Hsp].
    unfold checkRealTimeSelection. game_simpl.
    match goal with |- context [if ?b then _ else _] => destruct b end.
    + unfold clearSelection; game_simpl.
      apply spaced_map; [apply keepsPlace_unselect|exact Hsp].
    + game_simpl. apply spaced_map; [apply keepsPlace_highlight|exact Hsp].
  - unfold handleInputEnd. destruct (negb (isDrawing g)); [exact Hsp|].
    game_simpl. now apply (checkSelection_spaced (set_isDrawing false g)).
Qed.

Lemma sampled_digit (w h : float) (a : Apple.t) :
  (forall n, validDraw (Math_random n)) -> sampled w h a -> digit a.
Proof.
  intros Hvalid [n ->]. unfold digit. cbn [Apple.value Apple.new]. unfold drawValue.
  destruct (Hvalid (S (S n))) as [H0 H9].
  pose proof (Math_floor_below_nine _ H0 H9). lia.
Qed.


(** ** Rounding to double precision

    The operations of [float] are specified by the functions of [SpecFloat]
    on mantissa and exponent.  What follows reads them as round-to-nearest-even
    on exact values, far enough to bound the expressions of the sampler. *)

Local Open Scope Z_scope.

Lemma digits2_pos_low (m : positive) :
  2 ^ (Z.pos (digits2_pos m) - 1) <= Z.pos m.
Proof.
  induction m as [m IH|m IH|]; cbn [digits2_pos]; [| |reflexivity];
    rewrite Pos2Z.inj_succ;
    replace (Z.succ (Z.pos (digits2_pos m)) - 1)
      with (Z.succ (Z.pos (digits2_pos m) - 1)) by lia;
    rewrite Z.pow_succ_r by lia; lia.
Qed.

(** The number of binary digits is fixed by the binade. *)
Lemma digits2_pos_unique (m : positive) (d : Z) :
  2 ^ (d - 1) <= Z.pos m < 2 ^ d -> Z.pos (digits2_pos m) = d.
Proof.
  intros [Hlo Hhi]. pose proof (digits2_pos_bound m) as Hb.
  pose proof (digits2_pos_low m) as Hl.
  destruct (Z.lt_trichotomy (Z.pos (digits2_pos m)) d) as [H|[H|H]]; [|exact H|].
  - assert (2 ^ Z.pos (digits2_pos m) <= 2 ^ (d - 1)) by (apply Z.pow_le_mono_r; lia).
    lia.
  - assert (2 ^ d <= 2 ^ (Z.pos (digits2_pos m) - 1)) by (apply Z.pow_le_mono_r; lia).
    lia.
Qed.

Lemma iter_pos_nat {A : Type} (f : A -> A) (p : positive) (a : A) :
  iter_pos f p a = Nat.iter (Pos.to_nat p) f a.
Proof.
  revert a; induction p as [p IH|p IH|]; intros a; cbn [iter_pos].
  - rewrite !IH, Pos2Nat.inj_xI, <- Nat.iter_add, <- Nat.iter_succ_r.
    f_equal. lia.
  - rewrite !IH, Pos2Nat.inj_xO, <- Nat.iter_add. f_equal. lia.
  - reflexivity.
Qed.

Lemma shr_1_nonneg (m : Z) (r s : bool) :
  0 <= m ->
  shr_1 (Build_shr_record m r s) = Build_shr_record (Z.div2 m) (Z.odd m) (r || s).
Proof. destruct m as [|[p|p|]|p]; intros H; try reflexivity; lia. Qed.

(** What [n] right shifts leave of the mantissa [m]: the quotient, and the
    position of the remainder with respect to the half of [2 ^ n]. *)
Definition shifted (m n : Z) (mrs : shr_record) : Prop :=
  exists rem u,
    0 <= shr_m mrs /\ m = shr_m mrs * 2 ^ n + rem /\ 0 <= rem < 2 ^ n
    /\ 2 * rem = (if shr_r mrs then 2 ^ n else 0) + u /\ 0 <= u < 2 ^ n
    /\ (shr_s mrs = false <-> u = 0).

Lemma shifted_iter (m : Z) (n : nat) :
  0 <= m ->
  shifted m (Z.of_nat n) (Nat.iter n shr_1 (Build_shr_record m false false)).
Proof.
  intros Hm. induction n as [|n IH].
  - exists 0, 0. cbn. repeat split; lia.
  - rewrite Nat.iter_succ.
    destruct (Nat.iter n shr_1 (Build_shr_record m false false)) as [q r s].
    destruct IH as (rem & u & Hq & Heq & Hrem & Hu & Hub & Hs). cbn [shr_m shr_r shr_s] in *.
    rewrite (shr_1_nonneg q r s Hq). unfold shifted. cbn [shr_m shr_r shr_s].
    rewrite Nat2Z.inj_succ, Z.pow_succ_r by lia.
    pose proof (Z.div2_odd q) as Hdiv.
    assert (Hd : 0 <= Z.div2 q) by (apply Z.div2_nonneg; exact Hq).
    set (X := 2 ^ Z.of_nat n) in *.
    exists ((if Z.odd q then X else 0) + rem), (2 * rem).
    destruct (Z.odd q); cbn [Z.b2z] in Hdiv; destruct r; cbn [orb];
      repeat split; try lia; try nia; try discriminate; intros; try lia;
      try (destruct Hs as [Hs1 Hs2]; first [apply Hs2; lia | specialize (Hs1 ltac:(assumption)); lia]).
Qed.

Definition rne (m n m' : Z) : Prop :=
  exists q rem,
    0 <= q /\ m = q * 2 ^ n + rem /\ 0 <= rem < 2 ^ n
    /\ ((m' = q /\ 2 * rem <= 2 ^ n /\ (2 * rem = 2 ^ n -> Z.even q = true))
        \/ (m' = q + 1 /\ 2 ^ n <= 2 * rem /\ (2 * rem = 2 ^ n -> Z.even q = false))).

Lemma shifted_rne (m n : Z) (mrs : shr_record) :
  shifted m n mrs ->
  rne m n (round_nearest_even (shr_m mrs) (loc_of_shr_record mrs)).
Proof.
  destruct mrs as [q r s]. intros (rem & u & Hq & Heq & Hrem & Hu & Hub & Hs).
  cbn [shr_m shr_r shr_s] in *. exists q, rem.
  split; [exact Hq|split; [exact Heq|split; [exact Hrem|]]].
  destruct r, s; cbn [loc_of_shr_record round_nearest_even].
  - right. split; [reflexivity|]. split; [lia|]. intros H.
    assert (u = 0) by lia. destruct Hs as [_ Hs]. now specialize (Hs H0).
  - destruct Hs as [Hs _]. specialize (Hs eq_refl). subst u.
    destruct (Z.even q) eqn:E; [left|right]; repeat split; auto; lia.
  - left. repeat split; lia.
  - destruct Hs as [Hs _]. specialize (Hs eq_refl). left. repeat split; lia.
Qed.

Lemma fexp64 (x : Z) : fexp prec emax x = Z.max (x - 53) (-1074).
Proof. reflexivity. Qed.

Lemma shr_fexp_shifted (m : positive) (e : Z) :
  exists mrs,
    shr_fexp prec emax (Z.pos m) e loc_Exact
    = (mrs, Z.max e (Z.max (Z.pos (digits2_pos m) + e - 53) (-1074)))
    /\ shifted (Z.pos m)
         (Z.max e (Z.max (Z.pos (digits2_pos m) + e - 53) (-1074)) - e) mrs.
Proof.
  unfold shr_fexp, shr. cbn [Zdigits2 shr_record_of_loc]. rewrite fexp64.
  set (f := Z.max (Z.pos (digits2_pos m) + e - 53) (-1074)).
  destruct (f - e) as [|p|p] eqn:E.
  - exists (Build_shr_record (Z.pos m) false false). split; [f_equal; lia|].
    replace (Z.max e f - e) with (Z.of_nat 0) by lia.
    apply (shifted_iter (Z.pos m) 0). lia.
  - exists (iter_pos shr_1 p (Build_shr_record (Z.pos m) false false)).
    split; [f_equal; lia|].
    replace (Z.max e f - e) with (Z.of_nat (Pos.to_nat p))
      by (rewrite positive_nat_Z; lia).
    rewrite iter_pos_nat. apply shifted_iter. lia.
  - exists (Build_shr_record (Z.pos m) false false). split; [f_equal; lia|].
    replace (Z.max e f - e) with (Z.of_nat 0) by lia.
    apply (shifted_iter (Z.pos m) 0). lia.
Qed.

Lemma shr_fexp_small (m' e' : Z) :
  -1074 <= e' -> 0 <= m' < 2 ^ 53 ->
  shr_fexp prec emax m' e' loc_Exact = (Build_shr_record m' false false, e').
Proof.
  intros He Hm. unfold shr_fexp, shr. cbn [shr_record_of_loc]. rewrite fexp64.
  assert (Hd : Zdigits2 m' <= 53).
  { destruct m' as [|p|p]; cbn [Zdigits2]; [lia| |lia].
    pose proof (digits2_pos_low p) as Hl.
    destruct (Z.le_gt_cases (Z.pos (digits2_pos p)) 53) as [H|H]; [exact H|].
    assert (2 ^ 53 <= 2 ^ (Z.pos (digits2_pos p) - 1)) by (apply Z.pow_le_mono_r; lia).
    lia. }
  destruct (Z.max (Zdigits2 m' + e' - 53) (-1074) - e') as [|p|p] eqn:E;
    [reflexivity|lia|reflexivity].
Qed.

Lemma shr_fexp_carry (e' : Z) :
  -1074 <= e' ->
  shr_fexp prec emax (2 ^ 53) e' loc_Exact
  = (Build_shr_record (2 ^ 52) false false, e' + 1).
Proof.
  intros He. unfold shr_fexp, shr. rewrite fexp64.
  change (Zdigits2 (2 ^ 53)) with 54.
  replace (Z.max (54 + e' - 53) (-1074) - e') with 1 by lia.
  reflexivity.
Qed.

(** The result of rounding the positive number [m * 2 ^ e]: the mantissa
    [m'] chosen at the exponent [e'] of its binade, renormalised when it
    reaches [2 ^ 53]. *)
Lemma round_aux_shape (m : positive) (e : Z) :
  exists m',
    rne (Z.pos m) (Z.max e (Z.max (Z.pos (digits2_pos m) + e - 53) (-1074)) - e) m'
    /\ 0 <= m' <= 2 ^ 53
    /\ match binary_round_aux prec emax false (Z.pos m) e loc_Exact with
       | S754_zero s => s = false /\ m' = 0
       | S754_finite s m2 e2 =>
           s = false /\ e2 <= 971
           /\ ((e2 = Z.max e (Z.max (Z.pos (digits2_pos m) + e - 53) (-1074))
                /\ Z.pos m2 = m')
               \/ (e2 = Z.max e (Z.max (Z.pos (digits2_pos m) + e - 53) (-1074)) + 1
                   /\ m' = 2 ^ 53 /\ Z.pos m2 = 2 ^ 52))
       | S754_infinity s =>
           s = false /\ 0 < m'
           /\ 971 < (if m' =? 2 ^ 53 then 1 else 0)
                    + Z.max e (Z.max (Z.pos (digits2_pos m) + e - 53) (-1074))
       | S754_nan => False
       end.
Proof.
  unfold binary_round_aux.
  destruct (shr_fexp_shifted m e) as (mrs & -> & Hsh).
  set (e' := Z.max e (Z.max (Z.pos (digits2_pos m) + e - 53) (-1074))) in *.
  pose proof (shifted_rne _ _ _ Hsh) as Hr.
  set (m' := round_nearest_even (shr_m mrs) (loc_of_shr_record mrs)) in *.
  assert (Hm' : 0 <= m' <= 2 ^ 53).
  { destruct Hr as (q & rem & Hq & Heq & Hrem & Hcase).
    pose proof (digits2_pos_bound m) as Hb.
    assert (Hk : 0 <= e' - e) by (unfold e'; lia).
    assert (Hq53 : q < 2 ^ 53).
    { destruct (Z.le_gt_cases (Z.pos (digits2_pos m) - 53) (e' - e)) as [Hle|Hgt];
        [|unfold e' in Hgt; lia].
      assert (Hpw : 2 ^ Z.pos (digits2_pos m) <= 2 ^ 53 * 2 ^ (e' - e)).
      { rewrite <- Z.pow_add_r by lia. apply Z.pow_le_mono_r; lia. }
      assert (0 < 2 ^ (e' - e)) by (apply Z.pow_pos_nonneg; lia).
      nia. }
    destruct Hcase as [(-> & _)|(-> & _)]; lia. }
  exists m'. split; [exact Hr|split; [exact Hm'|]].
  assert (He' : -1074 <= e') by (unfold e'; lia).
  destruct (Z.eq_dec m' (2 ^ 53)) as [Heq|Hne].
  - rewrite Heq, (shr_fexp_carry e' He'). cbn [shr_m].
    change (2 ^ 52) with (Z.pos 4503599627370496).
    cbv beta iota. rewrite Z.eqb_refl.
    destruct (Z.leb_spec (e' + 1) (emax - prec)) as [Hle|Hgt];
      change (emax - prec) with 971 in *.
    + split; [reflexivity|split; [lia|]]. right. repeat split.
    + split; [reflexivity|split; [lia|lia]].
  - rewrite (shr_fexp_small m' e' He') by lia. cbn [shr_m].
    destruct m' as [|p|p]; [split; reflexivity| |lia].
    replace (Z.pos p =? 2 ^ 53) with false by (symmetry; apply Z.eqb_neq; exact Hne).
    destruct (Z.leb_spec e' (emax - prec)) as [Hle|Hgt];
      change (emax - prec) with 971 in *.
    + split; [reflexivity|split; [lia|]]. left. split; reflexivity.
    + split; [reflexivity|split; [lia|lia]].
Qed.

(** *** Round-to-nearest-even on dyadic numbers

    A non-negative finite double is counted in units of [2 ^ -2148], small
    enough for the exact product of any two doubles to be a whole number of
    units; every double is then a multiple of [2 ^ 1074] units. *)

Definition unitExp : Z := -2148.

(** The number [m * 2 ^ e], in units. *)
Definition dyadic (m e : Z) : Z := m * 2 ^ (e - unitExp).

(** The exponent (in units) at which a number of the size of [v] is rounded. *)
Definition roundingExp (v : Z) : Z := Z.max (Z.log2 v - 52) 1074.

Definition roundsUp (k v : Z) : bool :=
  (2 ^ k <? 2 * (v mod 2 ^ k)) || ((2 ^ k =? 2 * (v mod 2 ^ k)) && Z.odd (v / 2 ^ k)).

Definition rnd (v : Z) : Z :=
  (v / 2 ^ roundingExp v + (if roundsUp (roundingExp v) v then 1 else 0)) * 2 ^ roundingExp v.

(** A double, or the first number beyond the largest one of a binade. *)
Definition representable (x : Z) : Prop :=
  exists mB jB, 0 <= mB <= 2 ^ 53 /\ 1074 <= jB /\ x = mB * 2 ^ jB.

Lemma roundingExp_ge (v : Z) : 1074 <= roundingExp v.
Proof. unfold roundingExp. lia. Qed.

Lemma pow2_pos (k : Z) : 0 <= k -> 0 < 2 ^ k.
Proof. intros H. apply Z.pow_pos_nonneg; lia. Qed.

Lemma pow2_split (a b : Z) : 0 <= a -> 0 <= b -> 2 ^ (a + b) = 2 ^ a * 2 ^ b.
Proof. intros. apply Z.pow_add_r; assumption. Qed.

(** The quotient and remainder behind [rnd v]. *)
Lemma rnd_cases (v : Z) :
  0 <= v ->
  exists q rem,
    v = q * 2 ^ roundingExp v + rem /\ 0 <= rem < 2 ^ roundingExp v /\ 0 <= q < 2 ^ 53
    /\ (roundingExp v = 1074 \/ 2 ^ 52 <= q)
    /\ ((rnd v = q * 2 ^ roundingExp v /\ 2 * rem <= 2 ^ roundingExp v
         /\ (2 * rem = 2 ^ roundingExp v -> Z.odd q = false))
        \/ (rnd v = (q + 1) * 2 ^ roundingExp v /\ 2 ^ roundingExp v <= 2 * rem
            /\ (2 * rem = 2 ^ roundingExp v -> Z.odd q = true))).
Proof.
  intros Hv. pose proof (roundingExp_ge v) as Hk.
  assert (HX : 0 < 2 ^ roundingExp v) by (apply pow2_pos; lia).
  exists (v / 2 ^ roundingExp v), (v mod 2 ^ roundingExp v).
  pose proof (Z.div_mod v (2 ^ roundingExp v) ltac:(lia)) as Hdm.
  pose proof (Z.mod_pos_bound v (2 ^ roundingExp v) HX) as Hmod.
  assert (Hq0 : 0 <= v / 2 ^ roundingExp v) by (apply Z.div_pos; lia).
  split; [lia|split; [exact Hmod|]].
  assert (Hq : v / 2 ^ roundingExp v < 2 ^ 53 /\ (roundingExp v = 1074 \/ 2 ^ 52 <= v / 2 ^ roundingExp v)).
  { destruct (Z.eq_dec v 0) as [->|Hnz].
    - rewrite Z.div_0_l by lia. split; [lia|left]. reflexivity.
    - assert (Hpos : 0 < v) by lia.
      destruct (Z.log2_spec v Hpos) as [Hlo Hhi].
      assert (Hl : 0 <= Z.log2 v) by apply Z.log2_nonneg.
      split.
      + apply Z.div_lt_upper_bound; [exact HX|].
        rewrite Z.mul_comm, <- pow2_split by lia.
        eapply Z.lt_le_trans; [exact Hhi|].
        apply Z.pow_le_mono_r; unfold roundingExp; lia.
      + destruct (Z.eq_dec (roundingExp v) 1074) as [H|H]; [now left|right].
        assert (Hsh : roundingExp v = Z.log2 v - 52) by (unfold roundingExp in *; lia).
        apply Z.div_le_lower_bound; [exact HX|].
        rewrite Z.mul_comm, <- pow2_split by lia.
        replace (52 + roundingExp v) with (Z.log2 v) by lia. exact Hlo. }
  split; [lia|split; [apply Hq|]].
  unfold rnd, roundsUp.
  destruct (Z.ltb_spec (2 ^ roundingExp v) (2 * (v mod 2 ^ roundingExp v))) as [Hlt|Hge]; cbn [orb].
  - right. repeat split; lia.
  - destruct (Z.eqb_spec (2 ^ roundingExp v) (2 * (v mod 2 ^ roundingExp v))) as [Heq|Hne]; cbn [andb].
    + destruct (Z.odd (v / 2 ^ roundingExp v)) eqn:Ho; [right|left]; repeat split; auto; lia.
    + left. rewrite Z.add_0_r. repeat split; lia.
Qed.

Lemma rnd_nonneg (v : Z) : 0 <= v -> 0 <= rnd v.
Proof.
  intros Hv. destruct (rnd_cases v Hv) as (q & rem & _ & _ & Hq & _ & Hc).
  assert (0 < 2 ^ roundingExp v) by (apply pow2_pos; pose proof (roundingExp_ge v); lia).
  destruct Hc as [(-> & _)|(-> & _)]; nia.
Qed.

Lemma rnd_repr (v : Z) : 0 <= v -> representable (rnd v).
Proof.
  intros Hv. destruct (rnd_cases v Hv) as (q & rem & _ & _ & Hq & _ & Hc).
  pose proof (roundingExp_ge v).
  destruct Hc as [(-> & _)|(-> & _)]; [exists q|exists (q + 1)]; exists (roundingExp v);
    repeat split; lia.
Qed.

(** Rounding does not cross a double. *)
Lemma rnd_le_repr (v hi : Z) : 0 <= v -> representable hi -> v <= hi -> rnd v <= hi.
Proof.
  intros Hv (mB & jB & HmB & HjB & ->) Hle.
  destruct (rnd_cases v Hv) as (q & rem & Heq & Hrem & Hq & Hnorm & Hc).
  pose proof (roundingExp_ge v) as Hk.
  assert (HX : 0 < 2 ^ roundingExp v) by (apply pow2_pos; lia).
  destruct (Z.le_gt_cases (roundingExp v) jB) as [Hj|Hj].
  - replace jB with ((jB - roundingExp v) + roundingExp v) in * by lia.
    rewrite pow2_split in * by lia.
    assert (HY : 0 < 2 ^ (jB - roundingExp v)) by (apply pow2_pos; lia).
    set (N := mB * 2 ^ (jB - roundingExp v)) in *.
    rewrite Z.mul_assoc in *. fold N in Hle |- *.
    destruct Hc as [(-> & _)|(-> & Hup & _)]; apply Z.mul_le_mono_nonneg_r; try lia; nia.
  - destruct Hnorm as [H|Hn]; [lia|].
    assert (Hhi : mB * 2 ^ jB <= 2 ^ 52 * 2 ^ roundingExp v).
    { replace (roundingExp v) with (1 + (roundingExp v - 1)) by lia. rewrite pow2_split by lia.
      assert (2 ^ jB <= 2 ^ (roundingExp v - 1)) by (apply Z.pow_le_mono_r; lia).
      assert (0 < 2 ^ jB) by (apply pow2_pos; lia).
      change (2 ^ 1) with 2. change (2 ^ 53) with (2 ^ 52 * 2) in HmB. nia. }
    assert (q = 2 ^ 52 /\ rem = 0) as [-> ->] by nia.
    destruct Hc as [(-> & _)|(_ & Hup & _)]; lia.
Qed.

Lemma rnd_ge_repr (v lo : Z) : 0 <= v -> representable lo -> lo <= v -> lo <= rnd v.
Proof.
  intros Hv (mA & jA & HmA & HjA & ->) Hle.
  destruct (rnd_cases v Hv) as (q & rem & Heq & Hrem & Hq & Hnorm & Hc).
  pose proof (roundingExp_ge v) as Hk.
  assert (HX : 0 < 2 ^ roundingExp v) by (apply pow2_pos; lia).
  assert (Hfloor : q * 2 ^ roundingExp v <= rnd v) by (destruct Hc as [(-> & _)|(-> & _)]; lia).
  eapply Z.le_trans; [|exact Hfloor].
  destruct (Z.le_gt_cases (roundingExp v) jA) as [Hj|Hj].
  - replace jA with ((jA - roundingExp v) + roundingExp v) in * by lia.
    rewrite pow2_split in * by lia.
    assert (HY : 0 < 2 ^ (jA - roundingExp v)) by (apply pow2_pos; lia).
    set (N := mA * 2 ^ (jA - roundingExp v)) in *.
    rewrite Z.mul_assoc in *. fold N in Hle |- *.
    apply Z.mul_le_mono_nonneg_r; [lia|]. nia.
  - destruct Hnorm as [H|Hn]; [lia|].
    assert (Hlo : mA * 2 ^ jA <= 2 ^ 52 * 2 ^ roundingExp v).
    { replace (roundingExp v) with (1 + (roundingExp v - 1)) by lia. rewrite pow2_split by lia.
      assert (2 ^ jA <= 2 ^ (roundingExp v - 1)) by (apply Z.pow_le_mono_r; lia).
      assert (0 < 2 ^ jA) by (apply pow2_pos; lia).
      change (2 ^ 1) with 2. change (2 ^ 53) with (2 ^ 52 * 2) in HmA. nia. }
    nia.
Qed.

Lemma rnd_exact (v : Z) : representable v -> rnd v = v.
Proof.
  intros Hr.
  assert (Hv : 0 <= v).
  { destruct Hr as (mB & jB & HmB & HjB & ->).
    assert (0 < 2 ^ jB) by (apply pow2_pos; lia). nia. }
  apply Z.le_antisymm; [apply rnd_le_repr|apply rnd_ge_repr]; auto; lia.
Qed.

(** Rounding is monotone. *)
Lemma rnd_mono (v1 v2 : Z) : 0 <= v1 -> v1 <= v2 -> rnd v1 <= rnd v2.
Proof.
  intros Hv1 Hle.
  assert (Hv2 : 0 <= v2) by lia.
  assert (Hsh : roundingExp v1 <= roundingExp v2).
  { unfold roundingExp. pose proof (Z.log2_le_mono v1 v2 Hle). lia. }
  destruct (Z.eq_dec (roundingExp v1) (roundingExp v2)) as [Hk|Hk].
  - destruct (rnd_cases v1 Hv1) as (q1 & r1 & Heq1 & Hr1 & _ & _ & Hc1).
    destruct (rnd_cases v2 Hv2) as (q2 & r2 & Heq2 & Hr2 & _ & _ & Hc2).
    rewrite Hk in *. 
    assert (HX : 0 < 2 ^ roundingExp v2) by (apply pow2_pos; pose proof (roundingExp_ge v2); lia).
    assert (Hq : q1 <= q2) by nia.
    destruct (Z.eq_dec q1 q2) as [->|Hne].
    + assert (r1 <= r2) by nia.
      destruct Hc1 as [(-> & H1 & E1)|(-> & H1 & E1)];
        destruct Hc2 as [(-> & H2 & E2)|(-> & H2 & E2)]; try lia.
      assert (Heq : 2 * r1 = 2 ^ roundingExp v2 /\ 2 * r2 = 2 ^ roundingExp v2) by lia.
      destruct Heq as [Ha Hb]. specialize (E1 Ha). specialize (E2 Hb). congruence.
    + assert (q1 + 1 <= q2) by lia.
      assert (rnd v1 <= (q1 + 1) * 2 ^ roundingExp v2)
        by (destruct Hc1 as [(-> & _)|(-> & _)]; nia).
      assert (q2 * 2 ^ roundingExp v2 <= rnd v2)
        by (destruct Hc2 as [(-> & _)|(-> & _)]; nia).
      nia.
  - assert (Hsh2 : roundingExp v2 = Z.log2 v2 - 52) by (unfold roundingExp in *; lia).
    assert (Hpos2 : 0 < v2).
    { destruct (Z.eq_dec v2 0) as [->|]; [|lia]. cbn in Hsh2. unfold roundingExp in *.
      cbn in *. lia. }
    destruct (Z.log2_spec v2 Hpos2) as [Hlo2 _].
    assert (Hmid : v1 <= 2 ^ 52 * 2 ^ roundingExp v2 /\ 2 ^ 52 * 2 ^ roundingExp v2 <= v2).
    { rewrite <- pow2_split by (pose proof (roundingExp_ge v2); lia).
      replace (52 + roundingExp v2) with (Z.log2 v2) by lia. split; [|exact Hlo2].
      destruct (Z.eq_dec v1 0) as [->|Hnz]; [apply Z.pow_nonneg; lia|].
      destruct (Z.log2_spec v1 ltac:(lia)) as [_ Hhi1].
      apply Z.lt_le_incl. eapply Z.lt_le_trans; [exact Hhi1|].
      apply Z.pow_le_mono_r; [lia|]. unfold roundingExp in *. lia. }
    assert (Hrep : representable (2 ^ 52 * 2 ^ roundingExp v2)).
    { exists (2 ^ 52), (roundingExp v2). pose proof (roundingExp_ge v2). repeat split; lia. }
    eapply Z.le_trans; [apply (rnd_le_repr v1 _ Hv1 Hrep)|apply (rnd_ge_repr v2 _ Hv2 Hrep)];
      lia.
Qed.

Lemma log2_pos_digits (m : positive) : Z.log2 (Z.pos m) = Z.pos (digits2_pos m) - 1.
Proof.
  apply Z.log2_unique; [lia|].
  replace (Z.succ (Z.pos (digits2_pos m) - 1)) with (Z.pos (digits2_pos m)) by lia.
  split; [apply digits2_pos_low|apply digits2_pos_bound].
Qed.

Lemma roundingExp_dyadic (m : positive) (e : Z) :
  unitExp <= e ->
  roundingExp (dyadic (Z.pos m) e) = Z.max (Z.pos (digits2_pos m) + e - 53) (-1074) - unitExp.
Proof.
  intros He. unfold roundingExp, dyadic.
  rewrite Z.log2_mul_pow2 by (unfold unitExp in *; lia).
  rewrite log2_pos_digits. unfold unitExp. lia.
Qed.

(** What [binary_round_aux] computes is [rnd]. *)
Lemma rne_rnd (m : positive) (e m' : Z) :
  unitExp <= e ->
  rne (Z.pos m) (Z.max e (Z.max (Z.pos (digits2_pos m) + e - 53) (-1074)) - e) m' ->
  rnd (dyadic (Z.pos m) e)
  = dyadic m' (Z.max e (Z.max (Z.pos (digits2_pos m) + e - 53) (-1074)))
  /\ (971 < Z.max (Z.pos (digits2_pos m) + e - 53) (-1074) -> e <= 971 -> 2 ^ 52 <= m').
Proof.
  intros He (q & rem & Hq & Heq & Hrem & Hc).
  set (f := Z.max (Z.pos (digits2_pos m) + e - 53) (-1074)) in *.
  assert (HP : 0 < 2 ^ (e - unitExp)) by (apply pow2_pos; lia).
  pose proof (roundingExp_dyadic m e He) as Hsh. fold f in Hsh.
  assert (Hv : 0 <= dyadic (Z.pos m) e) by (unfold dyadic; nia).
  destruct (Z.le_gt_cases e f) as [Hfe|Hfe].
  - replace (Z.max e f) with f in * by lia.
    assert (HK : 0 < 2 ^ (f - e)) by (apply pow2_pos; lia).
    assert (HX : 2 ^ roundingExp (dyadic (Z.pos m) e) = 2 ^ (f - e) * 2 ^ (e - unitExp)).
    { rewrite Hsh, <- pow2_split by lia. f_equal. lia. }
    destruct (rnd_cases _ Hv) as (q0 & rem0 & Heq0 & Hrem0 & Hq0 & Hnorm & Hc0).
    rewrite HX in *. unfold dyadic in Heq0. unfold dyadic at 2.
    replace (f - unitExp) with ((f - e) + (e - unitExp)) by lia. rewrite pow2_split by lia.
    set (K := 2 ^ (f - e)) in *. set (P := 2 ^ (e - unitExp)) in *.
    assert (Huniq : q0 = q /\ rem0 = rem * P).
    { assert (Hdiv : Z.pos m * P = q * (K * P) + rem * P) by (rewrite Heq; ring).
      assert (Hb : 0 <= rem * P < K * P) by nia.
      assert (q0 = q) by nia. subst q0. split; [reflexivity|lia]. }
    destruct Huniq as [-> ->].
    split.
    + pose proof (Z.negb_odd q) as Hodd. fold (dyadic (Z.pos m) e).
      destruct Hc0 as [(-> & H0 & unitExp')|(-> & H0 & unitExp')];
        destruct Hc as [(-> & H1 & E1)|(-> & H1 & E1)]; try ring.
      * assert (Ht : 2 * rem = K) by nia.
        specialize (E1 Ht). rewrite unitExp' in Hodd by nia. cbn in Hodd. congruence.
      * assert (Ht : 2 * rem = K) by nia.
        specialize (E1 Ht). rewrite unitExp' in Hodd by nia. cbn in Hodd. congruence.
    + intros Hbig _. destruct Hnorm as [H|H]; [unfold unitExp in *; lia|].
      destruct Hc as [(-> & _)|(-> & _)]; lia.
  - replace (Z.max e f) with e in * by lia.
    replace (e - e) with 0 in * by lia. change (2 ^ 0) with 1 in *.
    assert (rem = 0) by lia. subst rem.
    assert (m' = Z.pos m) by (destruct Hc as [(-> & _)|(_ & H & _)]; lia). subst m'.
    split; [|lia].
    apply rnd_exact. exists (Z.pos m), (e - unitExp). unfold dyadic.
    split; [|split; [unfold unitExp, f in *; lia|reflexivity]].
    pose proof (digits2_pos_bound m) as Hb.
    assert (2 ^ Z.pos (digits2_pos m) <= 2 ^ 53)
      by (apply Z.pow_le_mono_r; unfold f in *; lia).
    lia.
Qed.

Lemma round_aux_rnd (m : positive) (e : Z) :
  unitExp <= e <= 971 ->
  match binary_round_aux prec emax false (Z.pos m) e loc_Exact with
  | S754_zero s => s = false /\ rnd (dyadic (Z.pos m) e) = 0
  | S754_finite s m2 e2 => s = false /\ dyadic (Z.pos m2) e2 = rnd (dyadic (Z.pos m) e)
  | S754_infinity s => s = false /\ 2 ^ (1024 - unitExp) <= rnd (dyadic (Z.pos m) e)
  | S754_nan => False
  end.
Proof.
  intros He. destruct (round_aux_shape m e) as (m' & Hr & Hm' & Hres).
  destruct (rne_rnd m e m' (proj1 He) Hr) as [Hrnd Hnorm].
  set (f := Z.max (Z.pos (digits2_pos m) + e - 53) (-1074)) in *.
  destruct (binary_round_aux prec emax false (Z.pos m) e loc_Exact) as [s|s| |s m2 e2].
  - destruct Hres as [-> ->]. split; [reflexivity|]. rewrite Hrnd. reflexivity.
  - destruct Hres as (-> & Hpos & Hbig). split; [reflexivity|]. rewrite Hrnd.
    unfold dyadic. destruct (Z.eqb_spec m' (2 ^ 53)) as [->|Hne].
    + replace (1024 - unitExp) with (53 + (971 - unitExp)) by lia.
      rewrite pow2_split by (unfold unitExp; lia).
      apply Z.mul_le_mono_nonneg_l; [lia|].
      apply Z.pow_le_mono_r; unfold unitExp; lia.
    + assert (Hf : 971 < f) by lia.
      specialize (Hnorm Hf (proj2 He)).
      replace (1024 - unitExp) with (52 + (972 - unitExp)) by lia.
      rewrite pow2_split by (unfold unitExp; lia).
      assert (2 ^ (972 - unitExp) <= 2 ^ (Z.max e f - unitExp))
        by (apply Z.pow_le_mono_r; unfold unitExp; lia).
      assert (0 < 2 ^ (972 - unitExp)) by (apply pow2_pos; unfold unitExp; lia).
      nia.
  - exact Hres.
  - destruct Hres as (-> & _ & [(-> & ->)|(-> & -> & ->)]); (split; [reflexivity|]);
      rewrite Hrnd; [reflexivity|].
    unfold dyadic.
    replace (Z.max e f + 1 - unitExp) with (1 + (Z.max e f - unitExp)) by lia.
    rewrite pow2_split by (unfold unitExp; lia).
    change (2 ^ 53) with (2 ^ 52 * 2 ^ 1). ring.
Qed.

(** *** The value of a non-negative finite double *)

Definition sfval (x : spec_float) : option Z :=
  match x with
  | S754_zero _ => Some 0
  | S754_finite false m e => Some (dyadic (Z.pos m) e)
  | _ => None
  end.

Definition fval (f : float) : option Z := sfval (Prim2SF f).

(** The number 1, in units. *)
Definition unity : Z := 2 ^ 2148.

Lemma valid_finite (s : bool) (m : positive) (e : Z) :
  valid_binary (S754_finite s m e) = true ->
  -1074 <= e <= 971 /\ Z.pos m < 2 ^ 53 /\ (e = -1074 \/ 2 ^ 52 <= Z.pos m).
Proof.
  cbn [valid_binary]. unfold bounded, canonical_mantissa. rewrite fexp64.
  change (emax - prec) with 971.
  intros H. apply andb_true_iff in H as [Hc He].
  apply Z.eqb_eq in Hc. apply Z.leb_le in He.
  pose proof (digits2_pos_bound m) as Hb. pose proof (digits2_pos_low m) as Hl.
  split; [lia|split].
  - eapply Z.lt_le_trans; [exact Hb|]. apply Z.pow_le_mono_r; lia.
  - destruct (Z.eq_dec e (-1074)) as [H|H]; [now left|right].
    replace (Z.pos (digits2_pos m)) with 53 in Hl by lia. exact Hl.
Qed.

Lemma dyadic_pos (m : positive) (e : Z) : unitExp <= e -> 0 < dyadic (Z.pos m) e.
Proof.
  intros He. unfold dyadic.
  assert (0 < 2 ^ (e - unitExp)) by (apply pow2_pos; lia). nia.
Qed.

Lemma sfval_valid (x : spec_float) (v : Z) :
  valid_binary x = true -> sfval x = Some v ->
  representable v /\ 0 <= v < 2 ^ (1024 - unitExp).
Proof.
  intros Hv Hx. destruct x as [s|s| |[|] m e]; try discriminate.
  - injection Hx as <-. split; [exists 0, 1074; lia|].
    split; [lia|]. apply pow2_pos. unfold unitExp. lia.
  - cbn [sfval] in Hx. assert (Hveq : v = dyadic (Z.pos m) e) by congruence.
    subst v. clear Hx. apply valid_finite in Hv as (He & Hm & _).
    split; [exists (Z.pos m), (e - unitExp); unfold dyadic, unitExp; repeat split; lia|].
    split; [apply Z.lt_le_incl, dyadic_pos; unfold unitExp; lia|].
    unfold dyadic.
    replace (1024 - unitExp) with (53 + (971 - unitExp)) by lia.
    rewrite pow2_split by (unfold unitExp; lia).
    assert (2 ^ (e - unitExp) <= 2 ^ (971 - unitExp)) by (apply Z.pow_le_mono_r; unfold unitExp; lia).
    assert (0 < 2 ^ (e - unitExp)) by (apply pow2_pos; unfold unitExp; lia).
    apply Z.lt_le_trans with (2 ^ 53 * 2 ^ (e - unitExp));
      [apply (proj1 (Z.mul_lt_mono_pos_r _ _ _ H0)); exact Hm
      |apply Z.mul_le_mono_nonneg_l; lia].
Qed.

Lemma fval_valid (f : float) (v : Z) :
  fval f = Some v -> representable v /\ 0 <= v < 2 ^ (1024 - unitExp).
Proof. apply sfval_valid, Prim2SF_valid. Qed.

(** Doubles compare as their values do. *)
Lemma SFcompare_sfval (x y : spec_float) (vx vy : Z) :
  valid_binary x = true -> valid_binary y = true ->
  sfval x = Some vx -> sfval y = Some vy ->
  SFcompare x y = Some (vx ?= vy).
Proof.
  intros Hx Hy Ex Ey.
  destruct x as [sx|sx| |[|] mx ex]; try discriminate;
    destruct y as [sy|sy| |[|] my ey]; try discriminate;
    cbn [sfval] in Ex, Ey;
    apply (f_equal (fun o => match o with Some v => v | None => 0 end)) in Ex, Ey;
    cbv beta iota in Ex, Ey; subst vx vy.
  - reflexivity.
  - apply valid_finite in Hy as (He & _).
    pose proof (dyadic_pos my ey ltac:(unfold unitExp; lia)) as Hp.
    cbn [SFcompare]. f_equal. symmetry. apply Z.compare_lt_iff. exact Hp.
  - apply valid_finite in Hx as (He & _).
    pose proof (dyadic_pos mx ex ltac:(unfold unitExp; lia)) as Hp.
    cbn [SFcompare]. f_equal. symmetry. apply Z.compare_gt_iff. exact Hp.
  - apply valid_finite in Hx as (Hex & Hmx & Hnx).
    apply valid_finite in Hy as (Hey & Hmy & Hny).
    cbn [SFcompare]. f_equal. unfold dyadic.
    assert (Hlt : forall m1 e1 m2 e2, -1074 <= e1 -> e1 < e2 ->
              Z.pos m1 < 2 ^ 53 -> 2 ^ 52 <= Z.pos m2 ->
              Z.pos m1 * 2 ^ (e1 - unitExp) < Z.pos m2 * 2 ^ (e2 - unitExp)).
    { intros m1 e1 m2 e2 H1 H12 Hm1 Hm2.
      assert (2 * 2 ^ (e1 - unitExp) <= 2 ^ (e2 - unitExp)).
      { replace 2 with (2 ^ 1) at 1 by reflexivity.
        rewrite <- pow2_split by (unfold unitExp; lia).
        apply Z.pow_le_mono_r; unfold unitExp; lia. }
      assert (0 < 2 ^ (e1 - unitExp)) by (apply pow2_pos; unfold unitExp; lia).
      change (2 ^ 53) with (2 ^ 52 * 2) in Hm1. nia. }
    destruct (Z.compare_spec ex ey) as [->|Hl|Hg].
    + rewrite <- Zmult_compare_compat_r
        by (apply Z.lt_gt, pow2_pos; unfold unitExp; lia).
      reflexivity.
    + symmetry. apply Z.compare_lt_iff. apply Hlt; lia.
    + symmetry. apply Z.compare_gt_iff. apply Hlt; lia.
Qed.

Lemma leb_fval (a b : float) (va vb : Z) :
  fval a = Some va -> fval b = Some vb -> (a <=? b)%float = (va <=? vb).
Proof.
  intros Ha Hb. rewrite leb_spec. unfold SFleb.
  rewrite (SFcompare_sfval _ _ va vb (Prim2SF_valid a) (Prim2SF_valid b) Ha Hb).
  unfold Z.leb. destruct (va ?= vb); reflexivity.
Qed.

Lemma ltb_fval (a b : float) (va vb : Z) :
  fval a = Some va -> fval b = Some vb -> (a <? b)%float = (va <? vb).
Proof.
  intros Ha Hb. rewrite ltb_spec. unfold SFltb.
  rewrite (SFcompare_sfval _ _ va vb (Prim2SF_valid a) (Prim2SF_valid b) Ha Hb).
  unfold Z.ltb. destruct (va ?= vb); reflexivity.
Qed.

(** A number at least a non-negative finite one is such a one, or is
    [+infinity]. *)
Lemma fval_above (a x : float) (va : Z) :
  fval a = Some va -> (a <=? x)%float = true ->
  Prim2SF x = S754_infinity false \/ exists vx, fval x = Some vx /\ va <= vx.
Proof.
  intros Ha Hle.
  destruct (fval x) as [vx|] eqn:Ex.
  - right. exists vx. split; [reflexivity|].
    rewrite (leb_fval a x va vx Ha Ex) in Hle. now apply Z.leb_le.
  - rewrite leb_spec in Hle. unfold SFleb, fval in *.
    destruct (Prim2SF a) as [sa|sa| |[|] ma ea]; try discriminate;
      destruct (Prim2SF x) as [sx|[|]| |[|] mx ex]; try discriminate; now left.
Qed.

Lemma fval_finite_above (a x : float) (va : Z) :
  fval a = Some va -> (a <=? x)%float = true -> (x <? infinity)%float = true ->
  exists vx, fval x = Some vx /\ va <= vx.
Proof.
  intros Ha Hle Hfin. destruct (fval_above a x va Ha Hle) as [Hinf|H]; [|exact H].
  rewrite ltb_spec, Hinf in Hfin. discriminate.
Qed.

Lemma fval_between (a x b : float) (va vb : Z) :
  fval a = Some va -> fval b = Some vb ->
  (a <=? x)%float = true -> (x <? b)%float = true ->
  exists vx, fval x = Some vx /\ va <= vx < vb.
Proof.
  intros Ha Hb Hle Hlt. destruct (fval_above a x va Ha Hle) as [Hinf|(vx & Ex & Hvx)].
  - rewrite ltb_spec, Hinf in Hlt. unfold fval in Hb.
    destruct (Prim2SF b) as [sb|sb| |[|] mb eb]; try discriminate; destruct sb; discriminate.
  - exists vx. split; [exact Ex|]. split; [exact Hvx|].
    rewrite (ltb_fval x b vx vb Ex Hb) in Hlt. now apply Z.ltb_lt.
Qed.

(** *** The operations *)

Lemma unity_pos : 0 < unity.
Proof. apply pow2_pos. lia. Qed.

Lemma rnd_0 : rnd 0 = 0.
Proof. apply rnd_exact. exists 0, 1074. lia. Qed.

Lemma pos_iter_xO (m d : positive) : Z.pos (Pos.iter xO m d) = Z.pos m * 2 ^ Z.pos d.
Proof.
  induction d as [|d IH] using Pos.peano_ind.
  - cbn [Pos.iter]. change (2 ^ 1) with 2. lia.
  - rewrite Pos.iter_succ, Pos2Z.inj_xO, IH, Pos2Z.inj_succ, Z.pow_succ_r by lia. ring.
Qed.

Lemma shl_align_dyadic (m : positive) (e e' : Z) :
  unitExp <= e -> unitExp <= e' ->
  snd (shl_align m e e') = Z.min e e'
  /\ dyadic (Z.pos (fst (shl_align m e e'))) (snd (shl_align m e e')) = dyadic (Z.pos m) e.
Proof.
  intros He He'. unfold shl_align.
  destruct (e' - e) as [|d|d] eqn:E; cbn [fst snd]; [split; [lia|reflexivity]..|].
  split; [lia|]. rewrite pos_iter_xO. unfold dyadic.
  replace (e - unitExp) with (Z.pos d + (e' - unitExp)) by lia.
  rewrite pow2_split by lia. ring.
Qed.

(** The outcome of an operation whose exact result is [v]. *)
Definition rounds (v : Z) (x : spec_float) : Prop :=
  match x with
  | S754_zero s => rnd v = 0
  | S754_finite s m2 e2 => s = false /\ dyadic (Z.pos m2) e2 = rnd v
  | S754_infinity s => s = false /\ 2 ^ (1024 - unitExp) <= rnd v
  | S754_nan => False
  end.

Lemma rounds_sfval (v : Z) (x : spec_float) :
  rounds v x -> rnd v < 2 ^ (1024 - unitExp) -> sfval x = Some (rnd v).
Proof.
  destruct x as [s|s| |s m e]; cbn [rounds sfval].
  - now intros ->.
  - intros [_ H]. lia.
  - contradiction.
  - intros [-> ->]. reflexivity.
Qed.

Lemma round_aux_rounds (m : positive) (e : Z) :
  unitExp <= e <= 971 ->
  rounds (dyadic (Z.pos m) e) (binary_round_aux prec emax false (Z.pos m) e loc_Exact).
Proof.
  intros He. pose proof (round_aux_rnd m e He) as H.
  destruct (binary_round_aux prec emax false (Z.pos m) e loc_Exact);
    cbn [rounds]; tauto.
Qed.

Lemma binary_round_rounds (m : positive) (e : Z) :
  -1074 <= e <= 971 ->
  rounds (dyadic (Z.pos m) e) (binary_round prec emax false m e).
Proof.
  intros He. unfold binary_round. rewrite fexp64.
  set (f := Z.max (Z.pos (digits2_pos m) + e - 53) (-1074)).
  destruct (shl_align_dyadic m e f) as [Hsnd Hval]; [unfold unitExp; lia..|].
  destruct (shl_align m e f) as [mz ez]. cbn [fst snd] in *.
  rewrite <- Hval. apply round_aux_rounds. unfold unitExp. lia.
Qed.

Lemma fval_mul (a b : float) (va vb : Z) :
  fval a = Some va -> fval b = Some vb -> va <= unity ->
  fval (a * b)%float = Some (rnd (va * vb / unity)).
Proof.
  intros Ha Hb Hle.
  destruct (fval_valid b vb Hb) as (Hrb & Hvb0 & Hvb).
  unfold fval in *. rewrite mul_spec.
  pose proof (Prim2SF_valid a) as Va. pose proof (Prim2SF_valid b) as Vb.
  destruct (Prim2SF a) as [sa|sa| |[|] ma ea]; try discriminate;
    destruct (Prim2SF b) as [sb|sb| |[|] mb eb]; try discriminate;
    cbn [sfval] in Ha, Hb;
    apply (f_equal (fun o => match o with Some v => v | None => 0 end)) in Ha, Hb;
    cbv beta iota in Ha, Hb; subst va vb; cbn [SF64mul SFmul sfval].
  - now rewrite Z.mul_0_l, Z.div_0_l, rnd_0 by (pose proof unity_pos; lia).
  - now rewrite Z.mul_0_l, Z.div_0_l, rnd_0 by (pose proof unity_pos; lia).
  - now rewrite Z.mul_0_r, Z.div_0_l, rnd_0 by (pose proof unity_pos; lia).
  - apply valid_finite in Va as (Hea & Hma & _).
    apply valid_finite in Vb as (Heb & Hmb & _).
    assert (Hprod : dyadic (Z.pos ma) ea * dyadic (Z.pos mb) eb
                    = dyadic (Z.pos (ma * mb)) (ea + eb) * unity).
    { unfold dyadic, unity. rewrite Pos2Z.inj_mul.
      transitivity (Z.pos ma * Z.pos mb * (2 ^ (ea - unitExp) * 2 ^ (eb - unitExp))); [ring|].
      rewrite <- (Z.mul_assoc _ (2 ^ (ea + eb - unitExp)) (2 ^ 2148)).
      rewrite <- (pow2_split (ea - unitExp) (eb - unitExp)) by (unfold unitExp; lia).
      rewrite <- (pow2_split (ea + eb - unitExp) 2148) by (unfold unitExp; lia).
      f_equal. f_equal. unfold unitExp. lia. }
    rewrite Hprod, Z.div_mul by (pose proof unity_pos; lia).
    assert (Hea0 : ea <= 0).
    { destruct (Z.le_gt_cases ea 0) as [H|H]; [exact H|exfalso].
      unfold dyadic, unity in Hle.
      assert (2 ^ 2148 < 2 ^ (ea - unitExp)) by (apply Z.pow_lt_mono_r; unfold unitExp; lia).
      nia. }
    apply rounds_sfval.
    + apply round_aux_rounds. unfold unitExp. lia.
    + eapply Z.le_lt_trans; [|exact Hvb].
      apply rnd_le_repr; [apply Z.lt_le_incl, dyadic_pos; unfold unitExp; lia|exact Hrb|].
      pose proof unity_pos. pose proof (dyadic_pos mb eb ltac:(unfold unitExp; lia)). nia.
Qed.

Lemma fval_add (a b : float) (va vb : Z) :
  fval a = Some va -> fval b = Some vb -> rnd (va + vb) < 2 ^ (1024 - unitExp) ->
  fval (a + b)%float = Some (rnd (va + vb)).
Proof.
  intros Ha Hb Hfin.
  destruct (fval_valid a va Ha) as (Hra & _). destruct (fval_valid b vb Hb) as (Hrb & _).
  unfold fval in *. rewrite add_spec.
  pose proof (Prim2SF_valid a) as Va. pose proof (Prim2SF_valid b) as Vb.
  destruct (Prim2SF a) as [sa|sa| |[|] ma ea]; try discriminate;
    destruct (Prim2SF b) as [sb|sb| |[|] mb eb]; try discriminate;
    cbn [sfval] in Ha, Hb;
    apply (f_equal (fun o => match o with Some v => v | None => 0 end)) in Ha, Hb;
    cbv beta iota in Ha, Hb; subst va vb; cbn [SF64add SFadd].
  - rewrite Z.add_0_l, rnd_0. now destruct sa, sb.
  - rewrite Z.add_0_l, rnd_exact by exact Hrb. reflexivity.
  - rewrite Z.add_0_r, rnd_exact by exact Hra. reflexivity.
  - apply valid_finite in Va as (Hea & _). apply valid_finite in Vb as (Heb & _).
    destruct (shl_align_dyadic ma ea (Z.min ea eb)) as [Hsa Hva]; [unfold unitExp; lia..|].
    destruct (shl_align_dyadic mb eb (Z.min ea eb)) as [Hsb Hvb]; [unfold unitExp; lia..|].
    rewrite <- Hva, <- Hvb, Hsa, Hsb in *.
    replace (Z.min ea (Z.min ea eb)) with (Z.min ea eb) in * by lia.
    replace (Z.min eb (Z.min ea eb)) with (Z.min ea eb) in * by lia.
    cbn [cond_Zopp Z.add binary_normalize].
    assert (Hsum : dyadic (Z.pos (fst (shl_align ma ea (Z.min ea eb)))) (Z.min ea eb)
                   + dyadic (Z.pos (fst (shl_align mb eb (Z.min ea eb)))) (Z.min ea eb)
                   = dyadic (Z.pos (fst (shl_align ma ea (Z.min ea eb))
                                    + fst (shl_align mb eb (Z.min ea eb)))) (Z.min ea eb)).
    { unfold dyadic. rewrite Pos2Z.inj_add. ring. }
    rewrite Hsum in *. apply rounds_sfval; [|exact Hfin].
    apply binary_round_rounds. lia.
Qed.

Lemma fval_sub (a b : float) (va vb : Z) :
  fval a = Some va -> fval b = Some vb -> vb <= va ->
  fval (a - b)%float = Some (rnd (va - vb)).
Proof.
  intros Ha Hb Hle.
  destruct (fval_valid a va Ha) as (Hra & Hva0 & Hvafin).
  destruct (fval_valid b vb Hb) as (Hrb & Hvb0 & _).
  assert (Hfin : rnd (va - vb) < 2 ^ (1024 - unitExp)).
  { eapply Z.le_lt_trans; [|exact Hvafin]. apply rnd_le_repr; [lia|exact Hra|lia]. }
  unfold fval in *. rewrite sub_spec.
  pose proof (Prim2SF_valid a) as Va. pose proof (Prim2SF_valid b) as Vb.
  destruct (Prim2SF a) as [sa|sa| |[|] ma ea]; try discriminate;
    destruct (Prim2SF b) as [sb|sb| |[|] mb eb]; try discriminate;
    cbn [sfval] in Ha, Hb;
    apply (f_equal (fun o => match o with Some v => v | None => 0 end)) in Ha, Hb;
    cbv beta iota in Ha, Hb; subst va vb; cbn [SF64sub SFsub].
  - rewrite Z.sub_0_r, rnd_0. now destruct sa, sb.
  - apply valid_finite in Vb as (Heb & _).
    pose proof (dyadic_pos mb eb ltac:(unfold unitExp; lia)). lia.
  - rewrite Z.sub_0_r, rnd_exact by exact Hra. reflexivity.
  - apply valid_finite in Va as (Hea & _). apply valid_finite in Vb as (Heb & _).
    destruct (shl_align_dyadic ma ea (Z.min ea eb)) as [Hsa Hva]; [unfold unitExp; lia..|].
    destruct (shl_align_dyadic mb eb (Z.min ea eb)) as [Hsb Hvb]; [unfold unitExp; lia..|].
    rewrite <- Hva, <- Hvb, Hsa, Hsb in *.
    replace (Z.min ea (Z.min ea eb)) with (Z.min ea eb) in * by lia.
    replace (Z.min eb (Z.min ea eb)) with (Z.min ea eb) in * by lia.
    cbn [cond_Zopp].
    set (Ma := fst (shl_align ma ea (Z.min ea eb))) in *.
    set (Mb := fst (shl_align mb eb (Z.min ea eb))) in *.
    assert (Hdiff : dyadic (Z.pos Ma) (Z.min ea eb) - dyadic (Z.pos Mb) (Z.min ea eb)
                    = dyadic (Z.pos Ma - Z.pos Mb) (Z.min ea eb)).
    { unfold dyadic. ring. }
    rewrite Hdiff in *.
    assert (HP : 0 < 2 ^ (Z.min ea eb - unitExp)) by (apply pow2_pos; unfold unitExp; lia).
    destruct (Z.pos Ma - Z.pos Mb) as [|p|p] eqn:E; cbn [binary_normalize].
    + unfold dyadic. rewrite Z.mul_0_l, rnd_0. reflexivity.
    + apply rounds_sfval; [|exact Hfin]. apply binary_round_rounds. lia.
    + unfold dyadic in Hle. nia.
Qed.

(** *** Draws below 1 *)

(** The gap below 1: [2 ^ -53], in units. *)
Definition gap : Z := 2 ^ 2095.

Lemma unity_gap : unity = 2 ^ 53 * gap.
Proof. unfold unity, gap. rewrite <- pow2_split by lia. reflexivity. Qed.

Lemma gap_pos : 0 < gap.
Proof. apply pow2_pos. lia. Qed.

(** The largest double below 1 is [1 - 2 ^ -53]. *)
Lemma repr_below_one (x : Z) : representable x -> x < unity -> x <= unity - gap.
Proof.
  intros (mB & jB & HmB & HjB & ->) Hlt. pose proof gap_pos as HG.
  rewrite unity_gap in *.
  destruct (Z.le_gt_cases 2095 jB) as [Hj|Hj].
  - replace jB with ((jB - 2095) + 2095) in * by lia.
    rewrite pow2_split in * by lia. fold gap in *.
    assert (0 < 2 ^ (jB - 2095)) by (apply pow2_pos; lia).
    set (N := mB * 2 ^ (jB - 2095)) in *.
    rewrite Z.mul_assoc in *. fold N in Hlt |- *.
    assert (N < 2 ^ 53) by nia. nia.
  - assert (2 * 2 ^ jB <= gap).
    { unfold gap. replace 2 with (2 ^ 1) at 1 by reflexivity.
      rewrite <- pow2_split by lia. apply Z.pow_le_mono_r; lia. }
    assert (0 < 2 ^ jB) by (apply pow2_pos; lia).
    change (2 ^ 53) with (2 ^ 52 * 2) in *. nia.
Qed.

(** A number below the middle of the doubles [q 2^k] and [(q+1) 2^k] does
    not round above the first. *)
Lemma rnd_below_half (v q k : Z) :
  1074 <= k -> 2 ^ 52 <= q < 2 ^ 53 -> 0 <= v ->
  2 * v < (2 * q + 1) * 2 ^ k -> rnd v <= q * 2 ^ k.
Proof.
  intros Hk Hq Hv Hhalf.
  assert (HX : 0 < 2 ^ k) by (apply pow2_pos; lia).
  assert (Hrep : representable (q * 2 ^ k)) by (exists q, k; repeat split; lia).
  destruct (Z.le_gt_cases v (q * 2 ^ k)) as [Hle|Hgt];
    [now apply rnd_le_repr|].
  assert (Hlog : Z.log2 v = 52 + k).
  { apply Z.log2_unique; [lia|]. rewrite Z.pow_succ_r, !pow2_split by lia.
    change (2 ^ 53) with (2 * 2 ^ 52) in Hq. nia. }
  assert (Hsh : roundingExp v = k) by (unfold roundingExp; lia).
  destruct (rnd_cases v Hv) as (q0 & rem0 & Heq0 & Hrem0 & _ & _ & Hc).
  rewrite Hsh in *.
  assert (q0 = q) by nia. subst q0.
  destruct Hc as [(-> & _)|(_ & Hup & _)]; [lia|nia].
Qed.

(** The product of a draw below 1 by a rounded difference stays below the
    exact difference. *)
Lemma rnd_scaled_difference (vw c vr : Z) :
  representable vw -> 0 <= c -> c <= vw -> (exists n, c = n * 2 ^ 1074) ->
  representable vr -> vr < unity ->
  rnd (vr * rnd (vw - c) / unity) <= vw - c.
Proof.
  intros Hw Hc0 Hc (n & Hn) Hr Hr1.
  pose proof unity_pos as HU. pose proof gap_pos as HG.
  assert (Hr0 : 0 <= vr).
  { destruct Hr as (mB & jB & HmB & HjB & ->).
    assert (0 < 2 ^ jB) by (apply pow2_pos; lia). nia. }
  pose proof (repr_below_one vr Hr Hr1) as HrG.
  set (t := vw - c) in *. assert (Ht : 0 <= t) by (unfold t; lia).
  pose proof (rnd_nonneg t Ht) as Hd0. pose proof (rnd_repr t Ht) as Hdr.
  assert (Hv' : 0 <= vr * rnd t / unity) by (apply Z.div_pos; nia).
  assert (Hle : vr * rnd t / unity <= rnd t).
  { apply Z.div_le_upper_bound; [exact HU|]. nia. }
  destruct (rnd_cases t Ht) as (q & rem & Heq & Hrem & Hq & Hnorm & Hcase).
  pose proof (roundingExp_ge t) as Hk.
  assert (HX : 0 < 2 ^ roundingExp t) by (apply pow2_pos; lia).
  destruct Hcase as [(Hdown & _)|(Hup & Hhalf & _)].
  - eapply Z.le_trans; [apply (rnd_le_repr _ (rnd t) Hv' Hdr Hle)|].
    rewrite Hdown. lia.
  - destruct Hnorm as [Hsub|Hnrm].
    + exfalso. rewrite Hsub in *.
      destruct Hw as (mB & jB & HmB & HjB & Hvw).
      assert (Hmul : exists N, t = N * 2 ^ 1074).
      { exists (mB * 2 ^ (jB - 1074) - n). unfold t. rewrite Hvw, Hn.
        replace jB with ((jB - 1074) + 1074) at 1 by lia.
        rewrite pow2_split by lia. ring. }
      destruct Hmul as (N & HN). nia.
    + eapply Z.le_trans; [apply (rnd_below_half _ q (roundingExp t)); try lia|lia].
      pose proof (Z.mul_div_le (vr * rnd t) unity HU) as Hfloor.
      rewrite Hup in *. rewrite unity_gap in *.
      set (X := 2 ^ roundingExp t) in *. set (v' := vr * ((q + 1) * X) / (2 ^ 53 * gap)) in *.
      assert (H1 : 2 ^ 53 * gap * v' <= (2 ^ 53 * gap - gap) * ((q + 1) * X)) by nia.
      assert (H2 : 2 ^ 53 * v' <= (2 ^ 53 - 1) * ((q + 1) * X)) by nia.
      assert (H3 : 2 * (2 ^ 53 - 1) * (q + 1) < 2 ^ 53 * (2 * q + 1)) by lia.
      assert (H4 : 2 * (2 ^ 53 - 1) * (q + 1) * X < 2 ^ 53 * (2 * q + 1) * X)
        by (apply (proj1 (Z.mul_lt_mono_pos_r _ _ _ HX)); exact H3).
      nia.
Qed.

(** Nine times a draw below 1 rounds below 9. *)
Lemma rnd_nine (vr : Z) :
  representable vr -> vr < unity -> rnd (vr * (9 * unity) / unity) < 9 * unity.
Proof.
  intros Hr Hr1. pose proof unity_pos as HU. pose proof gap_pos as HG.
  assert (Hr0 : 0 <= vr).
  { destruct Hr as (mB & jB & HmB & HjB & ->).
    assert (0 < 2 ^ jB) by (apply pow2_pos; lia). nia. }
  pose proof (repr_below_one vr Hr Hr1) as HrG.
  replace (vr * (9 * unity)) with (9 * vr * unity) by ring.
  rewrite Z.div_mul by lia.
  assert (H16 : 2 ^ 2099 = 16 * gap).
  { unfold gap. change 16 with (2 ^ 4). rewrite <- pow2_split by lia. reflexivity. }
  assert (Hb : rnd (9 * vr) <= (9 * 2 ^ 49 - 1) * 2 ^ 2099).
  { apply rnd_below_half; try lia. rewrite H16, unity_gap in *. lia. }
  rewrite H16, unity_gap in *. lia.
Qed.

(** *** The sampler's arithmetic *)

Lemma fval_0 : fval 0%float = Some 0.
Proof. reflexivity. Qed.

Lemma fval_1 : fval 1%float = Some unity.
Proof. vm_compute. reflexivity. Qed.

Lemma fval_9 : fval 9%float = Some (9 * unity).
Proof. vm_compute. reflexivity. Qed.

Lemma fval_35 : fval 35%float = Some (35 * unity).
Proof. vm_compute. reflexivity. Qed.

Lemma fval_70 : fval 70%float = Some (70 * unity).
Proof. vm_compute. reflexivity. Qed.

(** A draw of [Math.random]: a double in [0, 1). *)
Definition unitDraw (r : float) : Prop :=
  (0 <=? r)%float = true /\ (r <? 1)%float = true.

(** The inset of the play bounds, [appleRadius + buffer], and a board extent
    that leaves room between the two insets. *)
Definition margin : float := (appleRadius + buffer)%float.

Definition roomy (w : float) : Prop :=
  (2 * margin <=? w)%float = true /\ (w <? infinity)%float = true.

Lemma unitDraw_fval (r : float) :
  unitDraw r -> exists vr, fval r = Some vr /\ representable vr /\ 0 <= vr < unity.
Proof.
  intros [H0 H1].
  destruct (fval_between 0 r 1 0 unity fval_0 fval_1 H0 H1) as (vr & Er & Hvr).
  exists vr. split; [exact Er|split; [|exact Hvr]]. apply (fval_valid r vr Er).
Qed.

Lemma unitDraw_validDraw (r : float) : unitDraw r -> validDraw r.
Proof.
  intros Hr. destruct (unitDraw_fval r Hr) as (vr & Er & Hrep & Hvr).
  pose proof (fval_mul r 9 vr (9 * unity) Er fval_9 ltac:(lia)) as Ep.
  pose proof (rnd_nine vr Hrep (proj2 Hvr)) as H9.
  assert (H0 : 0 <= rnd (vr * (9 * unity) / unity)).
  { apply rnd_nonneg, Z.div_pos; [|exact unity_pos]. pose proof unity_pos. nia. }
  split.
  - rewrite (leb_fval _ _ _ _ fval_0 Ep). now apply Z.leb_le.
  - rewrite (ltb_fval _ _ _ _ Ep fval_9). now apply Z.ltb_lt.
Qed.

(** On a board extent of at least twice the inset, a draw of [0, 1) is
    placed between the two insets. *)
Lemma place_inset (r w : float) :
  unitDraw r -> roomy w ->
  (margin <=? place r w)%float = true /\ (place r w <=? w - margin)%float = true.
Proof.
  intros Hr [Hw Hfin]. unfold place, margin in *.
  change (2 * (appleRadius + buffer))%float with 70%float in *.
  change (appleRadius + buffer)%float with 35%float.
  destruct (unitDraw_fval r Hr) as (vr & Er & Hrr & Hvr).
  destruct (fval_finite_above 70 w (70 * unity) fval_70 Hw Hfin) as (vw & Ew & Hvw).
  destruct (fval_valid w vw Ew) as (Hrw & _ & Hwfin).
  pose proof unity_pos as HU.
  pose proof (fval_sub w 70 vw (70 * unity) Ew fval_70 Hvw) as Ed.
  pose proof (fval_mul r (w - 70) vr _ Er Ed ltac:(lia)) as Ep.
  pose proof (fval_sub w 35 vw (35 * unity) Ew fval_35 ltac:(lia)) as Eu.
  set (vp := rnd (vr * rnd (vw - 70 * unity) / unity)) in *.
  assert (Hp : vp <= vw - 70 * unity).
  { apply rnd_scaled_difference; try lia; try assumption.
    exists (70 * 2 ^ 1074). unfold unity. change 2148 with (1074 + 1074).
    rewrite pow2_split by lia. ring. }
  assert (Hp0 : 0 <= vp).
  { apply rnd_nonneg, Z.div_pos; [|exact HU].
    pose proof (rnd_nonneg (vw - 70 * unity) ltac:(lia)). nia. }
  assert (Hmono : rnd (vp + 35 * unity) <= rnd (vw - 35 * unity))
    by (apply rnd_mono; lia).
  assert (Htop : rnd (vw - 35 * unity) <= vw)
    by (apply rnd_le_repr; [lia|exact Hrw|lia]).
  pose proof (fval_add _ 35 vp (35 * unity) Ep fval_35 ltac:(lia)) as Ex.
  split.
  - rewrite (leb_fval _ _ _ _ fval_35 Ex). apply Z.leb_le.
    apply rnd_ge_repr; [lia|apply (fval_valid 35 _ fval_35)|lia].
  - rewrite (leb_fval _ _ _ _ Ex Eu). now apply Z.leb_le.
Qed.

Local Close Scope Z_scope.

(** ** The sampler on a board that has room *)

(** A centre inside the inset play bounds of a [w] x [h] board: both
    coordinates at least [appleRadius + buffer] from the edges. *)
Definition inset (w h : float) (a : Apple.t) : Prop :=
  (margin <=? Apple.x a) = true /\ (Apple.x a <=? w - margin) = true
  /\ (margin <=? Apple.y a) = true /\ (Apple.y a <=? h - margin) = true.

(** What the sampler promises of a token it accepts. *)
Definition accepted (w h : float) (a : Apple.t) : Prop :=
  sampled w h a /\ inset w h a /\ digit a.

Lemma sampled_accepted (w h : float) (a : Apple.t) :
  (forall n, unitDraw (Math_random n)) -> roomy w -> roomy h ->
  sampled w h a -> accepted w h a.
Proof.
  intros Hdraw Hw Hh Ha. split; [exact Ha|split].
  - destruct Ha as [n ->]. cbn [inset Apple.x Apple.y Apple.new].
    destruct (place_inset (Math_random n) w (Hdraw n) Hw) as [Hx1 Hx2].
    destruct (place_inset (Math_random (S n)) h (Hdraw (S n)) Hh) as [Hy1 Hy2].
    unfold inset. cbn [Apple.x Apple.y Apple.new]. repeat split; assumption.
  - apply (sampled_digit w h a); [|exact Ha].
    intros n. apply unitDraw_validDraw, Hdraw.
Qed.

(** C6 (on a board that has room).  Let the board be finite and at least
    [2 * (appleRadius + buffer) = 70] wide and high, and let every draw of
    [Math.random] be a double of [0, 1).  Then every token the sampler
    accepts, in the initial fill and in a refill, is built from three
    consecutive draws; its centre lies inside the inset play bounds,
    [35 <= x <= w - 35] and [35 <= y <= h - 35] as doubles; and its value
    [floor (9 rv) + 1] is an integer of [1, 9].  A token is accepted only if
    the distance the code computes from it to every token then on the board
    (initial fill) or to every active token (refill) is not below 60; so the
    initial board is pairwise spaced, a refill keeps a spaced board spaced,
    and so does every event of the session. *)
Theorem sampler_keeps_spacing (g : Game) :
  (forall n, unitDraw (Math_random n)) ->
  roomy (width g) -> roomy (height g) ->
  (Forall (accepted (width g) (height g)) (apples (generateApples g))
   /\ spaced (apples (generateApples g))
   /\ (length (apples (generateApples g)) <= totalApples)%nat)
  /\ (forall count,
        exists new,
          apples (spawnNewApples count g) = filter active (apples g) ++ new
          /\ Forall (accepted (width g) (height g)) new
          /\ (spaced (apples g) -> spaced (apples (spawnNewApples count g))))
  /\ (forall e, spaced (apples g) -> spaced (apples (step e g))).
Proof.
  intros Hdraw Hw Hh. split; [|split].
  - rewrite generateApples_apples.
    destruct (generateLoop_spec maxAttempts (width g) (height g) [] (randomCursor g))
      as (new & Heq & Hnew & Hsp & Hlen).
    rewrite Heq in *. cbn [app] in *. split; [|split].
    + eapply Forall_impl; [|exact Hnew].
      intros a. now apply sampled_accepted.
    + now apply Hsp.
    + apply Hlen. cbn. unfold totalApples. lia.
  - intros count.
    destruct (spawnNewApples_apples count g) as (new & Heq & Hnew & Hsp).
    exists new. split; [exact Heq|split; [|exact Hsp]].
    eapply Forall_impl; [|exact Hnew].
    intros a. now apply sampled_accepted.
  - intros e. apply step_spaced.
Qed.

(** ** What each handler leaves alone *)

Lemma filter_none {A : Type} (f : A -> bool) (l : list A) :
  (forall a, In a l -> f a = false) -> filter f l = [].
Proof.
  induction l as [|a l IH]; intros H; [reflexivity|].
  cbn [filter]. rewrite (H a (or_introl eq_refl)). apply IH.
  intros b Hb. apply H. now right.
Qed.

Lemma generateApples_frame (g : Game) :
  generateApples g
  = set_randomCursor (randomCursor (generateApples g))
      (set_apples (apples (generateApples g)) g).
Proof.
  unfold generateApples.
  destruct (generateLoop maxAttempts (width g) (height g) [] (randomCursor g)).
  reflexivity.
Qed.

(** The gesture in progress: [isDrawing] and [currentPath]. *)
Definition gesture (g : Game) : bool * list Point := (isDrawing g, currentPath g).

Lemma gesture_eq (g g' : Game) :
  gesture g' = gesture g ->
  isDrawing g' = isDrawing g /\ currentPath g' = currentPath g.
Proof. unfold gesture. intros H. injection H as H1 H2. now split. Qed.

Lemma gesture_is (g' : Game) (d : bool) (path : list Point) :
  gesture g' = (d, path) -> isDrawing g' = d /\ currentPath g' = path.
Proof. unfold gesture. intros H. injection H as H1 H2. now split. Qed.

Lemma setInterval_gesture (f : Interval) (g : Game) :
  gesture (snd (setInterval f g)) = gesture g.
Proof. reflexivity. Qed.

Lemma generateApples_gesture (g : Game) : gesture (generateApples g) = gesture g.
Proof.
  unfold generateApples.
  destruct (generateLoop maxAttempts (width g) (height g) [] (randomCursor g)).
  reflexivity.
Qed.

Lemma startCountdown_gesture (g : Game) : gesture (startCountdown g) = gesture g.
Proof.
  rewrite startCountdown_unfold, setInterval_gesture, generateApples_gesture.
  reflexivity.
Qed.

Lemma endGame_gesture (g : Game) : gesture (endGame g) = gesture g.
Proof.
  unfold endGame, clearInterval, gesture. game_simpl.
  destruct (timerInterval g); game_simpl;
    destruct (highScore g <? score g)%Z; reflexivity.
Qed.

Lemma updateTimer_gesture (g : Game) : gesture (updateTimer g) = gesture g.
Proof.
  unfold updateTimer, updateTimerDisplay. game_simpl.
  destruct (timeLeft g - 1 <=? 0)%Z; [|reflexivity].
  now rewrite endGame_gesture.
Qed.

Lemma beginPlay_gesture (g : Game) : gesture (beginPlay g) = gesture g.
Proof.
  unfold beginPlay, loop, update, setInterval, clearInterval, gesture. game_simpl.
  destruct (timerInterval g) as [[|h]|]; reflexivity.
Qed.

Lemma countdownTick_gesture (h : nat) (count : Z) (g : Game) :
  gesture (countdownTick h count g) = gesture g.
Proof.
  unfold countdownTick. destruct (0 <? count - 1)%Z; [reflexivity|].
  now rewrite beginPlay_gesture.
Qed.

Lemma updates_gesture (n : nat) (g : Game) :
  gesture (Nat.iter n update g) = gesture g.
Proof.
  induction n as [|n IH]; [reflexivity|]. now rewrite Nat.iter_succ, <- IH.
Qed.

(** A click, an interval or an animation frame never touches the gesture. *)
Lemma step_gesture (e : Event) (g : Game) :
  match e with InputStart _ | InputMove _ | InputEnd => False | _ => True end ->
  gesture (step e g) = gesture g.
Proof.
  destruct e as [|h| |pos|pos|]; cbn [step]; intros He; try contradiction.
  - apply startCountdown_gesture.
  - destruct (lookupInterval h g) as [[count|]|]; [| |reflexivity].
    + apply countdownTick_gesture.
    + apply updateTimer_gesture.
  - apply updates_gesture.
Qed.

(** ** The recorded path *)

(** While a gesture is in progress the path holds at least the point of the
    gesture start; between gestures it is empty. *)
Definition pathRecorded (g : Game) : Prop :=
  if isDrawing g then currentPath g <> [] else currentPath g = [].

(** Two consecutive recorded points: the second was more than 5 away from
    the first, by the distance the handler computed. *)
Definition farEnough (a b : Point) : Prop :=
  gtb (Math_hypot (x b - x a) (y b - y a)) 5 = true.

Fixpoint decimated (path : list Point) : Prop :=
  match path with
  | a :: (b :: _) as rest => farEnough a b /\ decimated rest
  | _ => True
  end.

Lemma decimated_snoc (path : list Point) (lst pos : Point) (rest : list Point) :
  rev path = lst :: rest -> decimated path -> farEnough lst pos ->
  decimated (path ++ [pos]).
Proof.
  intros Hrev. assert (Hpath : path = rev rest ++ [lst]).
  { rewrite <- (rev_involutive path), Hrev. reflexivity. }
  subst path. clear Hrev. generalize (rev rest) as l. clear rest.
  induction l as [|a l IH]; intros Hdec Hfar.
  - cbn. auto.
  - destruct l as [|b l].
    + cbn in *. destruct Hdec as [Hab _]. auto.
    + change (decimated (a :: (b :: l ++ [lst]) ++ [pos])).
      change (decimated (a :: b :: l ++ [lst])) in Hdec.
      destruct Hdec as [Hab Hdec]. split; [exact Hab|].
      apply (IH Hdec Hfar).
Qed.

Lemma checkRealTimeSelection_gesture (g : Game) :
  gesture (checkRealTimeSelection g) = gesture g.
Proof.
  unfold checkRealTimeSelection, clearSelection.
  destruct (length (currentPath g) <? 3)%nat; reflexivity.
Qed.

(** What a pointer event does to the gesture. *)
Lemma handleInputMove_gesture (pos : Point) (g : Game) :
  gesture (handleInputMove pos g) = gesture g
  \/ exists lst rest,
       rev (currentPath g) = lst :: rest /\ farEnough lst pos
       /\ isDrawing g = true /\ state g = PLAYING
       /\ gesture (handleInputMove pos g) = (true, currentPath g ++ [pos]).
Proof.
  unfold handleInputMove.
  destruct (isDrawing g) eqn:Hd; cbn [negb orb]; [|now left].
  destruct (state g) eqn:Hs; cbn [Phase_eqb negb]; try now left.
  destruct (rev (currentPath g)) as [|lst rest] eqn:Hrev; [now left|].
  destruct (gtb (Math_hypot (x pos - x lst) (y pos - y lst)) 5) eqn:Hfar; [|now left].
  right. exists lst, rest. repeat split; try assumption.
  rewrite checkRealTimeSelection_gesture.
  unfold gesture. game_simpl. now rewrite Hd.
Qed.

Lemma handleInputStart_gesture (pos : Point) (g : Game) :
  gesture (handleInputStart pos g) = gesture g
  \/ gesture (handleInputStart pos g) = (true, [pos]).
Proof.
  unfold handleInputStart.
  destruct (negb (Phase_eqb (state g) PLAYING)); [now left|now right].
Qed.

(** What scoring, bursts and refill never touch: the phase, the clock, the
    timers, the best score, the board extent, the other DOM texts. *)
Definition sessionView (g : Game) :=
  (state g, timeLeft g, timerInterval g, highScore g, width g, height g,
   timerEl g, finalScoreEl g, bestScoreEl g, newRecordBadge g, localStorage g,
   intervals g, nextInterval g, renderLoops g).

Definition backdrop (g : Game) := (gesture g, sessionView g).

Lemma spawnBursts_backdrop (sel : list Apple.t) (g : Game) :
  backdrop (spawnBursts sel g) = backdrop g.
Proof.
  destruct (spawnBursts_appends sel g) as (qs & Happ & _).
  rewrite Happ. reflexivity.
Qed.

Lemma updateScore_backdrop (points : Z) (g : Game) :
  backdrop (updateScore points g) = backdrop g.
Proof. unfold updateScore. destruct (points =? 0)%Z; reflexivity. Qed.

Lemma checkRefill_backdrop (g : Game) : backdrop (checkRefill g) = backdrop g.
Proof.
  unfold checkRefill, spawnNewApples.
  destruct (0 <? targetApples - currentApples g)%Z; reflexivity.
Qed.

Lemma checkSelection_backdrop (g : Game) : backdrop (checkSelection g) = backdrop g.
Proof.
  unfold checkSelection.
  destruct (length (currentPath g) <? 3)%nat; [reflexivity|].
  change (backdrop (clearSelection ?s)) with (backdrop s).
  destruct (sumValues (selectedApples g) =? 10)%Z; [|reflexivity].
  now rewrite checkRefill_backdrop, updateScore_backdrop, spawnBursts_backdrop.
Qed.

Lemma checkRealTimeSelection_backdrop (g : Game) :
  backdrop (checkRealTimeSelection g) = backdrop g.
Proof.
  unfold checkRealTimeSelection, clearSelection.
  destruct (length (currentPath g) <? 3)%nat; reflexivity.
Qed.

Lemma handleInputEnd_view (g : Game) :
  sessionView (handleInputEnd g) = sessionView g.
Proof.
  unfold handleInputEnd. destruct (negb (isDrawing g)); [reflexivity|].
  change (sessionView (set_currentPath [] ?s)) with (sessionView s).
  exact (f_equal snd (checkSelection_backdrop (set_isDrawing false g))).
Qed.

Lemma handleInputMove_view (pos : Point) (g : Game) :
  sessionView (handleInputMove pos g) = sessionView g.
Proof.
  unfold handleInputMove.
  destruct (negb (isDrawing g) || negb (Phase_eqb (state g) PLAYING)); [reflexivity|].
  destruct (rev (currentPath g)) as [|lst rest]; [reflexivity|].
  match goal with |- context [if ?b then _ else _] => destruct b end; [|reflexivity].
  exact (f_equal snd (checkRealTimeSelection_backdrop
                        (set_currentPath (currentPath g ++ [pos]) g))).
Qed.

Lemma handleInputStart_view (pos : Point) (g : Game) :
  sessionView (handleInputStart pos g) = sessionView g.
Proof.
  unfold handleInputStart.
  destruct (negb (Phase_eqb (state g) PLAYING)); reflexivity.
Qed.

Lemma handleInputEnd_gesture (g : Game) :
  gesture (handleInputEnd g) = gesture g
  \/ gesture (handleInputEnd g) = (false, []).
Proof.
  unfold handleInputEnd. destruct (negb (isDrawing g)); [now left|].
  right. unfold gesture. game_simpl. f_equal.
  exact (f_equal fst (f_equal fst (checkSelection_backdrop (set_isDrawing false g)))).
Qed.

(** Every event keeps the path recorded as the handlers expect it; so
    [handleInputMove], which reads the last recorded point whenever a gesture
    is in progress, always finds one. *)
Theorem step_pathRecorded (e : Event) (g : Game) :
  pathRecorded g ->
  pathRecorded (step e g)
  /\ (isDrawing g = true -> exists lst rest, rev (currentPath g) = lst :: rest).
Proof.
  intros Hrec. split.
  - unfold pathRecorded in *.
    destruct e as [|h| |pos|pos|].
    + destruct (gesture_eq _ _ (step_gesture Click g I)) as [-> ->]. exact Hrec.
    + destruct (gesture_eq _ _ (step_gesture (IntervalFires h) g I)) as [-> ->].
      exact Hrec.
    + destruct (gesture_eq _ _ (step_gesture AnimationFrame g I)) as [-> ->].
      exact Hrec.
    + cbn [step]. destruct (handleInputStart_gesture pos g) as [H|H].
      * destruct (gesture_eq _ _ H) as [-> ->]. exact Hrec.
      * destruct (gesture_is _ _ _ H) as [-> ->]. discriminate.
    + cbn [step].
      destruct (handleInputMove_gesture pos g) as [H|(l & r & _ & _ & _ & _ & H)].
      * destruct (gesture_eq _ _ H) as [-> ->]. exact Hrec.
      * destruct (gesture_is _ _ _ H) as [-> ->]. now destruct (currentPath g).
    + cbn [step]. destruct (handleInputEnd_gesture g) as [H|H].
      * destruct (gesture_eq _ _ H) as [-> ->]. exact Hrec.
      * destruct (gesture_is _ _ _ H) as [-> ->]. reflexivity.
  - intros Hd. unfold pathRecorded in Hrec. rewrite Hd in Hrec.
    destruct (rev (currentPath g)) as [|lst rest] eqn:Hrev; [|eauto].
    exfalso. apply Hrec. rewrite <- (rev_involutive (currentPath g)), Hrev.
    reflexivity.
Qed.

(** The path is decimated: every event keeps any two consecutive recorded
    points more than 5 apart (as [Math.hypot] measured them). *)
Theorem step_decimated (e : Event) (g : Game) :
  decimated (currentPath g) -> decimated (currentPath (step e g)).
Proof.
  intros Hdec. destruct e as [|h| |pos|pos|].
  - destruct (gesture_eq _ _ (step_gesture Click g I)) as [_ ->]. exact Hdec.
  - destruct (gesture_eq _ _ (step_gesture (IntervalFires h) g I)) as [_ ->].
    exact Hdec.
  - destruct (gesture_eq _ _ (step_gesture AnimationFrame g I)) as [_ ->].
    exact Hdec.
  - cbn [step]. destruct (handleInputStart_gesture pos g) as [H|H].
    + destruct (gesture_eq _ _ H) as [_ ->]. exact Hdec.
    + destruct (gesture_is _ _ _ H) as [_ ->]. exact I.
  - cbn [step].
    destruct (handleInputMove_gesture pos g) as [H|(l & r & Hrev & Hfar & _ & _ & H)].
    + destruct (gesture_eq _ _ H) as [_ ->]. exact Hdec.
    + destruct (gesture_is _ _ _ H) as [_ ->].
      exact (decimated_snoc _ _ _ _ Hrev Hdec Hfar).
  - cbn [step]. destruct (handleInputEnd_gesture g) as [H|H].
    + destruct (gesture_eq _ _ H) as [_ ->]. exact Hdec.
    + destruct (gesture_is _ _ _ H) as [_ ->]. exact I.
Qed.

Definition isPointer (e : Event) : bool :=
  match e with InputStart _ | InputMove _ | InputEnd => true | _ => false end.

(** A gesture begun outside [PLAYING], with no gesture in progress, is
    ignored from start to release. *)
Theorem gesture_ignored_outside_play (es : list Event) (g : Game) :
  state g <> PLAYING -> isDrawing g = false ->
  forallb isPointer es = true ->
  run es g = g.
Proof.
  intros Hst Hd Hes. induction es as [|e es IH]; [reflexivity|].
  cbn [forallb] in Hes. apply andb_true_iff in Hes as [He Hes].
  cbn [run fold_left]. fold (run es (step e g)).
  replace (step e g) with g; [now apply IH|].
  destruct e as [|h| |pos|pos|]; try discriminate He; cbn [step]; symmetry.
  - now apply handleInputStart_idle.
  - now apply handleInputMove_idle.
  - now apply handleInputEnd_idle.
Qed.

(** ** Timers *)

Lemma view_timers (g g' : Game) :
  sessionView g' = sessionView g ->
  intervals g' = intervals g /\ nextInterval g' = nextInterval g
  /\ timerInterval g' = timerInterval g.
Proof. unfold sessionView. intros H. injection H as ?. repeat split; assumption. Qed.

Lemma view_clock (g g' : Game) :
  sessionView g' = sessionView g ->
  state g' = state g /\ timeLeft g' = timeLeft g.
Proof. unfold sessionView. intros H. injection H as ?. repeat split; assumption. Qed.

Lemma view_best (g g' : Game) :
  sessionView g' = sessionView g ->
  highScore g' = highScore g /\ localStorage g' = localStorage g.
Proof. unfold sessionView. intros H. injection H as ?. repeat split; assumption. Qed.

Lemma generateApples_view (g : Game) :
  sessionView (generateApples g) = sessionView g.
Proof.
  unfold generateApples.
  destruct (generateLoop maxAttempts (width g) (height g) [] (randomCursor g)).
  reflexivity.
Qed.

Lemma updates_view (n : nat) (g : Game) :
  sessionView (Nat.iter n update g) = sessionView g.
Proof.
  induction n as [|n IH]; [reflexivity|]. now rewrite Nat.iter_succ, <- IH.
Qed.

(** A pointer event or an animation frame leaves the session view alone. *)
Lemma step_view (e : Event) (g : Game) :
  match e with Click | IntervalFires _ => False | _ => True end ->
  sessionView (step e g) = sessionView g.
Proof.
  destruct e as [|h| |pos|pos|]; cbn [step]; intros He; try contradiction.
  - apply updates_view.
  - apply handleInputStart_view.
  - apply handleInputMove_view.
  - apply handleInputEnd_view.
Qed.

Definition isClock (e : nat * Interval) : bool :=
  match snd e with ClockInterval => true | CountdownInterval _ => false end.

(** The number of clock intervals the host will keep firing. *)
Definition liveClocks (g : Game) : nat := length (filter isClock (intervals g)).

(** Handles are unique and below the next handle, and the only live clock is
    the one [timerInterval] remembers. *)
Definition timersSound (g : Game) : Prop :=
  clockTracked g
  /\ NoDup (map fst (intervals g))
  /\ Forall (fun e => (fst e < nextInterval g)%nat) (intervals g).

Lemma one_clock (l : list (nat * Interval)) (h : nat) :
  NoDup (map fst l) ->
  (forall e, In e l -> isClock e = true -> fst e = h) ->
  (length (filter isClock l) <= 1)%nat.
Proof.
  induction l as [|e l IH]; intros Hnd Hh; [cbn; lia|].
  cbn [map] in Hnd. inversion Hnd as [|? ? Hnotin Hnd']; subst.
  cbn [filter]. destruct (isClock e) eqn:He.
  - assert (Hnone : filter isClock l = []).
    { apply filter_none. intros e' He'. destruct (isClock e') eqn:Hc; [|reflexivity].
      exfalso. apply Hnotin.
      rewrite (Hh e (or_introl eq_refl) He), <- (Hh e' (or_intror He') Hc).
      now apply in_map. }
    rewrite Hnone. cbn. lia.
  - apply IH; [exact Hnd'|]. intros e' He'. apply Hh. now right.
Qed.

Lemma timersSound_one (g : Game) : timersSound g -> (liveClocks g <= 1)%nat.
Proof.
  intros ((Htrack & _ & _) & Hnd & _). unfold liveClocks.
  destruct (timerInterval g) as [h|] eqn:Ht.
  - apply (one_clock _ h Hnd). intros [h' f] Hin Hc. cbn [fst].
    unfold isClock in Hc. cbn [snd] in Hc. destruct f; [discriminate|].
    specialize (Htrack h' Hin). congruence.
  - rewrite filter_none; [cbn; lia|]. intros [h' f] Hin.
    destruct f; [reflexivity|]. specialize (Htrack h' Hin). discriminate.
Qed.

(** Cancelling intervals keeps the handles of the table distinct. *)
Lemma handles_filter (keep : nat * Interval -> bool) (ivs : list (nat * Interval)) :
  NoDup (map fst ivs) -> NoDup (map fst (filter keep ivs)).
Proof.
  intros Hnd. induction ivs as [|[h f] ivs IH]; cbn [filter]; [constructor|].
  cbn [map fst] in Hnd. apply NoDup_cons_iff in Hnd as [Hfresh Hrest].
  destruct (keep (h, f)); [|exact (IH Hrest)].
  cbn [map fst]. apply NoDup_cons; [|exact (IH Hrest)].
  intros Hin. apply Hfresh.
  apply in_map_iff in Hin as (e & <- & He). apply filter_In in He as [He _].
  now apply in_map.
Qed.

(** [timersSound], spelled on the three fields it reads. *)
Definition soundTimers (ivs : list (nat * Interval)) (next : nat) (ti : option nat)
  : Prop :=
  ((forall h, In (h, ClockInterval) ivs -> ti = Some h)
   /\ (forall h, ti = Some h -> (0 < h)%nat) /\ (0 < next)%nat)
  /\ NoDup (map fst ivs)
  /\ Forall (fun e => (fst e < next)%nat) ivs.

Lemma timersSound_fields (g : Game) :
  timersSound g <-> soundTimers (intervals g) (nextInterval g) (timerInterval g).
Proof. reflexivity. Qed.

Lemma soundTimers_set (ivs : list (nat * Interval)) (next : nat) (ti : option nat)
      (count : Z) :
  soundTimers ivs next ti ->
  soundTimers (ivs ++ [(next, CountdownInterval count)]) (S next) ti.
Proof.
  intros ((Htrack & Hpos & Hnext) & Hnd & Hlt). repeat split.
  - intros h Hin. apply in_app_or in Hin as [Hin|[Hin|[]]]; [auto|discriminate].
  - exact Hpos.
  - lia.
  - rewrite map_app. cbn [map fst].
    apply NoDup_Add with (a := next) (l := map fst ivs).
    + clear. induction (map fst ivs) as [|a l IH]; [constructor|].
      cbn. now constructor.
    + split; [exact Hnd|]. intros Hin. apply in_map_iff in Hin as (e & He & Hin).
      rewrite Forall_forall in Hlt. specialize (Hlt e Hin). lia.
  - apply Forall_app. split.
    + eapply Forall_impl; [|exact Hlt]. intros e He. cbn in *. lia.
    + repeat constructor.
Qed.

Lemma soundTimers_clear (ivs : list (nat * Interval)) (next : nat) (ti : option nat)
      (h : nat) :
  soundTimers ivs next ti ->
  soundTimers (filter (fun e => negb (Nat.eqb (fst e) h)) ivs) next ti.
Proof.
  intros ((Htrack & Hpos & Hnext) & Hnd & Hlt). repeat split.
  - intros h' Hin. apply filter_In in Hin as [Hin _]. auto.
  - exact Hpos.
  - exact Hnext.
  - now apply handles_filter.
  - rewrite Forall_forall in *. intros e He. apply filter_In in He as [He _]. auto.
Qed.

Lemma soundTimers_count (ivs : list (nat * Interval)) (next : nat) (ti : option nat)
      (h : nat) (count : Z) :
  soundTimers ivs next ti ->
  soundTimers
    (map (fun e => if Nat.eqb (fst e) h then (h, CountdownInterval count) else e) ivs)
    next ti.
Proof.
  intros ((Htrack & Hpos & Hnext) & Hnd & Hlt).
  assert (Hfst : map fst (map (fun e => if Nat.eqb (fst e) h
                                        then (h, CountdownInterval count) else e) ivs)
                 = map fst ivs).
  { rewrite map_map. apply map_ext. intros e.
    destruct (Nat.eqb_spec (fst e) h) as [->|]; reflexivity. }
  repeat split.
  - intros h' Hin. apply in_map_iff in Hin as (e & He & Hin).
    destruct (Nat.eqb (fst e) h); [discriminate|]. subst e. auto.
  - exact Hpos.
  - exact Hnext.
  - now rewrite Hfst.
  - rewrite Forall_forall in *. intros e' He'.
    apply in_map_iff in He' as (e & He & Hin). specialize (Hlt e Hin).
    destruct (Nat.eqb_spec (fst e) h) as [Heq|]; subst e'; cbn [fst]; lia.
Qed.

(** Starting the clock: the remembered clock is cleared first, then a fresh
    one is registered and remembered. *)
Lemma soundTimers_clock (ivs : list (nat * Interval)) (next : nat) (ti : option nat) :
  soundTimers ivs next ti ->
  soundTimers
    (match ti with
     | Some (S k) => filter (fun e => negb (Nat.eqb (fst e) (S k))) ivs
     | _ => ivs
     end ++ [(next, ClockInterval)])
    (S next) (Some next).
Proof.
  intros ((Htrack & Hpos & Hnext) & Hnd & Hlt).
  set (ivs' := match ti with
               | Some (S k) => filter (fun e => negb (Nat.eqb (fst e) (S k))) ivs
               | _ => ivs
               end).
  assert (Hsub : forall e, In e ivs' -> In e ivs).
  { intros e. subst ivs'. destruct ti as [[|k]|]; auto.
    intros He. now apply filter_In in He. }
  assert (Hnoclock : forall h, ~ In (h, ClockInterval) ivs').
  { intros h Hin. pose proof (Htrack h (Hsub _ Hin)) as Hti. subst ivs'.
    rewrite Hti in Hin. destruct h as [|k]; [specialize (Hpos 0%nat Hti); lia|].
    apply filter_In in Hin as [_ Hin]. cbn [fst] in Hin.
    now rewrite Nat.eqb_refl in Hin. }
  assert (Hnd' : NoDup (map fst ivs')).
  { subst ivs'. destruct ti as [[|k]|]; auto. now apply handles_filter. }
  repeat split.
  - intros h Hin. apply in_app_or in Hin as [Hin|[Hin|[]]].
    + now apply Hnoclock in Hin.
    + now injection Hin as ->.
  - intros h Hh. injection Hh as <-. exact Hnext.
  - lia.
  - rewrite map_app. cbn [map fst].
    apply NoDup_Add with (a := next) (l := map fst ivs').
    + clear. induction (map fst ivs') as [|a l IH]; [constructor|].
      cbn. now constructor.
    + split; [exact Hnd'|]. intros Hin. apply in_map_iff in Hin as (e & He & Hin).
      rewrite Forall_forall in Hlt. specialize (Hlt e (Hsub e Hin)). lia.
  - apply Forall_app. split.
    + rewrite Forall_forall in *. intros e He. specialize (Hlt e (Hsub e He)). lia.
    + repeat constructor.
Qed.

Definition timers (g : Game) := (intervals g, nextInterval g, timerInterval g).

Lemma timers_is (g : Game) (ivs : list (nat * Interval)) (next : nat)
      (ti : option nat) :
  timers g = (ivs, next, ti) ->
  intervals g = ivs /\ nextInterval g = next /\ timerInterval g = ti.
Proof. unfold timers. intros H. injection H as H1 H2 H3. repeat split; assumption. Qed.

Lemma timersSound_timers (g : Game) (ivs : list (nat * Interval)) (next : nat)
      (ti : option nat) :
  timers g = (ivs, next, ti) -> soundTimers ivs next ti -> timersSound g.
Proof.
  unfold timers. intros H. injection H as <- <- <-. intros Hs.
  now apply timersSound_fields.
Qed.

Lemma view_timers_eq (g g' : Game) :
  sessionView g' = sessionView g -> timers g' = timers g.
Proof.
  intros H. destruct (view_timers g g' H) as (H1 & H2 & H3).
  unfold timers. now rewrite H1, H2, H3.
Qed.

Lemma setInterval_timers (f : Interval) (g : Game) :
  timers (snd (setInterval f g))
  = (intervals g ++ [(nextInterval g, f)], S (nextInterval g), timerInterval g).
Proof. reflexivity. Qed.

Lemma startCountdown_timers (g : Game) :
  timers (startCountdown g)
  = (intervals g ++ [(nextInterval g, CountdownInterval 3)], S (nextInterval g),
     timerInterval g).
Proof.
  rewrite startCountdown_unfold, setInterval_timers.
  destruct (view_timers _ _ (generateApples_view
    (set_apples []
       (updateTimerDisplay
          (updateScore 0 (set_timeLeft 60 (set_score 0 (set_state COUNTDOWN g))))))))
    as (-> & -> & ->).
  reflexivity.
Qed.

Lemma beginPlay_timers (g : Game) :
  timers (beginPlay g)
  = (match timerInterval g with
     | Some (S k) => filter (fun e => negb (Nat.eqb (fst e) (S k))) (intervals g)
     | _ => intervals g
     end ++ [(nextInterval g, ClockInterval)],
     S (nextInterval g), Some (nextInterval g)).
Proof.
  unfold beginPlay, loop, update, setInterval, clearInterval, timers. game_simpl.
  destruct (timerInterval g) as [[|k]|]; reflexivity.
Qed.

Lemma endGame_timers (g : Game) :
  timers (endGame g)
  = (match timerInterval g with
     | Some h => filter (fun e => negb (Nat.eqb (fst e) h)) (intervals g)
     | None => intervals g
     end, nextInterval g, timerInterval g).
Proof.
  unfold endGame, clearInterval, timers. game_simpl.
  destruct (timerInterval g) as [h|] eqn:Ht; game_simpl;
    destruct (highScore g <? score g)%Z; game_simpl; rewrite ?Ht; reflexivity.
Qed.

Lemma updateTimer_timers (g : Game) :
  timers (updateTimer g)
  = if (timeLeft g - 1 <=? 0)%Z
    then (match timerInterval g with
          | Some h => filter (fun e => negb (Nat.eqb (fst e) h)) (intervals g)
          | None => intervals g
          end, nextInterval g, timerInterval g)
    else timers g.
Proof.
  unfold updateTimer, updateTimerDisplay. game_simpl.
  destruct (timeLeft g - 1 <=? 0)%Z; [|reflexivity].
  now rewrite endGame_timers.
Qed.

Lemma countdownTick_timers (h : nat) (count : Z) (g : Game) :
  timers (countdownTick h count g)
  = if (0 <? count - 1)%Z
    then (map (fun e => if Nat.eqb (fst e) h
                        then (h, CountdownInterval (count - 1)) else e)
              (intervals g), nextInterval g, timerInterval g)
    else timers (beginPlay (clearInterval (Some h) g)).
Proof. unfold countdownTick. destruct (0 <? count - 1)%Z; reflexivity. Qed.

Lemma step_sound (e : Event) (g : Game) : timersSound g -> timersSound (step e g).
Proof.
  intros Hs.
  pose proof (proj1 (timersSound_fields g) Hs) as Hf.
  destruct e as [|h| |pos|pos|]; cbn [step].
  - eapply timersSound_timers; [apply startCountdown_timers|].
    now apply soundTimers_set.
  - destruct (lookupInterval h g) as [[count|]|]; [| |exact Hs].
    + unfold countdownTick. destruct (0 <? count - 1)%Z.
      * eapply timersSound_timers; [reflexivity|]. now apply soundTimers_count.
      * eapply timersSound_timers; [apply beginPlay_timers|].
        apply soundTimers_clock.
        change (soundTimers (filter (fun e => negb (Nat.eqb (fst e) h)) (intervals g))
                  (nextInterval g) (timerInterval g)).
        now apply soundTimers_clear.
    + pose proof (updateTimer_timers g) as Ht.
      destruct (timeLeft g - 1 <=? 0)%Z.
      * eapply timersSound_timers; [exact Ht|].
        destruct (timerInterval g) as [k|]; [now apply soundTimers_clear|exact Hf].
      * eapply timersSound_timers; [exact Ht|exact Hf].
  - eapply timersSound_timers;
      [apply (view_timers_eq g), (step_view AnimationFrame g I)|exact Hf].
  - eapply timersSound_timers;
      [apply (view_timers_eq g), (step_view (InputStart pos) g I)|exact Hf].
  - eapply timersSound_timers;
      [apply (view_timers_eq g), (step_view (InputMove pos) g I)|exact Hf].
  - eapply timersSound_timers;
      [apply (view_timers_eq g), (step_view InputEnd g I)|exact Hf].
Qed.

(** The session never runs two clocks: every event keeps the timer table
    sound, and a sound table holds at most one clock interval. *)
Theorem step_timersSound (e : Event) (g : Game) :
  timersSound g ->
  timersSound (step e g) /\ (liveClocks (step e g) <= 1)%nat.
Proof.
  intros Hs. pose proof (step_sound e g Hs) as H.
  split; [exact H|now apply timersSound_one].
Qed.

(** ** The clock running down *)

Lemma find_cleared (h : nat) (l : list (nat * Interval)) :
  find (fun e => Nat.eqb (fst e) h) (filter (fun e => negb (Nat.eqb (fst e) h)) l)
  = None.
Proof.
  induction l as [|e l IH]; [reflexivity|]. cbn [filter].
  destruct (Nat.eqb (fst e) h) eqn:He; cbn [negb]; [exact IH|].
  cbn [find]. now rewrite He.
Qed.

Lemma lookupInterval_timers (h : nat) (g g' : Game) :
  intervals g' = intervals g -> lookupInterval h g' = lookupInterval h g.
Proof. unfold lookupInterval. now intros ->. Qed.

Lemma updateTimer_running (g : Game) :
  (1 < timeLeft g)%Z ->
  updateTimer g = set_timerEl (timeLeft g - 1) (set_timeLeft (timeLeft g - 1) g).
Proof.
  intros H. unfold updateTimer, updateTimerDisplay. game_simpl.
  replace (timeLeft g - 1 <=? 0)%Z with false by (symmetry; apply Z.leb_gt; lia).
  reflexivity.
Qed.

Lemma updateTimer_expires (h : nat) (g : Game) :
  (timeLeft g <= 1)%Z -> timerInterval g = Some h ->
  state (updateTimer g) = FINISHED
  /\ timeLeft (updateTimer g) = (timeLeft g - 1)%Z
  /\ lookupInterval h (updateTimer g) = None.
Proof.
  intros Ht Hh. unfold updateTimer, updateTimerDisplay. game_simpl.
  replace (timeLeft g - 1 <=? 0)%Z with true by (symmetry; apply Z.leb_le; lia).
  unfold endGame, clearInterval, lookupInterval. game_simpl. rewrite Hh. game_simpl.
  destruct (highScore g <? score g)%Z; game_simpl;
    rewrite find_cleared; repeat split.
Qed.

Lemma run_cons (e : Event) (es : list Event) (g : Game) :
  run (e :: es) g = run es (step e g).
Proof. reflexivity. Qed.

(** With [n + 1] seconds left on a running clock, [n] firings of the clock
    interval only count the seconds down: phase, board and score stay as they
    are.  The next firing brings the clock to 0, ends the game and cancels the
    interval, so that a further firing of the same handle does nothing. *)
Theorem clock_runs_down (h n : nat) (g : Game) :
  lookupInterval h g = Some ClockInterval ->
  timerInterval g = Some h ->
  timeLeft g = Z.of_nat (S n) ->
  (forall k, (k <= n)%nat ->
     state (run (repeat (IntervalFires h) k) g) = state g
     /\ timeLeft (run (repeat (IntervalFires h) k) g) = (Z.of_nat (S n) - Z.of_nat k)%Z
     /\ apples (run (repeat (IntervalFires h) k) g) = apples g
     /\ score (run (repeat (IntervalFires h) k) g) = score g)
  /\ state (run (repeat (IntervalFires h) (S n)) g) = FINISHED
  /\ timeLeft (run (repeat (IntervalFires h) (S n)) g) = 0%Z
  /\ step (IntervalFires h) (run (repeat (IntervalFires h) (S n)) g)
     = run (repeat (IntervalFires h) (S n)) g.
Proof.
  revert g; induction n as [|n IH]; intros g Hlook Hti Htime.
  - split.
    + intros k Hk. assert (k = 0)%nat as -> by lia. cbn. repeat split. lia.
    + cbn [repeat]. rewrite run_cons. cbn [run fold_left step]. rewrite Hlook.
      destruct (updateTimer_expires h g) as (Hst & Htl & Hno); [lia|exact Hti|].
      rewrite Hst, Htl, Hno, Htime. repeat split.
  - assert (Hstep : step (IntervalFires h) g
                    = set_timerEl (timeLeft g - 1) (set_timeLeft (timeLeft g - 1) g)).
    { cbn [step]. rewrite Hlook. apply updateTimer_running. lia. }
    destruct (IH (step (IntervalFires h) g)) as (Hk & Hfin).
    + rewrite Hstep. exact Hlook.
    + rewrite Hstep. exact Hti.
    + rewrite Hstep. game_simpl. lia.
    + split.
      * intros [|k] Hle; [cbn; repeat split; lia|].
        cbn [repeat]. rewrite run_cons.
        destruct (Hk k) as (H1 & H2 & H3 & H4); [lia|].
        rewrite H1, H2, H3, H4, Hstep. game_simpl. repeat split. lia.
      * change (repeat (IntervalFires h) (S (S n)))
          with (IntervalFires h :: repeat (IntervalFires h) (S n)).
        rewrite run_cons. exact Hfin.
Qed.

(** ** Restart and countdown *)

Lemma find_fresh (h : nat) (f : Interval) (l : list (nat * Interval)) :
  Forall (fun e => (fst e < h)%nat) l ->
  find (fun e => Nat.eqb (fst e) h) (l ++ [(h, f)]) = Some (h, f).
Proof.
  induction 1 as [|e l He _ IH]; cbn [app find fst].
  - now rewrite Nat.eqb_refl.
  - destruct (Nat.eqb_spec (fst e) h); [lia|exact IH].
Qed.

Lemma find_recount (h : nat) (f : Interval) (l : list (nat * Interval)) :
  find (fun e => Nat.eqb (fst e) h)
       (map (fun e => if Nat.eqb (fst e) h then (h, f) else e) l)
  = match find (fun e => Nat.eqb (fst e) h) l with
    | Some _ => Some (h, f)
    | None => None
    end.
Proof.
  induction l as [|e l IH]; [reflexivity|]. cbn [map find].
  destruct (Nat.eqb (fst e) h) eqn:He.
  - cbn [fst]. now rewrite Nat.eqb_refl.
  - now rewrite He.
Qed.

Lemma generateApples_keeps (g : Game) :
  score (generateApples g) = score g /\ particles (generateApples g) = particles g
  /\ scoreEl (generateApples g) = scoreEl g.
Proof.
  unfold generateApples.
  destruct (generateLoop maxAttempts (width g) (height g) [] (randomCursor g)).
  repeat split.
Qed.

Lemma setInterval_view (f : Interval) (g : Game) :
  state (snd (setInterval f g)) = state g
  /\ timeLeft (snd (setInterval f g)) = timeLeft g
  /\ score (snd (setInterval f g)) = score g
  /\ particles (snd (setInterval f g)) = particles g
  /\ scoreEl (snd (setInterval f g)) = scoreEl g
  /\ timerEl (snd (setInterval f g)) = timerEl g
  /\ highScore (snd (setInterval f g)) = highScore g
  /\ localStorage (snd (setInterval f g)) = localStorage g
  /\ renderLoops (snd (setInterval f g)) = renderLoops g.
Proof. repeat split. Qed.

Lemma view_rest (g g' : Game) :
  sessionView g' = sessionView g ->
  timerEl g' = timerEl g /\ renderLoops g' = renderLoops g
  /\ width g' = width g /\ height g' = height g.
Proof. unfold sessionView. intros H. injection H as ?. repeat split; assumption. Qed.

(** A click on start, reset or play-again opens a fresh session: score 0,
    60 seconds, phase [COUNTDOWN], both shown; the board is replaced by newly
    sampled tokens (none of the old ones survives); a countdown interval
    counting from 3 is registered under the next handle.  What it leaves as it
    is: the particles, the best score, the render loops, the gesture in
    progress and every interval that was live, a running clock included. *)
Theorem click_restarts (g : Game) :
  score (step Click g) = 0%Z
  /\ timeLeft (step Click g) = 60%Z
  /\ state (step Click g) = COUNTDOWN
  /\ scoreEl (step Click g) = 0%Z /\ timerEl (step Click g) = 60%Z
  /\ Forall (sampled (width g) (height g)) (apples (step Click g))
  /\ intervals (step Click g)
     = intervals g ++ [(nextInterval g, CountdownInterval 3)]
  /\ timerInterval (step Click g) = timerInterval g
  /\ particles (step Click g) = particles g
  /\ highScore (step Click g) = highScore g
  /\ localStorage (step Click g) = localStorage g
  /\ renderLoops (step Click g) = renderLoops g
  /\ isDrawing (step Click g) = isDrawing g
  /\ currentPath (step Click g) = currentPath g.
Proof.
  cbn [step]. unfold startGame.
  destruct (timers_is _ _ _ _ (startCountdown_timers g)) as (Hiv & _ & Hti).
  destruct (gesture_eq _ _ (startCountdown_gesture g)) as [Hd Hp].
  pose proof (startCountdown_apples g) as Hap.
  rewrite Hiv, Hti, Hd, Hp, Hap. clear Hiv Hti Hd Hp Hap.
  rewrite startCountdown_unfold.
  set (g5 := set_apples []
               (updateTimerDisplay
                  (updateScore 0 (set_timeLeft 60 (set_score 0 (set_state COUNTDOWN g)))))).
  destruct (setInterval_view (CountdownInterval 3) (generateApples g5))
    as (-> & -> & -> & -> & -> & -> & -> & -> & ->).
  destruct (generateApples_keeps g5) as (-> & -> & ->).
  pose proof (generateApples_view g5) as Hv.
  destruct (view_clock _ _ Hv) as (-> & ->).
  destruct (view_best _ _ Hv) as (-> & ->).
  destruct (view_rest _ _ Hv) as (-> & -> & _).
  repeat split.
  destruct (generateLoop_spec maxAttempts (width g) (height g) [] (randomCursor g))
    as (new & Heq & Hnew & _).
  rewrite Heq. exact Hnew.
Qed.

Lemma countdownTick_continues (h : nat) (count : Z) (g : Game) :
  (1 < count)%Z ->
  lookupInterval h g = Some (CountdownInterval count) ->
  countdownTick h count g
  = set_intervals
      (map (fun e => if Nat.eqb (fst e) h
                     then (h, CountdownInterval (count - 1)) else e) (intervals g)) g
  /\ lookupInterval h (countdownTick h count g) = Some (CountdownInterval (count - 1)).
Proof.
  intros Hc Hlook. unfold countdownTick.
  replace (0 <? count - 1)%Z with true by (symmetry; apply Z.ltb_lt; lia).
  split; [reflexivity|]. unfold lookupInterval in *. game_simpl.
  rewrite find_recount.
  destruct (find (fun e => Nat.eqb (fst e) h) (intervals g)); [reflexivity|discriminate].
Qed.

Lemma beginPlay_fields (g : Game) :
  state (beginPlay g) = PLAYING
  /\ timeLeft (beginPlay g) = timeLeft g
  /\ score (beginPlay g) = score g
  /\ renderLoops (beginPlay g) = S (renderLoops g).
Proof.
  unfold beginPlay, loop, update, setInterval, clearInterval. game_simpl.
  destruct (timerInterval g) as [[|k]|]; repeat split.
Qed.

Lemma lookup_in (h : nat) (f : Interval) (l : list (nat * Interval)) :
  find (fun e => Nat.eqb (fst e) h) l = Some (h, f) -> In (h, f) l.
Proof. intros H. now apply find_some in H. Qed.

(** The 3-2-1 countdown: the first two firings of a countdown interval that
    counts from 3 change neither phase, clock nor score; the third cancels the
    countdown, enters [PLAYING] with a clock interval registered under the next
    handle and remembered in [timerInterval], and starts one more render loop.
    Exactly one clock is live afterwards, whatever was running before. *)
Theorem countdown_begins_play (h : nat) (g : Game) :
  timersSound g ->
  lookupInterval h g = Some (CountdownInterval 3) ->
  (state (run [IntervalFires h] g) = state g
   /\ state (run [IntervalFires h; IntervalFires h] g) = state g)
  /\ state (run [IntervalFires h; IntervalFires h; IntervalFires h] g) = PLAYING
  /\ timeLeft (run [IntervalFires h; IntervalFires h; IntervalFires h] g) = timeLeft g
  /\ score (run [IntervalFires h; IntervalFires h; IntervalFires h] g) = score g
  /\ lookupInterval h (run [IntervalFires h; IntervalFires h; IntervalFires h] g) = None
  /\ timerInterval (run [IntervalFires h; IntervalFires h; IntervalFires h] g)
     = Some (nextInterval g)
  /\ In (nextInterval g, ClockInterval)
       (intervals (run [IntervalFires h; IntervalFires h; IntervalFires h] g))
  /\ liveClocks (run [IntervalFires h; IntervalFires h; IntervalFires h] g) = 1%nat
  /\ renderLoops (run [IntervalFires h; IntervalFires h; IntervalFires h] g)
     = S (renderLoops g).
Proof.
  intros Hs Hlook.
  assert (Hsound3 : timersSound
                      (run [IntervalFires h; IntervalFires h; IntervalFires h] g)).
  { rewrite !run_cons. cbn [run fold_left]. now repeat apply step_sound. }
  rewrite !run_cons in *. cbn [run fold_left] in *.
  assert (H1 : step (IntervalFires h) g = countdownTick h 3 g)
    by (cbn [step]; now rewrite Hlook).
  destruct (countdownTick_continues h 3 g) as (Hg1 & Hlook1); [lia|exact Hlook|].
  rewrite <- H1 in Hg1, Hlook1.
  set (g1 := step (IntervalFires h) g) in *.
  assert (H2 : step (IntervalFires h) g1 = countdownTick h 2 g1)
    by (cbn [step]; now rewrite Hlook1).
  destruct (countdownTick_continues h 2 g1) as (Hg2 & Hlook2); [lia|exact Hlook1|].
  rewrite <- H2 in Hg2, Hlook2.
  set (g2 := step (IntervalFires h) g1) in *.
  assert (H3 : step (IntervalFires h) g2 = beginPlay (clearInterval (Some h) g2)).
  { cbn [step]. rewrite Hlook2. reflexivity. }
  assert (Hf2 : state g2 = state g /\ timeLeft g2 = timeLeft g /\ score g2 = score g
                /\ renderLoops g2 = renderLoops g /\ nextInterval g2 = nextInterval g
                /\ timerInterval g2 = timerInterval g).
  { rewrite Hg2, Hg1. repeat split. }
  destruct Hf2 as (Hst2 & Htl2 & Hsc2 & Hrl2 & Hni2 & Hti2).
  split; [split; [now rewrite Hg1|exact Hst2]|].
  rewrite H3 in *.
  destruct (beginPlay_fields (clearInterval (Some h) g2)) as (-> & -> & -> & ->).
  destruct (timers_is _ _ _ _ (beginPlay_timers (clearInterval (Some h) g2)))
    as (Hiv & _ & Hti).
  change (nextInterval (clearInterval (Some h) g2)) with (nextInterval g2) in *.
  rewrite Hni2 in *.
  assert (Hin : In (nextInterval g, ClockInterval)
                  (intervals (beginPlay (clearInterval (Some h) g2)))).
  { rewrite Hiv. apply in_or_app. right. now left. }
  split; [reflexivity|]. split; [exact Htl2|]. split; [exact Hsc2|].
  split; [|split; [exact Hti|split; [exact Hin|split; [|now rewrite <- Hrl2]]]].
  - unfold lookupInterval. rewrite Hiv.
    change (timerInterval (clearInterval (Some h) g2)) with (timerInterval g2).
    change (intervals (clearInterval (Some h) g2))
      with (filter (fun e => negb (Nat.eqb (fst e) h)) (intervals g2)).
    assert (Hh : (h < nextInterval g)%nat).
    { destruct Hs as (_ & _ & Hlt). unfold lookupInterval in Hlook.
      destruct (find (fun e => Nat.eqb (fst e) h) (intervals g)) as [[h' f]|] eqn:Hf;
        [|discriminate].
      apply find_some in Hf as [Hin' Heq]. cbn [fst] in Heq.
      apply Nat.eqb_eq in Heq. subst h'.
      rewrite Forall_forall in Hlt. exact (Hlt _ Hin'). }
    assert (Hnone : forall l,
               find (fun e => Nat.eqb (fst e) h)
                 (filter (fun e => negb (Nat.eqb (fst e) h)) l) = None
               -> forall l', (forall e, In e l' -> In e (filter (fun e => negb (Nat.eqb (fst e) h)) l))
               -> find (fun e => Nat.eqb (fst e) h) (l' ++ [(nextInterval g, ClockInterval)]) = None).
    { intros l _ l' Hsub. induction l' as [|e l' IHl]; cbn [app find fst].
      - destruct (Nat.eqb_spec (nextInterval g) h); [lia|reflexivity].
      - assert (He : In e (filter (fun e => negb (Nat.eqb (fst e) h)) l))
          by (apply Hsub; now left).
        apply filter_In in He as [_ He]. destruct (Nat.eqb (fst e) h); [discriminate|].
        apply IHl. intros e' He'. apply Hsub. now right. }
    rewrite (Hnone (intervals g2) (find_cleared h (intervals g2))); [reflexivity|].
    intros e. destruct (timerInterval g2) as [[|k]|]; auto.
    intros He. now apply filter_In in He.
  - apply Nat.le_antisymm; [now apply timersSound_one|].
    unfold liveClocks.
    assert (Hc : In (nextInterval g, ClockInterval)
                   (filter isClock (intervals (beginPlay (clearInterval (Some h) g2)))))
      by (apply filter_In; split; [exact Hin|reflexivity]).
    destruct (filter isClock (intervals (beginPlay (clearInterval (Some h) g2))));
      [contradiction|cbn; lia].
Qed.

Lemma click_restarts_best (g : Game) :
  highScore (step Click g) = highScore g
  /\ localStorage (step Click g) = localStorage g.
Proof.
  cbn [step]. unfold startGame. rewrite startCountdown_unfold.
  set (g5 := set_apples []
               (updateTimerDisplay
                  (updateScore 0 (set_timeLeft 60 (set_score 0 (set_state COUNTDOWN g)))))).
  destruct (setInterval_view (CountdownInterval 3) (generateApples g5))
    as (_ & _ & _ & _ & _ & _ & -> & -> & _).
  destruct (view_best _ _ (generateApples_view g5)) as (-> & ->).
  split; reflexivity.
Qed.

(** ** The best score *)

Lemma endGame_best (g : Game) :
  highScore (endGame g) = Z.max (highScore g) (score g)
  /\ (storedBest g = highScore g -> storedBest (endGame g) = highScore (endGame g)).
Proof.
  destruct (endGame_spec g) as (_ & _ & Hh & Hl & _). unfold storedBest.
  rewrite Hh, Hl. destruct (Z.ltb_spec (highScore g) (score g)); split; try lia; auto.
Qed.

Lemma updateTimer_best (g : Game) :
  (highScore g <= highScore (updateTimer g))%Z
  /\ (storedBest g = highScore g ->
      storedBest (updateTimer g) = highScore (updateTimer g)).
Proof.
  unfold updateTimer, updateTimerDisplay. game_simpl.
  destruct (timeLeft g - 1 <=? 0)%Z; [|split; [reflexivity|auto]].
  match goal with |- context [endGame ?s] => destruct (endGame_best s) as (Hh & Hs) end.
  split; [rewrite Hh; game_simpl; lia|exact Hs].
Qed.

Lemma beginPlay_best (g : Game) :
  highScore (beginPlay g) = highScore g /\ localStorage (beginPlay g) = localStorage g.
Proof.
  unfold beginPlay, loop, update, setInterval, clearInterval. game_simpl.
  destruct (timerInterval g) as [[|k]|]; split; reflexivity.
Qed.

Lemma step_best (e : Event) (g : Game) :
  (highScore g <= highScore (step e g))%Z
  /\ (storedBest g = highScore g -> storedBest (step e g) = highScore (step e g)).
Proof.
  assert (Hsame : forall g', highScore g' = highScore g ->
                             localStorage g' = localStorage g ->
            (highScore g <= highScore g')%Z
            /\ (storedBest g = highScore g -> storedBest g' = highScore g')).
  { intros g' Hh Hl. unfold storedBest. rewrite Hh, Hl. split; [lia|auto]. }
  destruct e as [|h| |pos|pos|].
  - destruct (click_restarts_best g) as [Hh Hl]. now apply Hsame.
  - cbn [step]. destruct (lookupInterval h g) as [[count|]|].
    + unfold countdownTick. destruct (0 <? count - 1)%Z; [now apply Hsame|].
      destruct (beginPlay_best (clearInterval (Some h) g)) as [Hh Hl].
      now apply Hsame.
    + apply updateTimer_best.
    + now apply Hsame.
  - destruct (view_best _ _ (step_view AnimationFrame g I)) as [Hh Hl].
    now apply Hsame.
  - destruct (view_best _ _ (step_view (InputStart pos) g I)) as [Hh Hl].
    now apply Hsame.
  - destruct (view_best _ _ (step_view (InputMove pos) g I)) as [Hh Hl].
    now apply Hsame.
  - destruct (view_best _ _ (step_view InputEnd g I)) as [Hh Hl].
    now apply Hsame.
Qed.

(** Over any sequence of events the best score never decreases, and the
    value kept in [localStorage] stays the best score of the running page:
    what a reload reads back is what the game last showed as best. *)
Theorem best_score_persists (es : list Event) (g : Game) :
  storedBest g = highScore g ->
  (highScore g <= highScore (run es g))%Z
  /\ storedBest (run es g) = highScore (run es g).
Proof.
  revert g; induction es as [|e es IH]; intros g Hst;
    [split; [apply Z.le_refl|exact Hst]|].
  rewrite run_cons. destruct (step_best e g) as [Hle Hkeep].
  destruct (IH (step e g) (Hkeep Hst)) as [Hle' Hst']. split; [lia|exact Hst'].
Qed.

(** ** The board between events *)

Definition notRemoved (a : Apple.t) : Prop := Apple.removed a = false.

(** No removed token is left on the board, and the board holds at most the
    target number of tokens. *)
Definition boardSound (aps : list Apple.t) : Prop :=
  Forall notRemoved aps /\ (length aps <= totalApples)%nat.

Lemma boardSound_map (f : Apple.t -> Apple.t) (aps : list Apple.t) :
  (forall a, Apple.removed (f a) = Apple.removed a) ->
  boardSound aps -> boardSound (map f aps).
Proof.
  intros Hf [Hall Hlen]. split; [|now rewrite length_map].
  apply Forall_forall. intros b Hb. apply in_map_iff in Hb as (a & <- & Ha).
  unfold notRemoved. rewrite Hf. rewrite Forall_forall in Hall. now apply Hall.
Qed.

Lemma update_removed (a : Apple.t) :
  Apple.removed (Apple.update a) = Apple.removed a.
Proof. unfold Apple.update. now destruct (Apple.scale a <? Apple.targetScale a). Qed.

Lemma highlight_removed (path : list Point) (a : Apple.t) :
  Apple.removed (if Apple.removed a then a
                 else Apple.set_selected (isPointInPolygon (centre a) path) a)
  = Apple.removed a.
Proof. now destruct (Apple.removed a) eqn:E. Qed.

Lemma sampled_fresh (w h : float) (a : Apple.t) : sampled w h a -> fresh a.
Proof. intros [n ->]. repeat split. Qed.

Lemma filter_active_all (aps : list Apple.t) :
  Forall notRemoved aps -> filter active aps = aps.
Proof.
  induction 1 as [|a aps Ha _ IH]; [reflexivity|].
  cbn [filter]. unfold active at 1. rewrite Ha. cbn. now rewrite IH.
Qed.

Lemma handleInputMove_apples (pos : Point) (g : Game) :
  apples (handleInputMove pos g) = apples g
  \/ apples (handleInputMove pos g) = map (Apple.set_selected false) (apples g)
  \/ exists path,
       apples (handleInputMove pos g)
       = map (fun apple =>
                if Apple.removed apple then apple
                else Apple.set_selected (isPointInPolygon (centre apple) path) apple)
             (apples g).
Proof.
  unfold handleInputMove.
  destruct (negb (isDrawing g) || negb (Phase_eqb (state g) PLAYING)); [now left|].
  destruct (rev (currentPath g)) as [|lst rest]; [now left|].
  match goal with |- context [if ?b then _ else _] => destruct b end; [|now left].
  unfold checkRealTimeSelection, clearSelection. game_simpl.
  match goal with |- context [if ?b then _ else _] => destruct b end.
  - right. now left.
  - right. right. eexists. reflexivity.
Qed.

(** The state [checkSelection] hands to [checkRefill] on a match. *)
Definition scored (g : Game) : Game :=
  updateScore (Z.of_nat (length (selectedApples g)))
    (spawnBursts (selectedApples g) (markRemoved g)).

Lemma scored_apples (g : Game) : apples (scored g) = map markedOf (apples g).
Proof.
  unfold scored.
  destruct (updateScore_frame (Z.of_nat (length (selectedApples g)))
              (spawnBursts (selectedApples g) (markRemoved g))) as (-> & _).
  destruct (spawnBursts_appends (selectedApples g) (markRemoved g)) as (qs & Happ & _).
  apply appendsParticles_frame in Happ as (-> & _). reflexivity.
Qed.

Lemma scored_extent (g : Game) :
  width (scored g) = width g /\ height (scored g) = height g.
Proof.
  exact (proj2 (proj2 (view_rest _ _
    (eq_trans (f_equal snd (updateScore_backdrop _ _))
              (f_equal snd (spawnBursts_backdrop (selectedApples g) (markRemoved g))))))).
Qed.

Lemma checkSelection_apples (g : Game) :
  apples (checkSelection g) = apples g
  \/ apples (checkSelection g) = map (Apple.set_selected false) (apples g)
  \/ (sumValues (selectedApples g) = 10%Z
      /\ apples (checkSelection g)
         = map (Apple.set_selected false) (apples (checkRefill (scored g)))).
Proof.
  unfold checkSelection.
  destruct (length (currentPath g) <? 3)%nat; [now left|].
  destruct (Z.eqb_spec (sumValues (selectedApples g)) 10) as [Hsum|_].
  - right. right. split; [exact Hsum|reflexivity].
  - right. now left.
Qed.

Lemma filter_full {A : Type} (f : A -> bool) (l : list A) :
  length (filter f l) = length l -> Forall (fun a => f a = true) l.
Proof.
  induction l as [|a l IH]; [constructor|]. cbn [filter].
  pose proof (filter_length_le f l) as Hle.
  destruct (f a) eqn:E; cbn [length]; intros H; [|lia].
  constructor; [exact E|]. apply IH. lia.
Qed.

Lemma checkRefill_boardSound (g : Game) :
  (length (apples g) <= totalApples)%nat -> boardSound (apples (checkRefill g)).
Proof.
  intros Hlen. unfold checkRefill.
  pose proof (filter_length_le active (apples g)) as Hle.
  destruct (Z.ltb_spec 0 (targetApples - currentApples g)) as [Hneed|Hfull].
  - destruct (spawnNewApples_spec (targetApples - currentApples g) g)
      as (Hrem & Hcount & _ & Hadd); [lia|].
    split; [exact Hrem|].
    assert (Hall : currentApples (spawnNewApples (targetApples - currentApples g) g)
                   = Z.of_nat (length (apples (spawnNewApples
                                                 (targetApples - currentApples g) g)))).
    { unfold currentApples at 1. now rewrite (filter_active_all _ Hrem). }
    rewrite Hall in Hcount.
    unfold targetApples, totalApples in *. lia.
  - split; [|exact Hlen].
    assert (Hall : Forall (fun a => active a = true) (apples g)).
    { apply filter_full. unfold currentApples, targetApples, totalApples in *. lia. }
    eapply Forall_impl; [|exact Hall]. intros a Ha. unfold notRemoved, active in *.
    now destruct (Apple.removed a).
Qed.

Lemma step_apples_cases (e : Event) (g : Game) :
  (exists f, (forall a, Apple.removed (f a) = Apple.removed a
                        /\ Apple.value (f a) = Apple.value a)
             /\ apples (step e g) = map f (apples g))
  \/ apples (step e g)
     = fst (generateLoop maxAttempts (width g) (height g) [] (randomCursor g))
  \/ apples (step e g)
     = map (Apple.set_selected false)
         (apples (checkRefill (scored (set_isDrawing false g)))).
Proof.
  assert (Hid : forall aps : list Apple.t,
            exists f, (forall a, Apple.removed (f a) = Apple.removed a
                                 /\ Apple.value (f a) = Apple.value a)
                      /\ aps = map f aps).
  { intros aps. exists (fun a => a). split; [now split|]. now rewrite map_id. }
  destruct e as [|h| |pos|pos|]; cbn [step].
  - right. left. apply startCountdown_apples.
  - left. destruct (lookupInterval h g) as [[count|]|]; [| |apply Hid].
    + unfold countdownTick. destruct (0 <? count - 1)%Z; [apply Hid|].
      rewrite beginPlay_apples. exists Apple.update. split; [|reflexivity].
      intros a. split; [apply update_removed|].
      unfold Apple.update. now destruct (Apple.scale a <? Apple.targetScale a).
    + rewrite updateTimer_apples. apply Hid.
  - left. rewrite updates_apples. induction (renderLoops g) as [|n IHn];
      [apply Hid|].
    destruct IHn as (f & Hf & IH).
    rewrite Nat.iter_succ, IH, map_map. eexists. split; [|reflexivity].
    intros a. cbv beta. destruct (Hf a) as [H1 H2]. rewrite update_removed, H1.
    split; [reflexivity|]. rewrite <- H2. unfold Apple.update.
    now destruct (Apple.scale (f a) <? Apple.targetScale (f a)).
  - left. unfold handleInputStart.
    destruct (negb (Phase_eqb (state g) PLAYING)); apply Hid.
  - left. destruct (handleInputMove_apples pos g) as [->|[->|[path ->]]];
      [apply Hid| |].
    + eexists. split; [|reflexivity]. now split.
    + eexists. split; [|reflexivity].
      intros a. cbv beta. now destruct (Apple.removed a) eqn:E.
  - unfold handleInputEnd. destruct (negb (isDrawing g)); [left; apply Hid|].
    game_simpl.
    destruct (checkSelection_apples (set_isDrawing false g)) as [->|[->|[_ ->]]].
    + left. apply Hid.
    + left. eexists. split; [|reflexivity]. now split.
    + right. right. reflexivity.
Qed.

(** Between events the board never holds a removed token and never more
    than 30 tokens: what a match removes is purged by the refill before the
    handler returns. *)
Theorem step_boardSound (e : Event) (g : Game) :
  boardSound (apples g) -> boardSound (apples (step e g)).
Proof.
  intros Hs. destruct (step_apples_cases e g) as [[f [Hf ->]] | [-> | ->]].
  - apply boardSound_map; [|exact Hs]. intros a. now destruct (Hf a).
  - destruct (generateLoop_spec maxAttempts (width g) (height g) [] (randomCursor g))
      as (new & Heq & Hnew & _ & Hlen).
    split; [|apply Hlen; cbn; unfold totalApples; lia].
    rewrite Heq. cbn [app]. eapply Forall_impl; [|exact Hnew].
    intros a Ha. now destruct (sampled_fresh _ _ a Ha).
  - apply boardSound_map; [reflexivity|].
    apply checkRefill_boardSound. rewrite scored_apples, length_map.
    exact (proj2 Hs).
Qed.

Lemma Forall_digit_map (f : Apple.t -> Apple.t) (aps : list Apple.t) :
  (forall a, Apple.value (f a) = Apple.value a) ->
  Forall digit aps -> Forall digit (map f aps).
Proof.
  intros Hf Hall. apply Forall_forall. intros b Hb.
  apply in_map_iff in Hb as (a & <- & Ha). unfold digit. rewrite Hf.
  rewrite Forall_forall in Hall. now apply Hall.
Qed.

(** When every draw of the host, multiplied by 9 in double precision, lies
    in [0, 9), every event keeps every token value of the board in 1..9. *)
Theorem step_digits (e : Event) (g : Game) :
  (forall n, validDraw (Math_random n)) ->
  Forall digit (apples g) -> Forall digit (apples (step e g)).
Proof.
  intros Hvalid Hd. destruct (step_apples_cases e g) as [[f [Hf ->]] | [-> | ->]].
  - apply Forall_digit_map; [|exact Hd]. intros a. now destruct (Hf a).
  - destruct (generateLoop_spec maxAttempts (width g) (height g) [] (randomCursor g))
      as (new & -> & Hnew & _). cbn [app].
    eapply Forall_impl; [|exact Hnew]. intros a. now apply sampled_digit.
  - apply Forall_digit_map; [reflexivity|].
    assert (Hm : Forall digit (apples (scored (set_isDrawing false g)))).
    { rewrite scored_apples. apply Forall_digit_map; [|exact Hd].
      intros a. unfold markedOf. now destruct (isSelected a). }
    unfold checkRefill.
    destruct (0 <? targetApples - currentApples (scored (set_isDrawing false g)))%Z;
      [|exact Hm].
    destruct (spawnNewApples_apples
                (targetApples - currentApples (scored (set_isDrawing false g)))
                (scored (set_isDrawing false g))) as (new & -> & Hnew & _).
    apply Forall_app. split.
    + apply Forall_forall. intros a Ha. apply filter_In in Ha as [Ha _].
      rewrite Forall_forall in Hm. now apply Hm.
    + eapply Forall_impl; [|exact Hnew]. intros a. now apply sampled_digit.
Qed.

(** ** The attempt budget of the initial fill *)

Lemma generateLoop_budget (budget : nat) (w h : float) (aps : list Apple.t) (c : nat) :
  (totalApples <= length (fst (generateLoop budget w h aps c)))%nat
  \/ snd (generateLoop budget w h aps c)
     = (c + 2 * budget + (length (fst (generateLoop budget w h aps c)) - length aps))%nat.
Proof.
  revert aps c; induction budget as [|budget IH]; intros aps c.
  - right. cbn. lia.
  - cbn [generateLoop random].
    destruct (Nat.ltb_spec (length aps) totalApples) as [Hlt|Hge]; [|left; exact Hge].
    destruct (overlapsAny (place (Math_random c) w) (place (Math_random (S c)) h) aps).
    + destruct (IH aps (S (S c))) as [Hfull|Hcur]; [now left|right].
      rewrite Hcur. lia.
    + match goal with |- context [generateLoop budget w h (aps ++ [?a]) ?c1] =>
        destruct (IH (aps ++ [a]) c1) as [Hfull|Hcur]; [now left|right];
        destruct (generateLoop_spec budget w h (aps ++ [a]) c1) as (new & Heq & _)
      end.
      rewrite Hcur, Heq, !length_app. cbn [length]. lia.
Qed.

(** The initial fill stops short of 30 tokens only when its 1000 attempts are
    used up: then the random stream has advanced by two draws per attempt and
    one more per accepted token. *)
Theorem generateApples_fills_or_exhausts (g : Game) :
  length (apples (generateApples g)) = totalApples
  \/ ((length (apples (generateApples g)) < totalApples)%nat
      /\ randomCursor (generateApples g)
         = (randomCursor g + 2 * maxAttempts + length (apples (generateApples g)))%nat).
Proof.
  unfold generateApples.
  destruct (generateLoop_budget maxAttempts (width g) (height g) [] (randomCursor g))
    as [Hfull|Hcur];
    destruct (generateLoop_spec maxAttempts (width g) (height g) [] (randomCursor g))
      as (_ & _ & _ & _ & Hlen);
    specialize (Hlen (Nat.le_0_l _));
    destruct (generateLoop maxAttempts (width g) (height g) [] (randomCursor g))
      as [aps c]; cbn [fst snd] in *; game_simpl.
  - left. lia.
  - destruct (Nat.eq_dec (length aps) totalApples) as [Heq|Hne]; [now left|right].
    split; [lia|]. rewrite Hcur. cbn [length]. lia.
Qed.

(** ** Particles *)

Lemma Math_floor_below_four (f : float) :
  (0 <=? f) = true -> (f <? 4) = true -> (0 <= Math_floor f <= 3)%Z.
Proof.
  rewrite leb_spec, ltb_spec. unfold Math_floor.
  pose proof (Prim2SF_valid f) as Hv.
  replace (Prim2SF 0) with (S754_zero false) by reflexivity.
  replace (Prim2SF 4) with (S754_finite false 4503599627370496 (-50)) by reflexivity.
  destruct (Prim2SF f) as [s|s| |s m e]; try (intros; lia).
  apply valid_mantissa_bound in Hv.
  destruct s; [discriminate|]. intros _ Hlt.
  apply SFltb_finite in Hlt.
  assert (Hpow : (0 < 2 ^ (- e))%Z) by (apply Z.pow_pos_nonneg; lia).
  destruct Hlt as [He|[He Hm]].
  - rewrite Z.shiftl_div_pow2 by lia. split.
    + apply Z.div_pos; lia.
    + apply Z.lt_succ_r, Z.div_lt_upper_bound; [exact Hpow|].
      assert (2 ^ 51 <= 2 ^ (- e))%Z by (apply Z.pow_le_mono_r; lia).
      change (2 ^ 53)%Z with (2 ^ 51 * 4)%Z in Hv. lia.
  - subst e. rewrite Z.shiftl_div_pow2 by lia. split.
    + apply Z.div_pos; lia.
    + apply Z.lt_succ_r, Z.div_lt_upper_bound; [exact Hpow|].
      change (2 ^ (- -50) * Z.succ 3)%Z with 4503599627370496%Z. exact Hm.
Qed.

Lemma newParticles_full (n : nat) (x0 y0 : float) (color : option string) (c : nat) :
  length (fst (newParticles n x0 y0 color c)) = n
  /\ snd (newParticles n x0 y0 color c) = (c + 4 * n)%nat
  /\ Forall (fun q => Particle.x q = x0 /\ Particle.y q = y0
                      /\ Particle.color q = color /\ Particle.life q = 1)
            (fst (newParticles n x0 y0 color c)).
Proof.
  revert c; induction n as [|n IH]; intros c;
    [repeat split; [cbn; lia|constructor]|].
  cbn [newParticles newParticle random].
  specialize (IH (S (S (S (S c))))).
  destruct (newParticles n x0 y0 color (S (S (S (S c))))) as [qs c2].
  cbn [fst snd] in *. destruct IH as (Hlen & Hcur & Hall).
  repeat split; [cbn; lia|lia|].
  constructor; [repeat split|exact Hall].
Qed.

(** A colour draw whose product by the palette size lies in [0, 4). *)
Definition validColourDraw (r : float) : Prop :=
  (0 <=? r * 4) = true /\ (r * 4 <? 4) = true.

(** A burst is ten particles at the given place, full of life, all of one
    colour, and that colour is one of the four of the palette whenever the
    colour draw is valid (the palette is never indexed out of range); it uses
    41 draws and touches nothing but the particles. *)
Theorem spawnParticles_burst (x0 y0 : float) (g : Game) :
  validColourDraw (Math_random (randomCursor g)) ->
  exists colour burst,
    In colour colors
    /\ particles (spawnParticles x0 y0 g) = particles g ++ burst
    /\ length burst = 10%nat
    /\ Forall (fun q => Particle.x q = x0 /\ Particle.y q = y0
                        /\ Particle.color q = Some colour /\ Particle.life q = 1)
              burst
    /\ randomCursor (spawnParticles x0 y0 g) = (randomCursor g + 41)%nat
    /\ apples (spawnParticles x0 y0 g) = apples g
    /\ score (spawnParticles x0 y0 g) = score g.
Proof.
  intros [H0 H4]. pose proof (Math_floor_below_four _ H0 H4) as Hidx.
  unfold spawnParticles. cbn [random].
  assert (Hcol : exists colour,
             In colour colors
             /\ array_get colors (Math_floor (Math_random (randomCursor g) * 4))
                = Some colour).
  { unfold array_get.
    destruct (Z.ltb_spec (Math_floor (Math_random (randomCursor g) * 4)) 0); [lia|].
    assert (Hcase : (Z.to_nat (Math_floor (Math_random (randomCursor g) * 4)) < 4)%nat)
      by lia.
    destruct (Z.to_nat (Math_floor (Math_random (randomCursor g) * 4)))
      as [|[|[|[|k]]]]; [| | | |lia]; eexists; (split; [|reflexivity]); cbn; auto. }
  destruct Hcol as (colour & Hin & ->).
  destruct (newParticles_full 10 x0 y0 (Some colour) (S (randomCursor g)))
    as (Hlen & Hcur & Hall).
  destruct (newParticles 10 x0 y0 (Some colour) (S (randomCursor g))) as [qs c2].
  cbn [fst snd] in *. exists colour, qs. game_simpl.
  repeat split; try assumption. lia.
Qed.

Definition alive (q : Particle.t) : Prop := gtb (Particle.life q) 0 = true.

Lemma update_particles_alive (g : Game) : Forall alive (particles (update g)).
Proof.
  unfold update. game_simpl. apply Forall_forall. intros q Hq.
  now apply filter_In in Hq.
Qed.

Lemma updates_score (n : nat) (g : Game) : score (Nat.iter n update g) = score g.
Proof.
  induction n as [|n IH]; [reflexivity|]. now rewrite Nat.iter_succ, <- IH.
Qed.

(** An animation frame is decoration only: with a render loop running, no
    particle whose life has run out survives it; every token keeps its centre,
    value, [selected] and [removed] flag (only the pop-in scale moves); and the
    score, the gesture, the phase, the clock and the timers are untouched. *)
Theorem animation_frame_is_decoration (g : Game) :
  (0 < renderLoops g)%nat ->
  Forall alive (particles (step AnimationFrame g))
  /\ Forall2 (fun a a' => centre a' = centre a /\ Apple.value a' = Apple.value a
                          /\ Apple.selected a' = Apple.selected a
                          /\ Apple.removed a' = Apple.removed a)
       (apples g) (apples (step AnimationFrame g))
  /\ score (step AnimationFrame g) = score g
  /\ gesture (step AnimationFrame g) = gesture g
  /\ sessionView (step AnimationFrame g) = sessionView g.
Proof.
  intros Hloops. cbn [step]. split; [|split; [|split; [|split]]].
  - destruct (renderLoops g) as [|n]; [lia|].
    rewrite Nat.iter_succ. apply update_particles_alive.
  - clear Hloops. rewrite updates_apples. induction (renderLoops g) as [|n IH].
    + cbn. induction (apples g); constructor; auto.
    + rewrite Nat.iter_succ.
      revert IH. generalize (Nat.iter n (map Apple.update) (apples g)) as l.
      intros l Hl. induction Hl as [|a b aps bs (H1 & H2 & H3 & H4) _ IH];
        [cbn [map]; constructor|].
      cbn [map]. constructor; [|exact IH].
      unfold Apple.update. destruct (Apple.scale b <? Apple.targetScale b);
        repeat split; assumption.
  - apply updates_score.
  - apply updates_gesture.
  - apply updates_view.
Qed.

(** ** The score *)

(** The score and the text that shows it. *)
Definition tally (g : Game) : Z * Z := (score g, scoreEl g).

Lemma tally_eq (g g' : Game) :
  tally g' = tally g -> score g' = score g /\ scoreEl g' = scoreEl g.
Proof. unfold tally. intros H. injection H as H1 H2. now split. Qed.

Lemma beginPlay_tally (g : Game) : tally (beginPlay g) = tally g.
Proof.
  unfold beginPlay, loop, update, setInterval, clearInterval. game_simpl.
  destruct (timerInterval g) as [[|k]|]; reflexivity.
Qed.

Lemma endGame_tally (g : Game) : tally (endGame g) = tally g.
Proof.
  unfold endGame, clearInterval. game_simpl.
  destruct (timerInterval g) as [h|]; game_simpl;
    destruct (highScore g <? score g)%Z; reflexivity.
Qed.

Lemma updateTimer_tally (g : Game) : tally (updateTimer g) = tally g.
Proof.
  unfold updateTimer, updateTimerDisplay. game_simpl.
  destruct (timeLeft g - 1 <=? 0)%Z; [|reflexivity].
  now rewrite endGame_tally.
Qed.

Lemma countdownTick_tally (h : nat) (count : Z) (g : Game) :
  tally (countdownTick h count g) = tally g.
Proof.
  unfold countdownTick. destruct (0 <? count - 1)%Z; [reflexivity|].
  now rewrite beginPlay_tally.
Qed.

Lemma updates_tally (n : nat) (g : Game) : tally (Nat.iter n update g) = tally g.
Proof.
  induction n as [|n IH]; [reflexivity|]. now rewrite Nat.iter_succ, <- IH.
Qed.

Lemma handleInputStart_tally (pos : Point) (g : Game) :
  tally (handleInputStart pos g) = tally g.
Proof.
  unfold handleInputStart.
  destruct (negb (Phase_eqb (state g) PLAYING)); reflexivity.
Qed.

Lemma handleInputMove_tally (pos : Point) (g : Game) :
  tally (handleInputMove pos g) = tally g.
Proof.
  unfold handleInputMove.
  destruct (negb (isDrawing g) || negb (Phase_eqb (state g) PLAYING)); [reflexivity|].
  destruct (rev (currentPath g)) as [|lst rest]; [reflexivity|].
  match goal with |- context [if ?b then _ else _] => destruct b end; [|reflexivity].
  unfold checkRealTimeSelection, clearSelection. game_simpl.
  match goal with |- context [if ?b then _ else _] => destruct b end; reflexivity.
Qed.

Lemma scored_tally (g : Game) :
  sumValues (selectedApples g) = 10%Z ->
  (0 < length (selectedApples g))%nat
  /\ score (scored g) = (score g + Z.of_nat (length (selectedApples g)))%Z
  /\ scoreEl (scored g) = score (scored g).
Proof.
  intros Hsum.
  assert (Hlen : (0 < length (selectedApples g))%nat)
    by (destruct (selectedApples g); [discriminate Hsum|cbn; lia]).
  split; [exact Hlen|]. unfold scored.
  destruct (spawnBursts_appends (selectedApples g) (markRemoved g)) as (qs & Happ & _).
  apply appendsParticles_frame in Happ as (_ & Hsc & _).
  unfold updateScore.
  destruct (Z.eqb_spec (Z.of_nat (length (selectedApples g))) 0) as [H0|_]; [lia|].
  game_simpl. rewrite Hsc. split; reflexivity.
Qed.

Lemma checkRefill_tally (g : Game) : tally (checkRefill g) = tally g.
Proof.
  unfold checkRefill, spawnNewApples.
  destruct (0 <? targetApples - currentApples g)%Z; reflexivity.
Qed.

Lemma checkSelection_tally (g : Game) :
  tally (checkSelection g) = tally g
  \/ (sumValues (selectedApples g) = 10%Z
      /\ tally (checkSelection g) = tally (scored g)).
Proof.
  unfold checkSelection.
  destruct (length (currentPath g) <? 3)%nat; [now left|].
  destruct (Z.eqb_spec (sumValues (selectedApples g)) 10) as [Hsum|_]; [|now left].
  right. split; [exact Hsum|].
  change (tally (clearSelection ?s)) with (tally s). apply checkRefill_tally.
Qed.

(** Within a game the score only grows, and only by matches: no event other
    than a restart click lowers it; only a release changes it, and then by the
    number of highlighted tokens (at least one), whose values sum to 10, so the
    reset branch of [updateScore] is never taken by a match.  The score shown
    stays the score. *)
Theorem score_grows_by_matches (e : Event) (g : Game) :
  isClick e = false ->
  (score g <= score (step e g))%Z
  /\ (score (step e g) = score g
      \/ (e = InputEnd
          /\ sumValues (selectedApples g) = 10%Z
          /\ (0 < length (selectedApples g))%nat
          /\ score (step e g) = (score g + Z.of_nat (length (selectedApples g)))%Z))
  /\ (scoreEl g = score g -> scoreEl (step e g) = score (step e g)).
Proof.
  intros He.
  assert (Hsame : tally (step e g) = tally g ->
            (score g <= score (step e g))%Z
            /\ (score (step e g) = score g
                \/ (e = InputEnd
                    /\ sumValues (selectedApples g) = 10%Z
                    /\ (0 < length (selectedApples g))%nat
                    /\ score (step e g)
                       = (score g + Z.of_nat (length (selectedApples g)))%Z))
            /\ (scoreEl g = score g -> scoreEl (step e g) = score (step e g))).
  { intros H. apply tally_eq in H as [-> ->].
    split; [apply Z.le_refl|split; [now left|auto]]. }
  destruct e as [|h| |pos|pos|]; [discriminate He| | | | |].
  - apply Hsame. cbn [step]. destruct (lookupInterval h g) as [[count|]|].
    + apply countdownTick_tally.
    + apply updateTimer_tally.
    + reflexivity.
  - apply Hsame. apply updates_tally.
  - apply Hsame. apply handleInputStart_tally.
  - apply Hsame. apply handleInputMove_tally.
  - revert Hsame. cbn [step]. unfold handleInputEnd.
    destruct (negb (isDrawing g)); intros Hsame; [now apply Hsame|].
    change (tally (set_currentPath [] ?s)) with (tally s) in Hsame.
    change (score (set_currentPath [] ?s)) with (score s).
    change (scoreEl (set_currentPath [] ?s)) with (scoreEl s).
    destruct (checkSelection_tally (set_isDrawing false g)) as [H|[Hsum H]];
      [now apply Hsame|].
    clear Hsame. apply tally_eq in H as [-> ->].
    destruct (scored_tally (set_isDrawing false g) Hsum) as (Hlen & Hsc & Hel).
    change (selectedApples (set_isDrawing false g)) with (selectedApples g) in *.
    change (score (set_isDrawing false g)) with (score g) in Hsc.
    rewrite Hel, Hsc. split; [lia|split; [|reflexivity]].
    right. repeat split; assumption.
Qed.

(** ** The live highlight and the refill *)

(** The live highlight is idempotent: evaluating it again on an unchanged
    path changes nothing, so the flags it leaves depend on the path and on the
    tokens only, not on how often a move event re-evaluated them. *)
Theorem checkRealTimeSelection_idempotent (g : Game) :
  checkRealTimeSelection (checkRealTimeSelection g) = checkRealTimeSelection g.
Proof.
  unfold checkRealTimeSelection.
  destruct (length (currentPath g) <? 3)%nat eqn:E.
  - change (currentPath (clearSelection g)) with (currentPath g). rewrite E.
    unfold clearSelection, set_apples. game_simpl. rewrite map_map.
    reflexivity.
  - match goal with |- context [currentPath (set_apples ?l g)] =>
      change (currentPath (set_apples l g)) with (currentPath g)
    end.
    rewrite E. unfold set_apples. game_simpl. rewrite map_map.
    f_equal. apply map_ext. intros a.
    destruct (Apple.removed a) eqn:Er; [now rewrite Er|].
    cbn [Apple.removed Apple.set_selected]. rewrite Er. reflexivity.
Qed.

(** The refill never touches a surviving token: the active tokens of the
    board stay as they are and in their order, and what is added comes after
    them, freshly built (neither selected nor removed, scale 0), at most as
    many as are missing from 30.  Score and particles are left alone. *)
Theorem checkRefill_keeps_survivors (g : Game) :
  exists new,
    Forall fresh new
    /\ filter active (apples (checkRefill g)) = filter active (apples g) ++ new
    /\ (Z.of_nat (length new) <= Z.max 0 (targetApples - currentApples g))%Z
    /\ score (checkRefill g) = score g
    /\ particles (checkRefill g) = particles g.
Proof.
  unfold checkRefill.
  destruct (Z.ltb_spec 0 (targetApples - currentApples g)) as [Hpos|Hneg].
  - unfold spawnNewApples, spawnRun. game_simpl.
    destruct (spawnLoop_spec refillAttempts (width g) (height g)
                (targetApples - currentApples g)
                (mkSpawned 0 0 (apples g) (randomCursor g)))
      as (_ & Hadd & _ & new & Hboard & Hlen & Hfresh); [cbn [added]; lia|].
    cbn [added board] in *. exists new.
    rewrite Hboard, filter_active_twice, filter_app, (filter_active_fresh new Hfresh).
    repeat split; [exact Hfresh|lia].
  - exists []. rewrite app_nil_r. repeat split; [constructor|cbn [length]; lia].
Qed.

(** ** Restarting while a clock runs, and the render loops *)

Lemma startCountdown_session (g : Game) :
  state (startCountdown g) = COUNTDOWN
  /\ timeLeft (startCountdown g) = 60%Z
  /\ renderLoops (startCountdown g) = renderLoops g
  /\ intervals (startCountdown g)
     = intervals g ++ [(nextInterval g, CountdownInterval 3)].
Proof.
  destruct (timers_is _ _ _ _ (startCountdown_timers g)) as (Hiv & _ & _).
  rewrite Hiv. clear Hiv. rewrite startCountdown_unfold.
  set (g5 := set_apples []
               (updateTimerDisplay
                  (updateScore 0 (set_timeLeft 60 (set_score 0 (set_state COUNTDOWN g)))))).
  destruct (setInterval_view (CountdownInterval 3) (generateApples g5))
    as (-> & -> & _ & _ & _ & _ & _ & _ & ->).
  pose proof (generateApples_view g5) as Hv.
  destruct (view_clock _ _ Hv) as (-> & ->).
  destruct (view_rest _ _ Hv) as (_ & -> & _).
  repeat split.
Qed.

Lemma find_app_found {A : Type} (f : A -> bool) (l l' : list A) (a : A) :
  find f l = Some a -> find f (l ++ l') = Some a.
Proof.
  induction l as [|b l IH]; [discriminate|]. cbn [find app].
  destruct (f b); [auto|exact IH].
Qed.

Lemma lookupInterval_more (h : nat) (f : Interval) (g g' : Game)
      (more : list (nat * Interval)) :
  intervals g' = intervals g ++ more ->
  lookupInterval h g = Some f -> lookupInterval h g' = Some f.
Proof.
  unfold lookupInterval. intros ->.
  destruct (find (fun e => Nat.eqb (fst e) h) (intervals g)) as [e|] eqn:E;
    [|discriminate].
  now rewrite (find_app_found _ _ more _ E).
Qed.

Lemma step_clock_fires (h : nat) (g : Game) :
  lookupInterval h g = Some ClockInterval ->
  step (IntervalFires h) g = updateTimer g.
Proof. cbn [step]. now intros ->. Qed.

Lemma updateTimer_tick (g : Game) :
  (1 < timeLeft g)%Z ->
  state (updateTimer g) = state g
  /\ timeLeft (updateTimer g) = (timeLeft g - 1)%Z
  /\ timerEl (updateTimer g) = (timeLeft g - 1)%Z.
Proof. intros H. rewrite (updateTimer_running g H). repeat split. Qed.

(** A restart click does not stop a running clock: the clock interval stays
    registered, and when it next fires, during the 3-2-1 countdown, it takes a
    second off the fresh 60 while the phase is still [COUNTDOWN]. *)
Theorem clock_survives_restart (h : nat) (g : Game) :
  lookupInterval h g = Some ClockInterval ->
  lookupInterval h (step Click g) = Some ClockInterval
  /\ state (step (IntervalFires h) (step Click g)) = COUNTDOWN
  /\ timeLeft (step (IntervalFires h) (step Click g)) = 59%Z
  /\ timerEl (step (IntervalFires h) (step Click g)) = 59%Z.
Proof.
  intros Hlook.
  assert (Hstep : step Click g = startCountdown g) by reflexivity.
  destruct (startCountdown_session g) as (Hst & Ht & _ & Hiv).
  rewrite <- Hstep in Hst, Ht, Hiv.
  generalize dependent (step Click g). intros g1 _ Hst Ht Hiv.
  pose proof (lookupInterval_more h ClockInterval g g1 _ Hiv Hlook) as Hl1.
  split; [exact Hl1|].
  rewrite (step_clock_fires h g1 Hl1).
  destruct (updateTimer_tick g1) as (-> & -> & ->); [lia|].
  rewrite Hst, Ht. repeat split.
Qed.

Lemma updateTimer_renderLoops (g : Game) :
  renderLoops (updateTimer g) = renderLoops g.
Proof.
  unfold updateTimer, updateTimerDisplay, endGame, clearInterval. game_simpl.
  destruct (timeLeft g - 1 <=? 0)%Z; [|reflexivity].
  destruct (timerInterval g); game_simpl;
    destruct (highScore g <? score g)%Z; reflexivity.
Qed.

Lemma step_renderLoops (e : Event) (g : Game) :
  (renderLoops g <= renderLoops (step e g))%nat.
Proof.
  destruct e as [|h| |pos|pos|].
  - cbn [step]. unfold startGame.
    destruct (startCountdown_session g) as (_ & _ & -> & _). apply Nat.le_refl.
  - cbn [step]. destruct (lookupInterval h g) as [[count|]|].
    + unfold countdownTick. destruct (0 <? count - 1)%Z; [apply Nat.le_refl|].
      destruct (beginPlay_fields (clearInterval (Some h) g)) as (_ & _ & _ & ->).
      apply Nat.le_succ_diag_r.
    + rewrite updateTimer_renderLoops. apply Nat.le_refl.
    + apply Nat.le_refl.
  - destruct (view_rest _ _ (step_view AnimationFrame g I)) as (_ & -> & _).
    apply Nat.le_refl.
  - destruct (view_rest _ _ (step_view (InputStart pos) g I)) as (_ & -> & _).
    apply Nat.le_refl.
  - destruct (view_rest _ _ (step_view (InputMove pos) g I)) as (_ & -> & _).
    apply Nat.le_refl.
  - destruct (view_rest _ _ (step_view InputEnd g I)) as (_ & -> & _).
    apply Nat.le_refl.
Qed.

(** A render loop, once started, is never stopped: over any sequence of
    events the number of loops re-arming themselves does not go down, and
    every countdown that completes adds one.  Each animation frame therefore
    runs [update] once per game begun so far. *)
Theorem render_loops_accumulate (es : list Event) (h : nat) (g : Game) :
  (renderLoops g <= renderLoops (run es g))%nat
  /\ (lookupInterval h (run es g) = Some (CountdownInterval 1) ->
      renderLoops (step (IntervalFires h) (run es g)) = S (renderLoops (run es g))).
Proof.
  split.
  - revert g; induction es as [|e es IH]; intros g; [apply Nat.le_refl|].
    rewrite run_cons.
    exact (Nat.le_trans _ _ _ (step_renderLoops e g) (IH (step e g))).
  - generalize (run es g). intros g1 Hl. cbn [step]. rewrite Hl.
    unfold countdownTick. cbn [Z.sub Z.add Z.opp Z.pos_sub Z.ltb Z.compare].
    now destruct (beginPlay_fields (clearInterval (Some h) g1)) as (_ & _ & _ & ->).
Qed.

End Host.

(** ** Geometry: the loop against the even-odd rule *)

Section Geometry.

Variable p : Point.

Lemma intersect_ray_crosses (a b : Point) :
  intersect p a b = ray_crosses p (a, b).
Proof.
  unfold intersect, ray_crosses, straddles, crossing_x, gtb; simpl.
  destruct (y p <? y a), (y p <? y b); reflexivity.
Qed.

(** Toggling a flag once per crossed edge computes the parity of their number. *)
Lemma toggle_parity (es : list (Point * Point)) (b : bool) :
  fold_left (fun acc e => if ray_crosses p e then negb acc else acc) es b
  = xorb b (Nat.odd (length (filter (ray_crosses p) es))).
Proof.
  revert b; induction es as [|e es IH]; intros b; simpl.
  - now rewrite xorb_false_r.
  - rewrite IH. destruct (ray_crosses p e); simpl; [|reflexivity].
    rewrite Nat.odd_succ, <- Nat.negb_odd.
    destruct b, (Nat.odd (length (filter (ray_crosses p) es))); reflexivity.
Qed.

(** The index loop visits the pairs [(i, j)] where [j] is the index visited
    just before [i]. *)
Lemma pip_loop_pairs (vs : list Point) (k start j : nat) (b : bool) :
  fst (fold_left (pip_step p vs) (seq start k) (b, j))
  = fold_left (fun acc e => if ray_crosses p e then negb acc else acc)
      (map (fun ij => (nth (fst ij) vs origin, nth (snd ij) vs origin))
           (combine (seq start k) (j :: seq start k)))
      b.
Proof.
  revert start j b; induction k as [|k IH]; intros start j b.
  - reflexivity.
  - cbn [seq fold_left combine map fst snd pip_step].
    rewrite IH, intersect_ray_crosses. reflexivity.
Qed.

End Geometry.

Lemma map_nth_seq (vs : list Point) :
  map (fun i => nth i vs origin) (seq 0 (length vs)) = vs.
Proof.
  induction vs as [|v vs IH]; [reflexivity|].
  cbn [length seq map nth]. f_equal.
  rewrite <- seq_shift, map_map. exact IH.
Qed.

Lemma combine_removelast (vs ws : list Point) (l : Point) :
  (length vs <= S (length ws))%nat ->
  combine vs (l :: ws) = combine vs (l :: firstn (length vs - 1) ws).
Proof.
  revert ws l; induction vs as [|v vs IH]; intros ws l Hlen; [reflexivity|].
  cbn [combine length]. f_equal.
  destruct vs as [|v' vs]; [reflexivity|].
  destruct ws as [|w ws]; [simpl in Hlen; lia|].
  replace (S (length (v' :: vs)) - 1)%nat with (S (length (v' :: vs) - 1)) by (simpl; lia).
  cbn [firstn]. apply IH. simpl in *; lia.
Qed.

Lemma removelast_firstn_len (vs : list Point) :
  removelast vs = firstn (length vs - 1) vs.
Proof.
  induction vs as [|v vs IH]; [reflexivity|].
  destruct vs as [|v' vs]; [reflexivity|].
  change (removelast (v :: v' :: vs)) with (v :: removelast (v' :: vs)).
  rewrite IH. simpl. now rewrite Nat.sub_0_r.
Qed.

Lemma index_pairs_edges (vs : list Point) :
  map (fun ij => (nth (fst ij) vs origin, nth (snd ij) vs origin))
      (combine (seq 0 (length vs)) ((length vs - 1)%nat :: seq 0 (length vs)))
  = edges vs.
Proof.
  unfold edges, predecessors.
  destruct vs as [|v vs]; [reflexivity|].
  set (ws := v :: vs).
  transitivity (combine (map (fun i => nth i ws origin) (seq 0 (length ws)))
                        (map (fun i => nth i ws origin)
                             ((length ws - 1)%nat :: seq 0 (length ws)))).
  - generalize (seq 0 (length ws)) ((length ws - 1)%nat :: seq 0 (length ws)).
    induction l as [|i l IH]; intros [|j l']; simpl; try reflexivity.
    now rewrite IH.
  - cbn [map]. rewrite map_nth_seq.
    rewrite combine_removelast by lia.
    rewrite <- removelast_firstn_len.
    f_equal. f_equal.
    subst ws.
    revert v; induction vs as [|v' vs IH]; intros v; [reflexivity|].
    specialize (IH v'). simpl in *. rewrite Nat.sub_0_r in IH. exact IH.
Qed.

(** C3.  For every query point and every path, [isPointInPolygon] answers
    "inside" exactly when the number of polygon edges that straddle the
    point's ordinate under the half-open rule and whose crossing abscissa
    strictly exceeds the point's abscissa is odd. *)
Theorem isPointInPolygon_even_odd (p : Point) (vs : list Point) :
  isPointInPolygon p vs = true <-> Nat.odd (crossings p vs) = true.
Proof.
  unfold isPointInPolygon, crossings.
  rewrite pip_loop_pairs, index_pairs_edges, toggle_parity.
  rewrite xorb_false_l. reflexivity.
Qed.

(** ** Further properties of the ray-casting test *)

Lemma isPointInPolygon_parity (p : Point) (vs : list Point) :
  isPointInPolygon p vs = Nat.odd (crossings p vs).
Proof.
  unfold isPointInPolygon, crossings.
  rewrite pip_loop_pairs, index_pairs_edges, toggle_parity.
  now rewrite xorb_false_l.
Qed.

Lemma edges_endpoints (vs : list Point) (a b : Point) :
  In (a, b) (edges vs) -> In a vs /\ In b vs.
Proof.
  unfold edges, predecessors. intros Hin. split.
  - exact (in_combine_l _ _ _ _ Hin).
  - apply in_combine_r in Hin. destruct vs as [|v vs]; [contradiction|].
    destruct Hin as [<-|Hin].
    + destruct (exists_last (l := v :: vs)) as (l' & z & Heq); [discriminate|].
      rewrite Heq, last_last. apply in_or_app. right. now left.
    + destruct (exists_last (l := v :: vs)) as (l' & z & Heq); [discriminate|].
      rewrite Heq in Hin |- *. rewrite removelast_last in Hin.
      apply in_or_app. now left.
Qed.

(** The test answers "outside" for a query point that no vertex of the path
    lies strictly above, and for one that every vertex lies strictly above:
    no edge then straddles its ordinate. *)
Theorem isPointInPolygon_beyond_path (p : Point) (vs : list Point) :
  ((forall v, In v vs -> (y p <? y v) = false)
   \/ (forall v, In v vs -> (y p <? y v) = true)) ->
  isPointInPolygon p vs = false.
Proof.
  intros Hside. rewrite isPointInPolygon_parity. unfold crossings.
  rewrite filter_none; [reflexivity|].
  intros [a b] Hin. apply edges_endpoints in Hin as [Ha Hb].
  unfold ray_crosses, straddles. cbn [fst snd].
  destruct Hside as [H|H]; now rewrite (H a Ha), (H b Hb).
Qed.

Lemma edges_rotate (vs : list Point) (a v : Point) :
  combine (vs ++ [v]) (a :: vs)
  = combine vs (removelast (a :: vs)) ++ [(v, last (a :: vs) origin)].
Proof.
  revert a; induction vs as [|b vs IH]; intros a; [reflexivity|].
  change (combine ((b :: vs) ++ [v]) (a :: b :: vs))
    with ((b, a) :: combine (vs ++ [v]) (b :: vs)).
  rewrite IH. reflexivity.
Qed.

Lemma crossings_rotate (p : Point) (vs : list Point) (v : Point) :
  crossings p (vs ++ [v]) = crossings p (v :: vs).
Proof.
  unfold crossings, edges.
  assert (Hl : predecessors (vs ++ [v]) = v :: vs).
  { unfold predecessors. destruct (vs ++ [v]) eqn:E.
    - now destruct vs.
    - rewrite <- E. now rewrite last_last, removelast_last. }
  rewrite Hl, edges_rotate.
  change (predecessors (v :: vs)) with (last (v :: vs) origin :: removelast (v :: vs)).
  cbn [combine]. rewrite filter_app, length_app. cbn [filter].
  destruct (ray_crosses p (v, last (v :: vs) origin)); cbn [length]; lia.
Qed.

(** The answer does not depend on where along the closed path the recording
    started: rotating the list of vertices leaves it unchanged. *)
Theorem isPointInPolygon_rotate (p : Point) (vs ws : list Point) :
  isPointInPolygon p (vs ++ ws) = isPointInPolygon p (ws ++ vs).
Proof.
  rewrite !isPointInPolygon_parity. f_equal.
  revert ws; induction vs as [|v vs IH]; intros ws.
  - now rewrite app_nil_r.
  - change ((v :: vs) ++ ws) with (v :: (vs ++ ws)).
    rewrite <- crossings_rotate, <- app_assoc, IH, <- app_assoc. reflexivity.
Qed.

(** ** A concrete host and concrete sessions *)

(** [Math.hypot] as the square root of the sum of squares, and a periodic
    stream of draws, all of them exact binary fractions of [0, 1). *)
Definition demo_hypot (dx dy : float) : float := sqrt (dx * dx + dy * dy).

Definition demo_draws : list float :=
  [0.5; 0.25; 0.75; 0.125; 0.375; 0.625; 0.875].

Definition demo_random (n : nat) : float := nth (n mod 7) demo_draws 0.5.

(** A token that has finished popping in. *)
Definition token (x0 y0 : float) (v : Z) (sel : bool) : Apple.t :=
  Apple.mk x0 y0 v 25 sel 1 1 false.

(** An 800 x 600 board in [PLAYING] with one second left on a live clock. *)
Definition session (aps : list Apple.t) (drawing : bool) (path : list Point) : Game :=
  mkGame aps [] 0 drawing path PLAYING 1 (Some 1%nat) 0 800 600 0 1 0 0 false None
    [(1%nat, ClockInterval)] 2 1 0.

Definition triangle : list Point := [mkPoint 0 0; mkPoint 200 0; mkPoint 0 200].

(** A lasso around the tokens 4 and 6, already highlighted. *)
Definition demo_match : Game :=
  session [token 40 40 4 true; token 40 110 6 true; token 300 300 5 false] true triangle.

(** The same lasso around two tokens of value 3. *)
Definition demo_miss : Game :=
  session [token 40 40 3 true; token 40 110 3 true; token 300 300 5 false] true triangle.

(** The same board before the gesture. *)
Definition demo_idle : Game :=
  session [token 40 40 4 false; token 40 110 6 false; token 300 300 5 false] false [].

(** The draws of [demo_random], scaled by 9, stay in [0, 9). *)
Lemma demo_random_valid (n : nat) : validDraw (demo_random n).
Proof.
  unfold demo_random.
  assert (H : Forall validDraw demo_draws) by (repeat constructor).
  rewrite Forall_forall in H. apply H, nth_In.
  change (length demo_draws) with 7%nat. apply Nat.mod_upper_bound. discriminate.
Qed.

(** *** The claims at concrete inputs *)

Lemma gesture_end_match_witness :
  sumValues (selectedApples demo_match) = 10%Z
  /\ score (handleInputEnd demo_random demo_hypot demo_match) = 2%Z.
Proof.
  split; [reflexivity|].
  destruct (gesture_end_match demo_random demo_hypot demo_match)
    as (_ & _ & H & _);
    [reflexivity|vm_compute; lia|reflexivity|rewrite H; reflexivity].
Defined.

Lemma gesture_end_without_match_witness :
  sumValues (selectedApples demo_miss) = 6%Z
  /\ score (handleInputEnd demo_random demo_hypot demo_miss) = score demo_miss
  /\ Forall unselected (apples (handleInputEnd demo_random demo_hypot demo_miss)).
Proof.
  split; [reflexivity|].
  destruct (gesture_end_without_match demo_random demo_hypot demo_miss)
    as (Hframe & Hclear & _); [reflexivity|].
  split.
  - apply Hframe. right. vm_compute. discriminate.
  - apply Hclear. vm_compute. lia.
Defined.

(** *** C2: a release on a path cut short by a second press *)

(** The board of [demo_miss] before the gesture. *)
Definition demo_idle_miss : Game :=
  session [token 40 40 3 false; token 40 110 3 false; token 300 300 5 false] false [].

(** A lasso is drawn around the two tokens of value 3, which the live
    highlight flags; then a second press (another button, another finger)
    starts the path again from a single point. *)
Definition second_press : list Event :=
  [InputStart (mkPoint 0 0); InputMove (mkPoint 200 0); InputMove (mkPoint 0 200);
   InputStart (mkPoint 0 0)].

Definition pressed_again : Game := run demo_random demo_hypot second_press demo_idle_miss.

(** The release that follows finds a path of one point: [checkSelection]
    returns before its clearing pass, and the two tokens stay flagged although
    the gesture is over and their values sum to 6. *)
Lemma short_release_keeps_flags :
  isDrawing pressed_again = true
  /\ length (currentPath pressed_again) = 1%nat
  /\ sumValues (selectedApples pressed_again) = 6%Z
  /\ isDrawing (handleInputEnd demo_random demo_hypot pressed_again) = false
  /\ map Apple.selected (apples (handleInputEnd demo_random demo_hypot pressed_again))
     = [true; true; false].
Proof. vm_compute. repeat split. Qed.

Lemma match_takes_two_witness :
  (2 <= length (selectedApples demo_match))%nat.
Proof.
  destruct (match_takes_two demo_random demo_hypot demo_match) as (H & _);
    [repeat constructor; vm_compute; discriminate|vm_compute; lia|reflexivity
    |exact H].
Defined.


Lemma demo_clockTracked : clockTracked demo_idle.
Proof.
  repeat split.
  - intros h [H|[]]. now inversion H.
  - intros h H. inversion H. repeat constructor.
  - repeat constructor.
Qed.

Lemma clock_expiry_witness :
  state (updateTimer demo_idle) = FINISHED
  /\ (forall h, ~ In (h, ClockInterval) (intervals (updateTimer demo_idle))).
Proof.
  destruct (clock_expiry demo_idle) as (H1 & H2 & _).
  - vm_compute. discriminate.
  - exact demo_clockTracked.
  - vm_compute. discriminate.
  - split; assumption.
Defined.

(** *** C5: a release after the clock has run out *)

(** A lasso is drawn around the tokens 4 and 6 while [PLAYING]; the clock
    interval fires and ends the game; then the pointer is released. *)
Definition late_release : list Event :=
  [InputStart (mkPoint 0 0); InputMove (mkPoint 200 0); InputMove (mkPoint 0 200);
   IntervalFires 1].

Definition finished_drawing : Game := run demo_random demo_hypot late_release demo_idle.

(** C5.  Pointer input does change tokens and score outside [PLAYING]:
    [handleInputEnd], unlike [handleInputStart] and [handleInputMove], does
    not test the phase.  With the session [FINISHED] (final score 0 shown),
    the release of a gesture begun while [PLAYING] still evaluates the
    selection: the tokens 4 and 6 are removed and the score becomes 2. *)
Theorem release_scores_when_finished :
  state finished_drawing = FINISHED
  /\ score finished_drawing = 0%Z
  /\ finalScoreEl finished_drawing = 0%Z
  /\ map Apple.value (selectedApples finished_drawing) = [4%Z; 6%Z]
  /\ state (step demo_random demo_hypot InputEnd finished_drawing) = FINISHED
  /\ score (step demo_random demo_hypot InputEnd finished_drawing) = 2%Z
  /\ existsb (fun a => (Apple.x a =? 40) && (Apple.y a =? 40))
       (apples (step demo_random demo_hypot InputEnd finished_drawing)) = false.
Proof. vm_compute. repeat split. Qed.

(** *** C4: a restart in the middle of a gesture *)

(** A lasso of three points is drawn on the running board, and before the
    release a click on the reset button regenerates the board. *)
Definition restart_mid_gesture : list Event :=
  [InputStart (mkPoint 300 100); InputMove (mkPoint 500 100);
   InputMove (mkPoint 400 300); Click].

Definition restarted : Game := run demo_random demo_hypot restart_mid_gesture demo_idle.

(** On that release no token is summed, although the ray-casting test
    reports the centre of a token of the new board inside the final path. *)
Lemma release_after_restart_differs :
  isDrawing restarted = true
  /\ currentPath restarted = [mkPoint 300 100; mkPoint 500 100; mkPoint 400 300]
  /\ selectedApples restarted = []
  /\ map centre (contained restarted) = [mkPoint 400 167.5]
  /\ selectedApples restarted <> contained restarted.
Proof. vm_compute. repeat split. discriminate. Qed.

Definition lasso_gesture : list Event :=
  [InputStart (mkPoint 0 0); InputMove (mkPoint 200 0); InputMove (mkPoint 0 200);
   AnimationFrame; InputMove (mkPoint 1 200)].

Lemma release_sums_contained_witness :
  map Apple.value (selectedApples (run demo_random demo_hypot lasso_gesture demo_idle))
  = [4%Z; 6%Z]
  /\ selectedApples (run demo_random demo_hypot lasso_gesture demo_idle)
     = contained (run demo_random demo_hypot lasso_gesture demo_idle).
Proof.
  split; [vm_compute; reflexivity|].
  destruct (release_sums_contained demo_random demo_hypot lasso_gesture demo_idle)
    as (_ & H); [apply inSync_short; vm_compute; lia|reflexivity|].
  apply H. vm_compute. lia.
Defined.

(** *** C6: a board narrower than the inset *)

(** A 60 x 600 board: the inset play area [35, 60 - 35] is empty. *)
Definition narrow_board : Game :=
  mkGame [] [] 0 false [] INTRO 60 None 0 60 600 0 60 0 0 false None [] 1 0 0.

(** The first token the initial fill accepts there lies 30 units from the
    left edge, less than [appleRadius + buffer = 35]. *)
Lemma narrow_board_outside_inset :
  map centre (firstn 1 (apples (generateApples demo_random demo_hypot narrow_board)))
  = [mkPoint 30 167.5]
  /\ (30 <? appleRadius + buffer) = true.
Proof. vm_compute. split; reflexivity. Qed.

(** Room alone is not enough: on an unbounded extent the draw 0 is placed
    at [0 * infinity + 35], which is not a number. *)
Lemma unbounded_board_outside_inset :
  (appleRadius + buffer <=? place 0 infinity) = false.
Proof. vm_compute. reflexivity. Qed.

(** The draws of [demo_random] are doubles of [0, 1). *)
Lemma demo_random_unit (n : nat) : unitDraw (demo_random n).
Proof.
  unfold demo_random.
  assert (H : Forall unitDraw demo_draws) by (repeat constructor).
  rewrite Forall_forall in H. apply H, nth_In.
  change (length demo_draws) with 7%nat. apply Nat.mod_upper_bound. discriminate.
Qed.

Lemma sampler_keeps_spacing_witness :
  Forall (accepted demo_random (width demo_idle) (height demo_idle))
    (apples (generateApples demo_random demo_hypot demo_idle))
  /\ spaced demo_hypot (apples (generateApples demo_random demo_hypot demo_idle)).
Proof.
  destruct (sampler_keeps_spacing demo_random demo_hypot demo_idle)
    as ((H1 & H2 & _) & _);
    [exact demo_random_unit|split; reflexivity|split; reflexivity|].
  split; [exact H1|exact H2].
Defined.

(** *** C9: a two-point path that contains a point *)

(** The two edge tests of the path [(0,0), (1,3)] compute the crossing at
    ordinate 1 as [1/3] and as [2 / -3 + 1]; the query abscissa [1/3] is below
    the second and not below the first. *)
Lemma two_point_path_contains :
  isPointInPolygon (mkPoint (1 / 3) 1) [mkPoint 0 0; mkPoint 1 3] = true.
Proof. vm_compute. reflexivity. Qed.

Lemma short_path_not_contained_witness :
  checkSelection demo_random demo_hypot
    (session [token 40 40 4 true] true [mkPoint 0 0; mkPoint 200 0])
  = session [token 40 40 4 true] true [mkPoint 0 0; mkPoint 200 0].
Proof.
  destruct (short_path_not_contained demo_random demo_hypot
              (session [token 40 40 4 true] true [mkPoint 0 0; mkPoint 200 0]) origin)
    as (_ & H & _); [vm_compute; lia|exact H].
Defined.

(** *** Further properties at concrete inputs *)

(** The page as the constructor leaves it on an 800 x 600 canvas: phase
    [INTRO], no board, no interval, no render loop. *)
Definition demo_intro : Game :=
  mkGame [] [] 0 false [] INTRO 60 None 0 800 600 0 60 0 0 false None [] 1 0 0.

(** After a click, before the countdown interval has fired. *)
Definition demo_countdown : Game :=
  mkGame [] [] 0 false [] COUNTDOWN 60 None 0 800 600 0 60 0 0 false None
    [(1%nat, CountdownInterval 3)] 2 0 0.

Lemma demo_timersSound : timersSound demo_idle.
Proof.
  split; [exact demo_clockTracked|]. split; repeat constructor.
  intros [].
Qed.

Lemma demo_countdown_sound : timersSound demo_countdown.
Proof.
  split; [|split; repeat constructor; intros []].
  repeat split.
  - intros h [H|[]]. discriminate H.
  - intros h H. discriminate H.
  - repeat constructor.
Qed.

Lemma isPointInPolygon_beyond_path_witness :
  isPointInPolygon (mkPoint 50 300) triangle = false.
Proof.
  apply isPointInPolygon_beyond_path. left.
  intros v [<-|[<-|[<-|[]]]]; reflexivity.
Defined.

Lemma step_pathRecorded_witness :
  pathRecorded demo_match
  /\ pathRecorded (step demo_random demo_hypot (InputMove (mkPoint 100 100)) demo_match).
Proof.
  assert (H : pathRecorded demo_match) by (vm_compute; discriminate).
  split; [exact H|].
  destruct (step_pathRecorded demo_random demo_hypot (InputMove (mkPoint 100 100))
              demo_match H) as [H' _].
  exact H'.
Defined.

Lemma step_decimated_witness :
  decimated demo_hypot triangle
  /\ decimated demo_hypot
       (currentPath (step demo_random demo_hypot (InputMove (mkPoint 100 100)) demo_match)).
Proof.
  assert (H : decimated demo_hypot (currentPath demo_match))
    by (vm_compute; repeat split).
  split; [exact H|].
  exact (step_decimated demo_random demo_hypot (InputMove (mkPoint 100 100))
           demo_match H).
Defined.

Lemma gesture_ignored_outside_play_witness :
  run demo_random demo_hypot
    [InputStart (mkPoint 0 0); InputMove (mkPoint 200 0); InputMove (mkPoint 0 200);
     InputEnd] demo_intro
  = demo_intro.
Proof.
  apply gesture_ignored_outside_play; [discriminate|reflexivity|reflexivity].
Defined.

Lemma step_timersSound_witness :
  timersSound demo_idle
  /\ (liveClocks (step demo_random demo_hypot (IntervalFires 1) demo_idle) <= 1)%nat.
Proof.
  split; [exact demo_timersSound|].
  destruct (step_timersSound demo_random demo_hypot (IntervalFires 1) demo_idle
              demo_timersSound) as [_ H].
  exact H.
Defined.

Lemma clock_runs_down_witness :
  state (run demo_random demo_hypot (repeat (IntervalFires 1) 1) demo_idle) = FINISHED
  /\ timeLeft (run demo_random demo_hypot (repeat (IntervalFires 1) 1) demo_idle) = 0%Z.
Proof.
  destruct (clock_runs_down demo_random demo_hypot 1 0 demo_idle)
    as (_ & H1 & H2 & _); [reflexivity|reflexivity|reflexivity|].
  split; [exact H1|exact H2].
Defined.

Lemma countdown_begins_play_witness :
  state (run demo_random demo_hypot
           [IntervalFires 1; IntervalFires 1; IntervalFires 1] demo_countdown)
  = PLAYING.
Proof.
  destruct (countdown_begins_play demo_random demo_hypot 1 demo_countdown)
    as (_ & H & _); [exact demo_countdown_sound|reflexivity|exact H].
Defined.

Lemma best_score_persists_witness :
  storedBest (run demo_random demo_hypot (late_release ++ [InputEnd]) demo_idle)
  = highScore (run demo_random demo_hypot (late_release ++ [InputEnd]) demo_idle).
Proof.
  destruct (best_score_persists demo_random demo_hypot (late_release ++ [InputEnd])
              demo_idle) as [_ H]; [reflexivity|exact H].
Defined.

Lemma step_boardSound_witness :
  boardSound (apples demo_match)
  /\ boardSound (apples (step demo_random demo_hypot InputEnd demo_match)).
Proof.
  assert (H : boardSound (apples demo_match))
    by (split; [repeat constructor|vm_compute; lia]).
  split; [exact H|].
  exact (step_boardSound demo_random demo_hypot InputEnd demo_match H).
Defined.

Lemma step_digits_witness :
  Forall digit (apples (step demo_random demo_hypot InputEnd demo_match)).
Proof.
  apply (step_digits demo_random demo_hypot InputEnd demo_match demo_random_valid).
  repeat constructor; vm_compute; discriminate.
Defined.

Lemma spawnParticles_burst_witness :
  exists colour burst,
    In colour colors
    /\ particles (spawnParticles demo_random 40 40 demo_idle)
       = particles demo_idle ++ burst
    /\ length burst = 10%nat.
Proof.
  destruct (spawnParticles_burst demo_random 40 40 demo_idle)
    as (colour & burst & Hin & Happ & Hlen & _); [split; reflexivity|].
  exists colour, burst. repeat split; assumption.
Defined.

Lemma animation_frame_is_decoration_witness :
  Forall alive (particles (step demo_random demo_hypot AnimationFrame demo_idle))
  /\ score (step demo_random demo_hypot AnimationFrame demo_idle) = score demo_idle.
Proof.
  destruct (animation_frame_is_decoration demo_random demo_hypot demo_idle)
    as (H1 & _ & H2 & _); [vm_compute; lia|].
  split; [exact H1|exact H2].
Defined.

Lemma score_grows_by_matches_witness :
  (score demo_match <= score (step demo_random demo_hypot InputEnd demo_match))%Z.
Proof.
  destruct (score_grows_by_matches demo_random demo_hypot InputEnd demo_match)
    as (H & _); [reflexivity|exact H].
Defined.

Lemma clock_survives_restart_witness :
  state (step demo_random demo_hypot (IntervalFires 1)
           (step demo_random demo_hypot Click demo_idle)) = COUNTDOWN
  /\ timeLeft (step demo_random demo_hypot (IntervalFires 1)
                 (step demo_random demo_hypot Click demo_idle)) = 59%Z.
Proof.
  destruct (clock_survives_restart demo_random demo_hypot 1 demo_idle)
    as (_ & H1 & H2 & _); [reflexivity|].
  split; [exact H1|exact H2].
Defined.
